(** * gocryptfs: content codec, KDF parameter floors, parallel driver and
    filename authentication.

  A shallow embedding of
    - [internal/contentenc/content.go]      (block encryption and decryption),
    - [internal/configfile] scrypt/argon2   (parameter validation),
    - [internal/parallelcrypto]             (worker count and sharding),
    - [internal/filenameauth]               (MAC suffix on encrypted names),
    - [internal/writecoalescing]            (write buffer and its manager),
    - [internal/cryptocore]                 (the optimized backend),
    - [internal/cpudetection]               (CPU features, recommended backend),
  followed by the properties the specification states about them and by
  further properties of the same code.

  Conventions.  Go [int], [uint32], [uint64] values are [Z]; where the
  source relies on wrap-around it is written out with [wrap64].  A
  [[]byte] and a Go [string] are [list byte]; the names of platforms and
  backends in [cpudetection] are [string]s.  A function that returns
  [(value, error)] returns a [result]; a function that may panic or end
  the process returns an [outcome]. *)

From Stdlib Require Import ZArith Lia Strings.Byte Strings.String.
From stdpp Require Import base tactics option list gmap.

Open Scope Z_scope.

(** ** Go prelude *)

Module golang.

Abbreviation bytes := (list byte).

#[global] Instance byte_eq_dec : EqDecision byte := Byte.byte_eq_dec.

(** [len(s)] as a Go [int]. *)
Definition len {A} (s : list A) : Z := Z.of_nat (length s).

(** [make([]byte, n)]: [n] zero bytes. *)
Definition make (n : Z) : bytes := replicate (Z.to_nat n) x00.

(** [bytes.Equal(a, b)]: same length and same content. *)
Definition bytes_Equal (a b : bytes) : bool := bool_decide (a = b).

(** [s[:n]] and [s[n:]] for [0 <= n <= len(s)]. *)
Definition slice_to (s : bytes) (n : Z) : bytes := take (Z.to_nat n) s.
Definition slice_from (s : bytes) (n : Z) : bytes := drop (Z.to_nat n) s.

(** [copy(dst, src)]: overwrites the first [min(len dst, len src)] bytes
    of [dst]. *)
Definition copy (dst src : bytes) : bytes :=
  take (length dst) src ++ drop (length src) dst.

(** Arithmetic on [uint64] wraps around. *)
Definition wrap64 (z : Z) : Z := z mod 2 ^ 64.

(** [int(v)] for a [uint64] value [v]: the same 64 bits read as signed. *)
Definition int_of_uint64 (v : Z) : Z := if v <? 2 ^ 63 then v else v - 2 ^ 64.

(** The low eight bits of an integer, as a byte: Go's [byte(v)]. *)
Definition byte_of_Z (z : Z) : byte :=
  default x00 (Byte.of_N (Z.to_N (z mod 256))).

Definition Z_of_byte (b : byte) : Z := Z.of_N (Byte.to_N b).

(** What stops a Go function short of returning. *)
Inductive abort : Type :=
| Panic (msg : string)   (* log.Panic, log.Panicf or a run-time panic *)
| Exit (code : Z).       (* os.Exit(code) *)

Inductive outcome (A : Type) : Type :=
| Ret (a : A)
| Abort (why : abort).
Arguments Ret {A} a.
Arguments Abort {A} why.

#[global] Instance outcome_ret : MRet outcome := @Ret.
#[global] Instance outcome_bind : MBind outcome := λ A B f m,
  match m with
  | Ret a => f a
  | Abort why => Abort why
  end.

(** A Go [(value, error)] pair of which exactly one side is set. *)
Inductive result (E A : Type) : Type :=
| Ok (a : A)
| Err (e : E).
Arguments Ok {E A} a.
Arguments Err {E A} e.

(** A value wrapped to [int] (64 bits, signed) and to [uint32]. *)
Definition int64 (z : Z) : Z := (z + 2 ^ 63) mod 2 ^ 64 - 2 ^ 63.
Definition uint32 (z : Z) : Z := z mod 2 ^ 32.

(** [x << count] on an [int] with an unsigned [count]: bits shifted out
    are lost, a count of 64 or more leaves zero. *)
Definition shl (x count : Z) : Z :=
  if count >=? 64 then 0 else int64 (Z.shiftl x count).

End golang.
Export golang.

(** ** encoding/binary *)

Module binary.

(** [binary.BigEndian.PutUint64(b, v)] on an eight-byte [b]. *)
Definition BigEndian_PutUint64 (v : Z) : bytes :=
  [ byte_of_Z (Z.shiftr v 56); byte_of_Z (Z.shiftr v 48);
    byte_of_Z (Z.shiftr v 40); byte_of_Z (Z.shiftr v 32);
    byte_of_Z (Z.shiftr v 24); byte_of_Z (Z.shiftr v 16);
    byte_of_Z (Z.shiftr v 8);  byte_of_Z v ].

(** [binary.BigEndian.Uint64(b)], the inverse reading. *)
Definition BigEndian_Uint64 (b : bytes) : Z :=
  fold_left (λ acc x, Z.lor (Z.shiftl acc 8) (Z_of_byte x)) b 0.

End binary.

(** ** internal/cryptocore (the parts content.go uses) *)

Module cryptocore.

(** Modelled from the spec: the package's constants are not among the
    source files.  Purpose keys and the master key are 32 bytes (the KDF
    tests expect [KeyLen] to be 32); the per-block overhead of 4128 - 4096
    bytes that content.go documents, with a 128-bit nonce, leaves a 16-byte
    tag. *)
Definition KeyLen : Z := 32.
Definition AuthTagLen : Z := 16.

(** [cipher.AEAD] with its key inside.  [Seal nonce plaintext aData] is
    what [Seal(dst, ...)] appends to [dst]; [Open nonce ciphertext aData]
    is what [Open(dst, ...)] appends to [dst], or [None] when it returns
    an error. *)
Record AEAD : Type := {
  Seal : bytes → bytes → bytes → bytes;
  Open : bytes → bytes → bytes → option bytes;
}.

Record CryptoCore : Type := {
  AEADCipher : AEAD;
  IVLen : Z;
}.

(** What [cipher.AEAD] promises of every implementation: [Open] undoes
    [Seal] under the same nonce and associated data, and [Seal] adds
    [Overhead()] bytes, the tag. *)
Record AEAD_correct (a : AEAD) : Prop := {
  open_seal : ∀ nonce plaintext aData,
    Open a nonce (Seal a nonce plaintext aData) aData = Some plaintext;
  seal_length : ∀ nonce plaintext aData,
    len (Seal a nonce plaintext aData) = len plaintext + AuthTagLen;
}.

End cryptocore.

(** ** float64 arithmetic of [GetOptimalWorkerCount]

    The only floating-point expressions in the modelled code are
    [int(float64(workers) * 1.5)] and [int(float64(workers) * 1.2)] on a
    non-negative [workers].  A non-negative binary64 value is kept as an
    integer numerator over a power of two, and IEEE 754 rounding to
    nearest, ties to even, to a 53-bit significand is written out. *)

Module float64.

(** Round a non-negative integer numerator to 53 significant bits. *)
Definition round53 (m : Z) : Z :=
  let bits := Z.log2 m + 1 in
  if bits <=? 53 then m
  else
    let sh := bits - 53 in
    let q := Z.shiftr m sh in
    let r := Z.land m (Z.ones sh) in
    let half := Z.shiftl 1 (sh - 1) in
    let q' := if (half <? r) || ((r =? half) && Z.odd q) then q + 1 else q in
    Z.shiftl q' sh.

(** The constants as binary64 significands over [2^52]: [1.5] is exact,
    [1.2] is the nearest binary64, [0x3FF3333333333333]. *)
Definition c1_5 : Z := 6755399441055744.
Definition c1_2 : Z := 5404319552844595.

(** [int(float64(w) * c)] for [0 <= w]: convert, multiply with one
    rounding, truncate.  The conversion back to [int] is defined by the
    language only while the product is below [2^63]. *)
Definition scale (w c : Z) : Z := Z.shiftr (round53 (round53 w * c)) 52.

(** The counts [w] for which [int(float64(w) * 1.5)] is below [2^63]. *)
Definition fits (w : Z) : Prop := 0 ≤ w < 2 ^ 62.

End float64.

(** ** internal/cryptocore: the optimized backend *)

Module optimized_backend.
Import cryptocore.

(** [OptimizedBackend], of package [cryptocore].  The two ciphers come
    from libraries and from a file that is not among the source files
    ([NewSIMDOptimizedGCM]); [gcm_NonceSize] is [gcm.NonceSize()].  The
    buffer pools only recycle memory and are left out. *)
Record OptimizedBackend : Type := {
  gcm : AEAD;
  gcm_NonceSize : Z;
  simdGCM : AEAD;
  hasAVX2 : bool;
  hasAESNI : bool;
  cpuCount : Z;
}.

(** [Seal(dst, nonce, plaintext, additionalData)]: what is appended to
    [dst]. *)
Definition Seal (ob : OptimizedBackend) (nonce plaintext additionalData : bytes)
  : bytes :=
  (* Choose the best implementation based on data size and CPU features *)
  if (len plaintext >=? 1024) && hasAVX2 ob && hasAESNI ob then
    cryptocore.Seal (simdGCM ob) nonce plaintext additionalData
  else if (len nonce =? 16) && (gcm_NonceSize ob =? 12) then
    (* Convert 16-byte nonce to 12-byte for standard GCM *)
    let nonce12 := slice_to nonce 12 in
    cryptocore.Seal (gcm ob) nonce12 plaintext additionalData
  else cryptocore.Seal (gcm ob) nonce plaintext additionalData.

(** [Open(dst, nonce, ciphertext, additionalData)]. *)
Definition Open (ob : OptimizedBackend) (nonce ciphertext additionalData : bytes)
  : option bytes :=
  if (len ciphertext >=? 1024) && hasAVX2 ob && hasAESNI ob then
    cryptocore.Open (simdGCM ob) nonce ciphertext additionalData
  else if (len nonce =? 16) && (gcm_NonceSize ob =? 12) then
    let nonce12 := slice_to nonce 12 in
    cryptocore.Open (gcm ob) nonce12 ciphertext additionalData
  else cryptocore.Open (gcm ob) nonce ciphertext additionalData.

(** The backend in the place of a [cipher.AEAD]. *)
Definition as_AEAD (ob : OptimizedBackend) : AEAD :=
  {| cryptocore.Seal := Seal ob; cryptocore.Open := Open ob |}.

Definition GetOptimalWorkerCount (ob : OptimizedBackend) (blockCount : Z) : Z :=
  if blockCount <? 4 then 1
  else
    (* Base worker count on CPU cores *)
    let workers := cpuCount ob in
    (* Adjust based on CPU features *)
    let workers :=
      if hasAVX2 ob && hasAESNI ob then float64.scale workers float64.c1_5
      else if hasAVX2 ob then float64.scale workers float64.c1_2
      else workers in
    (* Cap at reasonable maximum *)
    let workers := if workers >? 16 then 16 else workers in
    (* Don't exceed the number of blocks *)
    let workers := if workers >? blockCount then blockCount else workers in
    workers.

End optimized_backend.

(** ** internal/parallelcrypto *)

(** How a driver runs the worker function it is given: the calls
    [processFunc(startIdx, endIdx)] it makes, either one after the other in
    the caller's goroutine, or each in a goroutine of its own, all joined
    before the driver returns. *)
Inductive dispatch : Type :=
| Sequential (calls : list (Z * Z))
| Goroutines (calls : list (Z * Z)).

Definition calls_of (d : dispatch) : list (Z * Z) :=
  match d with
  | Sequential calls => calls
  | Goroutines calls => calls
  end.

(** [calls] are non-empty ranges laid end to end from [lo] to [hi]. *)
Fixpoint tiles (calls : list (Z * Z)) (lo hi : Z) : Prop :=
  match calls with
  | [] => lo = hi
  | call :: rest => call.1 = lo ∧ lo < call.2 ∧ tiles rest call.2 hi
  end.

(** A call made earlier in the list ends before a later one starts. *)
Definition pairwise_disjoint (calls : list (Z * Z)) : Prop :=
  ∀ (j k : nat) (c c' : Z * Z),
    (j < k)%nat → calls !! j = Some c → calls !! k = Some c' → c.2 ≤ c'.1.

(** The driver content.go is written against (it has [ShouldUseBatch] and
    [ProcessBlocksOptimized]). *)
Module parallelcrypto.

Definition ParallelThreshold : Z := 4.
Definition MaxParallelWorkers : Z := 16.
Definition MinParallelWorkers : Z := 2.
Definition BatchThreshold : Z := 2.

Record ParallelCrypto : Type := {
  enabled : bool;
  cpuCount : Z;
  hasAVX : bool;
  hasAVX2 : bool;
  hasAES : bool;
}.

(** [New()], with [numCPU] the value of [runtime.NumCPU()];
    [detectCPUFeatures] sets the three feature flags unconditionally. *)
Definition New (numCPU : Z) : ParallelCrypto :=
  {| enabled := true; cpuCount := numCPU;
     hasAVX := true; hasAVX2 := true; hasAES := true |}.

Definition Disable (pc : ParallelCrypto) : ParallelCrypto :=
  {| enabled := false; cpuCount := cpuCount pc;
     hasAVX := hasAVX pc; hasAVX2 := hasAVX2 pc; hasAES := hasAES pc |}.

Definition Enable (pc : ParallelCrypto) : ParallelCrypto :=
  {| enabled := true; cpuCount := cpuCount pc;
     hasAVX := hasAVX pc; hasAVX2 := hasAVX2 pc; hasAES := hasAES pc |}.

Definition ShouldUseParallel (pc : ParallelCrypto) (blockCount : Z) : bool :=
  if negb (enabled pc) then false
  else if cpuCount pc <? MinParallelWorkers then false
  else blockCount >=? ParallelThreshold.

Definition ShouldUseBatch (pc : ParallelCrypto) (blockCount : Z) : bool :=
  if negb (enabled pc) then false
  else blockCount >=? BatchThreshold.

Definition GetOptimalWorkerCount (pc : ParallelCrypto) (blockCount : Z) : Z :=
  if negb (enabled pc) then 1
  else if blockCount <? ParallelThreshold then 1
  else if cpuCount pc <? MinParallelWorkers then 1
  else
    let workers := cpuCount pc in
    let workers :=
      if hasAVX2 pc && hasAES pc then float64.scale workers float64.c1_5
      else if hasAVX pc then float64.scale workers float64.c1_2
      else workers in
    let workers :=
      if workers >? MaxParallelWorkers then MaxParallelWorkers else workers in
    let workers := if workers >? blockCount then blockCount else workers in
    workers.

(** The CPU count after the feature adjustment, in closed form where the
    floating-point product is exact: [1.5 * n] truncated is [3 * n / 2]. *)
Definition scaledCPUs (pc : ParallelCrypto) : Z :=
  if hasAVX2 pc && hasAES pc then 3 * cpuCount pc / 2
  else if hasAVX pc then float64.scale (cpuCount pc) float64.c1_2
  else cpuCount pc.

(** The range worker [workerID] of [workers] is started on. *)
Definition workerRange (blockCount workers groupSize workerID : Z) : Z * Z :=
  let startIdx := workerID * groupSize in
  let endIdx := (workerID + 1) * groupSize in
  let endIdx := if workerID =? workers - 1 then blockCount else endIdx in
  (startIdx, endIdx).

(** [ProcessBlocksParallel(blockCount, processFunc)]: the calls of
    [processFunc] it makes.  [blockCount / workers] panics on a zero
    divisor. *)
Definition ProcessBlocksParallel (pc : ParallelCrypto) (blockCount : Z)
  : outcome dispatch :=
  if negb (ShouldUseParallel pc blockCount) then
    Ret (Sequential [(0, blockCount)])
  else
    let workers := GetOptimalWorkerCount pc blockCount in
    if workers =? 0 then Abort (Panic "integer divide by zero")
    else
      let groupSize := Z.quot blockCount workers in
      Ret (Goroutines (workerRange blockCount workers groupSize <$> seqZ 0 workers)).

(** The loop [for i := 0; i < blockCount; i += batchSize] of
    [ProcessBlocksBatch]; every pass advances [i] by [batchSize >= 4], so
    [blockCount] passes are enough. *)
Fixpoint batchLoop (fuel : nat) (i batchSize blockCount : Z) : list (Z * Z) :=
  match fuel with
  | O => []
  | S fuel' =>
      if i <? blockCount then
        let endIdx := i + batchSize in
        let endIdx := if endIdx >? blockCount then blockCount else endIdx in
        (i, endIdx) :: batchLoop fuel' (i + batchSize) batchSize blockCount
      else []
  end.

Definition ProcessBlocksBatch (pc : ParallelCrypto) (blockCount : Z) : dispatch :=
  if negb (ShouldUseBatch pc blockCount) then Sequential [(0, blockCount)]
  else
    let batchSize := if hasAVX2 pc then 8 else 4 in
    Sequential (batchLoop (Z.to_nat blockCount) 0 batchSize blockCount).

Definition ProcessBlocksOptimized (pc : ParallelCrypto) (blockCount : Z)
  : outcome dispatch :=
  if ShouldUseParallel pc blockCount then ProcessBlocksParallel pc blockCount
  else if ShouldUseBatch pc blockCount then Ret (ProcessBlocksBatch pc blockCount)
  else Ret (Sequential [(0, blockCount)]).

End parallelcrypto.

(** The driver of [src/internal/parallelcrypto/parallelcrypto.go]: no CPU
    feature flags, [runtime.NumCPU()] read at every call. *)
Module parallelcrypto_plain.

Definition ParallelThreshold : Z := 8.
Definition MaxParallelWorkers : Z := 8.
Definition MinParallelWorkers : Z := 2.

Record ParallelCrypto : Type := { enabled : bool }.

Definition New : ParallelCrypto := {| enabled := true |}.

Definition ShouldUseParallel (numCPU : Z) (pc : ParallelCrypto) (blockCount : Z)
  : bool :=
  if negb (enabled pc) then false
  else
    let cpuCount := numCPU in
    if cpuCount <? MinParallelWorkers then false
    else blockCount >=? ParallelThreshold.

Definition GetOptimalWorkerCount (numCPU : Z) (pc : ParallelCrypto)
  (blockCount : Z) : Z :=
  if negb (enabled pc) then 1
  else if blockCount <? ParallelThreshold then 1
  else
    let cpuCount := numCPU in
    if cpuCount <? MinParallelWorkers then 1
    else
      let workers := cpuCount in
      let workers :=
        if workers >? MaxParallelWorkers then MaxParallelWorkers else workers in
      let workers := if workers >? blockCount then blockCount else workers in
      workers.

Definition ProcessBlocksParallel (numCPU : Z) (pc : ParallelCrypto)
  (blockCount : Z) : outcome dispatch :=
  if negb (ShouldUseParallel numCPU pc blockCount) then
    Ret (Sequential [(0, blockCount)])
  else
    let workers := GetOptimalWorkerCount numCPU pc blockCount in
    if workers =? 0 then Abort (Panic "integer divide by zero")
    else
      let groupSize := Z.quot blockCount workers in
      Ret (Goroutines
             (parallelcrypto.workerRange blockCount workers groupSize
                <$> seqZ 0 workers)).

End parallelcrypto_plain.

(** ** internal/contentenc/content.go *)

Module contentenc.
Import cryptocore.

Definition DefaultBS : Z := 4096.
Definition DefaultIVBits : Z := 128.

(** Modelled from the spec: [headerIDLen] is declared in a file of the
    package that is not among the source files; the file-ID of the per-file
    header is 16 bytes. *)
Definition headerIDLen : Z := 16.

(** The errors [DecryptBlock] returns. *)
Inductive error : Type :=
| ErrBlockTooShort   (* errors.New("block is too short") *)
| ErrAllZeroNonce    (* errors.New("all-zero nonce") *)
| ErrOpen.           (* the error AEADCipher.Open returned *)

#[global] Instance error_eq_dec : EqDecision error.
Proof. solve_decision. Defined.

(** The block pools only recycle memory and are left out; a buffer taken
    from a pool is a buffer of the pool's size. *)
Record ContentEnc : Type := {
  cryptoCore : CryptoCore;
  plainBS : Z;
  cipherBS : Z;
  allZeroBlock : bytes;
  allZeroNonce : bytes;
  parallelCrypto : parallelcrypto.ParallelCrypto;
}.

Section New.
(** [fuse.MAX_KERNEL_WRITE] of the go-fuse library. *)
Variable MAX_KERNEL_WRITE : Z.
(** [runtime.NumCPU()]. *)
Variable numCPU : Z.

(** [New(cc, plainBS)].  The remainder panics on [plainBS = 0], [make]
    panics on a negative length. *)
Definition New (cc : CryptoCore) (plainBS : Z) : outcome ContentEnc :=
  if plainBS =? 0 then Abort (Panic "integer divide by zero")
  else if negb (MAX_KERNEL_WRITE mod plainBS =? 0) then
    Abort (Panic "unaligned MAX_KERNEL_WRITE=%d")
  else
    let cipherBS := wrap64 (wrap64 (plainBS + wrap64 (IVLen cc)) + AuthTagLen) in
    if IVLen cc <? 0 then Abort (Panic "makeslice: len out of range")
    else
      Ret {| cryptoCore := cc;
             plainBS := plainBS;
             cipherBS := cipherBS;
             allZeroBlock := make cipherBS;
             allZeroNonce := make (IVLen cc);
             parallelCrypto := parallelcrypto.New numCPU |}.
End New.

(** The ranges [New]'s inputs come from: a [uint64] block size, and for
    go-fuse's constant and the nonce length numbers of at most 32 bits. *)
Definition typed (MAX_KERNEL_WRITE : Z) (cc : CryptoCore) (plainBS : Z) : Prop :=
  0 < MAX_KERNEL_WRITE ≤ 2 ^ 32 ∧ 0 ≤ plainBS < 2 ^ 64 ∧ IVLen cc ≤ 2 ^ 32.

Definition PlainBS (be : ContentEnc) : Z := plainBS be.
Definition CipherBS (be : ContentEnc) : Z := cipherBS be.

(** Modelled from the spec: [BlockOverhead] is defined in a file of the
    package that is not among the source files; content.go documents it as
    [cipherBS - plainBS], the per-block overhead. *)
Definition BlockOverhead (be : ContentEnc) : Z := wrap64 (cipherBS be - plainBS be).

(** [concatAD(blockNo, fileID)]; a nil [fileID] is [None]. *)
Definition concatAD (blockNo : Z) (fileID : option bytes) : outcome bytes :=
  if bool_decide (is_Some fileID) && negb (len (default [] fileID) =? headerIDLen)
  then Abort (Panic "wrong fileID length: %d")
  else
    let aData := binary.BigEndian_PutUint64 blockNo in
    let aData := aData ++ default [] fileID in
    Ret aData.

(** A file-ID the callers pass: nil, or the 16 bytes of a file header. *)
Definition valid_fileID (fileID : option bytes) : Prop :=
  match fileID with
  | None => True
  | Some id => len id = headerIDLen
  end.

(** [DecryptBlock(ciphertext, blockNo, fileID)]. *)
Definition DecryptBlock (be : ContentEnc) (ciphertext : bytes) (blockNo : Z)
  (fileID : option bytes) : outcome (result error bytes) :=
  (* Empty block? *)
  if len ciphertext =? 0 then Ret (Ok ciphertext)
  (* All-zero block? *)
  else if bytes_Equal ciphertext (allZeroBlock be) then Ret (Ok (make (plainBS be)))
  else if len ciphertext <? IVLen (cryptoCore be) then Ret (Err ErrBlockTooShort)
  else
    (* Extract nonce *)
    let nonce := slice_to ciphertext (IVLen (cryptoCore be)) in
    if bytes_Equal nonce (allZeroNonce be) then Ret (Err ErrAllZeroNonce)
    else
      let ciphertext := slice_from ciphertext (IVLen (cryptoCore be)) in
      (* Decrypt *)
      aData ← concatAD blockNo fileID;
      match Open (AEADCipher (cryptoCore be)) nonce ciphertext aData with
      | None => Ret (Err ErrOpen)
      | Some plaintext => Ret (Ok plaintext)
      end.

(** [doEncryptBlock(plaintext, blockNo, fileID, nonce)]. *)
Definition doEncryptBlock (be : ContentEnc) (plaintext : bytes) (blockNo : Z)
  (fileID : option bytes) (nonce : bytes) : outcome bytes :=
  (* Empty block? *)
  if len plaintext =? 0 then Ret plaintext
  else if negb (len nonce =? IVLen (cryptoCore be)) then
    Abort (Panic "wrong nonce length")
  else
    aData ← concatAD blockNo fileID;
    (* a cipherBS-sized buffer, the nonce copied into it, cut to the nonce *)
    let cBlock := make (cipherBS be) in
    let cBlock := copy cBlock nonce in
    if len cBlock <? len nonce then Abort (Panic "slice bounds out of range")
    else
      let cBlock := slice_to cBlock (len nonce) in
      (* Encrypt plaintext and append to nonce *)
      let ciphertext := cBlock ++ Seal (AEADCipher (cryptoCore be)) nonce plaintext aData in
      let overhead := BlockOverhead be in
      if negb (len plaintext + overhead =? len ciphertext) then
        Abort (Panic "unexpected ciphertext length: plaintext=%d, overhead=%d, ciphertext=%d")
      else Ret ciphertext.

(** [EncryptBlock(plaintext, blockNo, fileID)], with [nonce] the value
    [IVGenerator.Get()] drew. *)
Definition EncryptBlock (be : ContentEnc) (nonce : bytes) (plaintext : bytes)
  (blockNo : Z) (fileID : option bytes) : outcome bytes :=
  doEncryptBlock be plaintext blockNo fileID nonce.

(** *** Groups of blocks *)

(** [cipherBlocks[i] = ciphertext[i*cipherBS : (i+1)*cipherBS]] for
    [i < blockCount]. *)
Definition splitBlocks (be : ContentEnc) (ciphertext : bytes) (blockCount : Z)
  : list bytes :=
  (λ i, let start := i * int_of_uint64 (cipherBS be) in
        let end_ := start + int_of_uint64 (cipherBS be) in
        slice_to (slice_from ciphertext start) (end_ - start))
    <$> seqZ 0 blockCount.

(** Block [i] of a group, [ciphertext[i*cipherBS : (i+1)*cipherBS]]. *)
Definition cipherBlock (be : ContentEnc) (ciphertext : bytes) (i : Z) : bytes :=
  slice_to (slice_from ciphertext (i * int_of_uint64 (cipherBS be)))
           (int_of_uint64 (cipherBS be)).

(** What the worker closure of [decryptBlocksParallel] and
    [decryptBlocksBatch] shares between goroutines. *)
Record group : Type := {
  plainBlocks : list bytes;
  decryptErr : option error;
}.

(** One pass of the closure's loop body for block [i]: decrypt, then under
    the mutex record the first error seen and store the block. *)
Definition blockStep (be : ContentEnc) (cipherBlocks : list bytes)
  (firstBlockNo : Z) (fileID : option bytes) (st : group) (i : Z)
  : outcome group :=
  if (i <? 0) || (len cipherBlocks <=? i) then
    Abort (Panic "index out of range")
  else
    let blockNo := wrap64 (firstBlockNo + wrap64 i) in
    r ← DecryptBlock be (default [] (cipherBlocks !! Z.to_nat i)) blockNo fileID;
    let plainBlock := match r with Ok p => p | Err _ => [] end in
    let err := match r with Ok _ => None | Err e => Some e end in
    Ret {| decryptErr :=
             match err, decryptErr st with
             | Some e, None => Some e
             | _, d => d
             end;
           plainBlocks := <[Z.to_nat i := plainBlock]> (plainBlocks st) |}.

(** The block indices a call [processFunc(startIdx, endIdx)] walks through,
    in order: [for i := startIdx; i < endIdx; i++]. *)
Definition indices (call : Z * Z) : list Z := seqZ call.1 (call.2 - call.1).

(** Loop bodies take effect one at a time (each holds the mutex while it
    writes): a run is the order in which they did. *)
Fixpoint runSteps {S : Type} (step : S → Z → outcome S) (sched : list Z) (st : S)
  : outcome S :=
  match sched with
  | [] => Ret st
  | i :: rest => st' ← step st i; runSteps step rest st'
  end.

(** [sched] merges the threads' sequences, keeping each thread's order. *)
Inductive interleaving {A : Type} : list (list A) → list A → Prop :=
| interleaving_done threads :
    Forall (λ t, t = []) threads → interleaving threads []
| interleaving_step threads k x t rest :
    threads !! k = Some (x :: t) →
    interleaving (<[k := t]> threads) rest →
    interleaving threads (x :: rest).

(** The runs a dispatch allows: calls made one after the other run in
    that order; goroutines run in some interleaving of their loops. *)
Definition schedule_of (d : dispatch) (sched : list Z) : Prop :=
  match d with
  | Sequential calls => sched = concat (indices <$> calls)
  | Goroutines calls => interleaving (indices <$> calls) sched
  end.

(** Running a dispatch; [sched] is the order the scheduler chose for the
    goroutines' loop bodies and is not looked at otherwise. *)
Definition runDispatch {S : Type} (d : dispatch) (sched : list Z)
  (step : S → Z → outcome S) (st : S) : outcome S :=
  match d with
  | Sequential calls => runSteps step (concat (indices <$> calls)) st
  | Goroutines _ => runSteps step sched st
  end.

(** After the workers are joined: an error discards the blocks, otherwise
    they are written to the output buffer in index order. *)
Definition assemble (st : group) : bytes * option error :=
  match decryptErr st with
  | Some e => ([], Some e)
  | None => (concat (plainBlocks st), None)
  end.

Definition decryptBlocksParallel (be : ContentEnc) (sched : list Z)
  (ciphertext : bytes) (firstBlockNo : Z) (fileID : option bytes) (blockCount : Z)
  : outcome (bytes * option error) :=
  let cipherBlocks := splitBlocks be ciphertext blockCount in
  let st0 := {| plainBlocks := replicate (Z.to_nat blockCount) []; decryptErr := None |} in
  d ← parallelcrypto.ProcessBlocksParallel (parallelCrypto be) blockCount;
  st ← runDispatch d sched (blockStep be cipherBlocks firstBlockNo fileID) st0;
  Ret (assemble st).

Definition decryptBlocksBatch (be : ContentEnc)
  (ciphertext : bytes) (firstBlockNo : Z) (fileID : option bytes) (blockCount : Z)
  : outcome (bytes * option error) :=
  let cipherBlocks := splitBlocks be ciphertext blockCount in
  let st0 := {| plainBlocks := replicate (Z.to_nat blockCount) []; decryptErr := None |} in
  let d := parallelcrypto.ProcessBlocksBatch (parallelCrypto be) blockCount in
  st ← runDispatch d [] (blockStep be cipherBlocks firstBlockNo fileID) st0;
  Ret (assemble st).

(** The loop of [decryptBlocksSequential]: [cBuf.Next(cipherBS)] takes up
    to [cipherBS] bytes off the front; a pass with [cipherBS >= 1] consumes
    at least one byte, so [len(ciphertext)] passes are enough. *)
Fixpoint sequentialLoop (fuel : nat) (be : ContentEnc) (cBuf pBuf : bytes)
  (blockNo : Z) (fileID : option bytes) : outcome (bytes * option error) :=
  match fuel with
  | O => Ret (pBuf, None)
  | S fuel' =>
      if len cBuf >? 0 then
        let cBlock := take (Z.to_nat (int_of_uint64 (cipherBS be))) cBuf in
        let cBuf := drop (Z.to_nat (int_of_uint64 (cipherBS be))) cBuf in
        r ← DecryptBlock be cBlock blockNo fileID;
        match r with
        | Err e => Ret (pBuf, Some e)
        | Ok pBlock =>
            sequentialLoop fuel' be cBuf (pBuf ++ pBlock) (wrap64 (blockNo + 1)) fileID
        end
      else Ret (pBuf, None)
  end.

Definition decryptBlocksSequential (be : ContentEnc) (ciphertext : bytes)
  (firstBlockNo : Z) (fileID : option bytes) : outcome (bytes * option error) :=
  sequentialLoop (length ciphertext) be ciphertext [] firstBlockNo fileID.

(** [DecryptBlocks(ciphertext, firstBlockNo, fileID)], with [sched] the
    order in which the workers' loop bodies ran. *)
Definition DecryptBlocks (be : ContentEnc) (sched : list Z) (ciphertext : bytes)
  (firstBlockNo : Z) (fileID : option bytes) : outcome (bytes * option error) :=
  if int_of_uint64 (cipherBS be) =? 0 then Abort (Panic "integer divide by zero")
  else
    let blockCount := Z.quot (len ciphertext) (int_of_uint64 (cipherBS be)) in
    if blockCount =? 0 then Ret ([], None)
    else if parallelcrypto.ShouldUseParallel (parallelCrypto be) blockCount then
      decryptBlocksParallel be sched ciphertext firstBlockNo fileID blockCount
    else if parallelcrypto.ShouldUseBatch (parallelCrypto be) blockCount then
      decryptBlocksBatch be ciphertext firstBlockNo fileID blockCount
    else decryptBlocksSequential be ciphertext firstBlockNo fileID.

(** One pass of the closure's loop body in [EncryptBlocks]:
    [ciphertextBlocks[i] = be.EncryptBlock(plaintextBlocks[i], ...)], with
    [nonces i] the value [IVGenerator.Get()] returned to the call for
    block [i]. *)
Definition encryptStep (be : ContentEnc) (nonces : Z → bytes)
  (plaintextBlocks : list bytes) (firstBlockNo : Z) (fileID : option bytes)
  (ciphertextBlocks : list bytes) (i : Z) : outcome (list bytes) :=
  if (i <? 0) || (len plaintextBlocks <=? i) then
    Abort (Panic "index out of range")
  else
    c ← EncryptBlock be (nonces i) (default [] (plaintextBlocks !! Z.to_nat i))
          (wrap64 (firstBlockNo + wrap64 i)) fileID;
    Ret (<[Z.to_nat i := c]> ciphertextBlocks).

(** The capacity of the slice [EncryptBlock] returns.  An empty plaintext
    comes back as it is, with the capacity [capIn] of the caller's slice.
    Otherwise [Seal] has appended to a block of [cBlockPool], of capacity
    [cipherBS]: in place while the result fits, into a new and longer
    array when it does not. *)
Definition capEncrypted (be : ContentEnc) (capIn : Z) (plaintext ciphertext : bytes)
  : Z :=
  if len plaintext =? 0 then capIn
  else if len ciphertext <=? int_of_uint64 (cipherBS be) then
    int_of_uint64 (cipherBS be)
  else len ciphertext.

(** [be.cBlockPool.Put(v)] for a slice of capacity [cap].  The pool is
    [newBPool(int(cipherBS))]; [bPool.Put], declared in bpool.go, grows
    the slice to its capacity and takes it only at the length of the
    pool. *)
Definition cBlockPool_Put (be : ContentEnc) (cap : Z) : outcome unit :=
  if cap =? int_of_uint64 (cipherBS be) then Ret tt
  else Abort (Panic "wrong len=%d, want=%d").

(** The loop [for _, v := range ciphertextBlocks] of [EncryptBlocks], as
    far as it can panic: block [i], [i+1], ... is handed back to the
    pool.  [caps j] is the capacity of the slice [plaintextBlocks[j]]. *)
Fixpoint putBlocks (be : ContentEnc) (caps : Z → Z) (i : Z)
  (plaintextBlocks ciphertextBlocks : list bytes) : outcome unit :=
  match plaintextBlocks, ciphertextBlocks with
  | p :: plaintextBlocks, v :: ciphertextBlocks =>
      (* Return the memory to cBlockPool *)
      cBlockPool_Put be (capEncrypted be (caps i) p v);;
      putBlocks be caps (i + 1) plaintextBlocks ciphertextBlocks
  | _, _ => Ret tt
  end.

(** [EncryptBlocks(plaintextBlocks, firstBlockNo, fileID)], with [sched]
    the order in which the workers' loop bodies ran and [caps] the
    capacities of the plaintext slices. *)
Definition EncryptBlocks (be : ContentEnc) (nonces : Z → bytes) (caps : Z → Z)
  (sched : list Z) (plaintextBlocks : list bytes) (firstBlockNo : Z)
  (fileID : option bytes) : outcome bytes :=
  let ciphertextBlocks := replicate (length plaintextBlocks) [] in
  d ← parallelcrypto.ProcessBlocksOptimized (parallelCrypto be) (len plaintextBlocks);
  ciphertextBlocks ←
    runDispatch d sched (encryptStep be nonces plaintextBlocks firstBlockNo fileID)
      ciphertextBlocks;
  (* Concatenate ciphertext into a single byte array *)
  putBlocks be caps 0 plaintextBlocks ciphertextBlocks;;
  Ret (concat ciphertextBlocks).

(** [MergeBlocks(oldData, newData, offset)].  [out] has length and
    capacity [plainBS]; a slice expression that reaches past the capacity
    or starts below zero panics. *)
Definition MergeBlocks (be : ContentEnc) (oldData newData : bytes) (offset : Z)
  : outcome bytes :=
  (* Fastpath for small-file creation *)
  if (len oldData =? 0) && (offset =? 0) then Ret newData
  else if int_of_uint64 (plainBS be) <? 0 then
    Abort (Panic "makeslice: len out of range")
  else
    (* Make block of maximum size *)
    let out := make (plainBS be) in
    (* Copy old and new data into it *)
    let out := copy out oldData in
    let l := len newData in
    if (offset <? 0) || (len out <? offset + l) then
      Abort (Panic "slice bounds out of range")
    else
      let out :=
        slice_to out offset
          ++ copy (slice_to (slice_from out offset) l) newData
          ++ slice_from out (offset + l) in
      (* Crop to length *)
      let outLen := len oldData in
      let newLen := offset + len newData in
      let outLen := if outLen <? newLen then newLen else outLen in
      if len out <? outLen then Abort (Panic "slice bounds out of range")
      else Ret (slice_to out outLen).

End contentenc.

(** ** internal/configfile: KDF parameter floors *)

Module configfile.

(** The kinds of error [validateParams] reports, each with the value found
    and the minimum it was held against. *)
Inductive error : Type :=
| BelowMinimum (parameter : string) (value min : Z).

(** *** Argon2id *)
Module argon2id.

Definition Argon2idDefaultMemory : Z := 64 * 1024.
Definition Argon2idDefaultIterations : Z := 3.
Definition Argon2idDefaultParallelism : Z := 4.
Definition Argon2idMinMemory : Z := 16 * 1024.
Definition Argon2idMinIterations : Z := 1.
Definition Argon2idMinParallelism : Z := 1.
Definition Argon2idMinSaltLen : Z := 16.

Record Argon2idKDF : Type := {
  Salt : bytes;
  Memory : Z;        (* uint32, in KB *)
  Iterations : Z;    (* uint32 *)
  Parallelism : Z;   (* uint8 *)
  KeyLen : Z;        (* uint32 *)
}.

Definition validateParams (a : Argon2idKDF) : option error :=
  if Memory a <? Argon2idMinMemory then
    Some (BelowMinimum "Argon2id memory" (Memory a) Argon2idMinMemory)
  else if Iterations a <? Argon2idMinIterations then
    Some (BelowMinimum "Argon2id iterations" (Iterations a) Argon2idMinIterations)
  else if Parallelism a <? Argon2idMinParallelism then
    Some (BelowMinimum "Argon2id parallelism" (Parallelism a) Argon2idMinParallelism)
  else if len (Salt a) <? Argon2idMinSaltLen then
    Some (BelowMinimum "Argon2id salt length" (len (Salt a)) Argon2idMinSaltLen)
  else if KeyLen a <? cryptocore.KeyLen then
    Some (BelowMinimum "Argon2id key length" (KeyLen a) cryptocore.KeyLen)
  else None.

(** [NewArgon2idKDF()], with [salt] the bytes
    [cryptocore.RandBytes(cryptocore.KeyLen)] returned. *)
Definition NewArgon2idKDF (salt : bytes) : Argon2idKDF :=
  {| Salt := salt;
     Memory := Argon2idDefaultMemory;
     Iterations := Argon2idDefaultIterations;
     Parallelism := Argon2idDefaultParallelism;
     KeyLen := cryptocore.KeyLen |}.

(** [NewArgon2idKDFWithParams(memory, iterations, parallelism)]. *)
Definition NewArgon2idKDFWithParams (salt : bytes) (memory iterations parallelism : Z)
  : Argon2idKDF :=
  {| Salt := salt;
     Memory := memory;
     Iterations := iterations;
     Parallelism := parallelism;
     KeyLen := cryptocore.KeyLen |}.

Definition GetRecommendedArgon2idParams : Z * Z * Z :=
  (Argon2idDefaultMemory, Argon2idDefaultIterations, Argon2idDefaultParallelism).

Section DeriveKey.
(** [exitcodes.ScryptParams], the exit code for weak KDF parameters (the
    package is not among the source files; the number is left open). *)
Variable ScryptParams : Z.
(** [argon2.IDKey(password, salt, time, memory, threads, keyLen)]. *)
Variable IDKey : bytes → bytes → Z → Z → Z → Z → bytes.

Definition DeriveKey (a : Argon2idKDF) (pw : bytes) : outcome bytes :=
  match validateParams a with
  | Some err => Abort (Exit ScryptParams)
  | None =>
      let key := IDKey pw (Salt a) (Iterations a) (Memory a) (Parallelism a) (KeyLen a) in
      Ret key
  end.
End DeriveKey.

End argon2id.

(** *** scrypt *)
Module scrypt.

Definition ScryptDefaultLogN : Z := 17.
Definition scryptMinR : Z := 8.
Definition scryptMinP : Z := 1.
Definition scryptMinLogN : Z := 10.
Definition scryptMinSaltLen : Z := 32.

Record ScryptKDF : Type := {
  Salt : bytes;
  N : Z;
  R : Z;
  P : Z;
  KeyLen : Z;
}.

Definition validateParams (s : ScryptKDF) : option error :=
  let minN := Z.shiftl 1 scryptMinLogN in
  if N s <? minN then Some (BelowMinimum "scryptn" (N s) minN)
  else if R s <? scryptMinR then Some (BelowMinimum "scrypt parameter R" (R s) scryptMinR)
  else if P s <? scryptMinP then Some (BelowMinimum "scrypt parameter P" (P s) scryptMinP)
  else if len (Salt s) <? scryptMinSaltLen then
    Some (BelowMinimum "scrypt salt length" (len (Salt s)) scryptMinSaltLen)
  else if KeyLen s <? cryptocore.KeyLen then
    Some (BelowMinimum "scrypt parameter KeyLen" (KeyLen s) cryptocore.KeyLen)
  else None.

(** [NewScryptKDF(logN)], with [salt] the bytes
    [cryptocore.RandBytes(cryptocore.KeyLen)] returned. *)
Definition NewScryptKDF (salt : bytes) (logN : Z) : ScryptKDF :=
  {| Salt := salt;
     N := if logN <=? 0 then shl 1 ScryptDefaultLogN else shl 1 (uint32 logN);
     R := 8;   (* Always 8 *)
     P := 1;   (* Always 1 *)
     KeyLen := cryptocore.KeyLen |}.

Definition GetRecommendedScryptLogN : Z := ScryptDefaultLogN.

Section DeriveKey.
(** [exitcodes.ScryptParams], as above. *)
Variable ScryptParams : Z.
(** [scrypt.Key(password, salt, N, r, p, keyLen)]; [None] is its error. *)
Variable Key : bytes → bytes → Z → Z → Z → Z → option bytes.

Definition DeriveKey (s : ScryptKDF) (pw : bytes) : outcome bytes :=
  match validateParams s with
  | Some err => Abort (Exit ScryptParams)
  | None =>
      match Key pw (Salt s) (N s) (R s) (P s) (KeyLen s) with
      | None => Abort (Panic "DeriveKey failed: %v")
      | Some k => Ret k
      end
  end.
End DeriveKey.

End scrypt.

End configfile.

(** ** encoding/base64: [base64.URLEncoding]

    The Go standard library's padded URL-safe base64, as filenameauth uses
    it: [EncodeToString], and [DecodeString] in its default, non-strict
    mode, which skips carriage returns and line feeds and does not look at
    the unused low bits of a final partial quantum. *)

Module base64.

Definition encodeURL : bytes :=
  list_byte_of_string
    "ABCDEFGHIJKLMNOPQRSTUVWXYZabcdefghijklmnopqrstuvwxyz0123456789-_".

Definition padChar : byte := x3d.   (* '=' *)

(** [enc.encode[v]] for a six-bit [v]. *)
Definition encode (v : Z) : byte := default x00 (encodeURL !! Z.to_nat v).

(** [enc.decodeMap[c]]: the position of [c] in the alphabet, [None] where
    the table holds [0xff]. *)
Fixpoint index_of (c : byte) (l : bytes) (i : Z) : option Z :=
  match l with
  | [] => None
  | x :: l' => if bool_decide (x = c) then Some i else index_of c l' (i + 1)
  end.

Definition decodeMap (c : byte) : option Z := index_of c encodeURL 0.

(** [EncodeToString(src)]. *)
Fixpoint EncodeToString (src : bytes) : bytes :=
  match src with
  | [] => []
  | [b0] =>
      let val := Z.shiftl (Z_of_byte b0) 16 in
      [ encode (Z.land (Z.shiftr val 18) 63);
        encode (Z.land (Z.shiftr val 12) 63);
        padChar; padChar ]
  | [b0; b1] =>
      let val := Z.lor (Z.shiftl (Z_of_byte b0) 16) (Z.shiftl (Z_of_byte b1) 8) in
      [ encode (Z.land (Z.shiftr val 18) 63);
        encode (Z.land (Z.shiftr val 12) 63);
        encode (Z.land (Z.shiftr val 6) 63);
        padChar ]
  | b0 :: b1 :: b2 :: rest =>
      let val :=
        Z.lor (Z.lor (Z.shiftl (Z_of_byte b0) 16) (Z.shiftl (Z_of_byte b1) 8))
              (Z_of_byte b2) in
      encode (Z.land (Z.shiftr val 18) 63)
        :: encode (Z.land (Z.shiftr val 12) 63)
        :: encode (Z.land (Z.shiftr val 6) 63)
        :: encode (Z.land val 63)
        :: EncodeToString rest
  end.

(** [EncodedLen(n)] of a padded encoding. *)
Definition EncodedLen (n : Z) : Z := (n + 2) `quot` 3 * 4.

Inductive CorruptInputError : Type := CorruptInput.

Definition isNewline (c : byte) : bool :=
  bool_decide (c = x0a) || bool_decide (c = x0d).

(** [for si < len(src) && (src[si] == '\n' || src[si] == '\r') { si++ }] *)
Fixpoint skipNewlines (src : bytes) : bytes :=
  match src with
  | c :: rest => if isNewline c then skipNewlines rest else src
  | [] => []
  end.

(** The three bytes of a quantum of four six-bit values; a final quantum
    of [dlen] values yields the first [dlen - 1] of them. *)
Definition quantumBytes (dbuf : list Z) (dlen : nat) : bytes :=
  let d := λ k, default 0 (dbuf !! k) in
  let val :=
    Z.lor (Z.lor (Z.lor (Z.shiftl (d 0%nat) 18) (Z.shiftl (d 1%nat) 12))
                 (Z.shiftl (d 2%nat) 6))
          (d 3%nat) in
  take (dlen - 1)%nat
    [ byte_of_Z (Z.shiftr val 16); byte_of_Z (Z.shiftr val 8); byte_of_Z val ].

(** The decoding loop: [dbuf] holds the values of the quantum being read,
    [dst] what has been decoded so far. *)
Fixpoint decodeLoop (src : bytes) (dbuf : list Z) (dst : bytes)
  : result CorruptInputError bytes :=
  match src with
  | [] =>
      match dbuf with
      | [] => Ok dst
      | _ => Err CorruptInput          (* input ends inside a quantum *)
      end
  | c :: rest =>
      match decodeMap c with
      | Some out =>
          let dbuf := dbuf ++ [out] in
          if bool_decide (length dbuf = 4%nat)
          then decodeLoop rest [] (dst ++ quantumBytes dbuf 4)
          else decodeLoop rest dbuf dst
      | None =>
          if isNewline c then decodeLoop rest dbuf dst
          else if negb (bool_decide (c = padChar)) then Err CorruptInput
          else
            (* We've reached the end and there's padding *)
            match length dbuf with
            | 2%nat =>
                (* "==" is expected, the first "=" is already consumed *)
                match skipNewlines rest with
                | [] => Err CorruptInput           (* not enough padding *)
                | c2 :: rest2 =>
                    if negb (bool_decide (c2 = padChar)) then Err CorruptInput
                    else
                      match skipNewlines rest2 with
                      | [] => Ok (dst ++ quantumBytes dbuf 2)
                      | _ => Err CorruptInput      (* trailing garbage *)
                      end
                end
            | 3%nat =>
                match skipNewlines rest with
                | [] => Ok (dst ++ quantumBytes dbuf 3)
                | _ => Err CorruptInput            (* trailing garbage *)
                end
            | _ => Err CorruptInput                (* incorrect padding *)
            end
      end
  end.

(** [DecodeString(s)]; with an error the partial output is dropped. *)
Definition DecodeString (s : bytes) : result CorruptInputError bytes :=
  decodeLoop s [] [].

End base64.

(** ** internal/filenameauth *)

Module filenameauth.

Definition FilenameAuthMACLen : Z := 32.
Definition FilenameAuthSeparator : bytes := [x2e].   (* "." *)

Inductive error : Type :=
| ErrInvalidFormat                                (* "invalid authenticated filename format" *)
| ErrDecodeMAC (e : base64.CorruptInputError)    (* "failed to decode MAC: %v" *)
| ErrMACMismatch.                                 (* "filename authentication failed: MAC mismatch" *)

Record FilenameAuth : Type := {
  enabled : bool;
  macKey : bytes;
}.

Section Primitives.
(** HMAC-SHA256 of [crypto/hmac] and [crypto/sha256]: key, then message. *)
Variable hmac_sha256 : bytes → bytes → bytes.
(** [cryptocore.HKDFDerive(masterKey, info, outLen)]; the function is not
    among the source files and nothing below depends on what it returns. *)
Variable HKDFDerive : bytes → bytes → Z → bytes.

Definition deriveFilenameMACKey (masterKey : bytes) : bytes :=
  let info := list_byte_of_string "gocryptfs-filename-auth-v1" in
  HKDFDerive masterKey info FilenameAuthMACLen.

Definition New (masterKey : bytes) (enabled : bool) : FilenameAuth :=
  {| enabled := enabled;
     macKey := if enabled then deriveFilenameMACKey masterKey else [] |}.

Definition calculateMAC (fa : FilenameAuth) (data : bytes) : bytes :=
  hmac_sha256 (macKey fa) data.

(** [hmac.Equal]: equal length and content (in constant time). *)
Definition hmac_Equal (mac1 mac2 : bytes) : bool := bool_decide (mac1 = mac2).

Definition AuthenticateFilename (fa : FilenameAuth) (encryptedName : bytes)
  : result error bytes :=
  if negb (enabled fa) then Ok encryptedName
  else
    let mac := calculateMAC fa encryptedName in
    let macB64 := base64.EncodeToString mac in
    let authenticatedName := encryptedName ++ FilenameAuthSeparator ++ macB64 in
    Ok authenticatedName.

(** The loop [for i := len(name) - 1; i >= 0; i--] of
    [splitAuthenticatedName], started with [n = len(name)]: the index of
    the last separator, or [-1]. *)
Fixpoint lastSepBelow (authenticatedName : bytes) (n : nat) : Z :=
  match n with
  | O => -1
  | S i =>
      if bool_decide (authenticatedName !! i = FilenameAuthSeparator !! 0%nat)
      then Z.of_nat i
      else lastSepBelow authenticatedName i
  end.

Definition splitAuthenticatedName (authenticatedName : bytes) : list bytes :=
  let lastSep := lastSepBelow authenticatedName (length authenticatedName) in
  if lastSep =? -1 then [authenticatedName]
  else [ slice_to authenticatedName lastSep;
         slice_from authenticatedName (lastSep + 1) ].

Definition VerifyFilename (fa : FilenameAuth) (authenticatedName : bytes)
  : result error bytes :=
  if negb (enabled fa) then Ok authenticatedName
  else
    match splitAuthenticatedName authenticatedName with
    | [encryptedName; macB64] =>
        match base64.DecodeString macB64 with
        | Err e => Err (ErrDecodeMAC e)
        | Ok mac =>
            let expectedMAC := calculateMAC fa encryptedName in
            if negb (hmac_Equal mac expectedMAC) then Err ErrMACMismatch
            else Ok encryptedName
        end
    | _ => Err ErrInvalidFormat
    end.

End Primitives.

Definition IsEnabled (fa : FilenameAuth) : bool := enabled fa.

Definition GetMACLength (fa : FilenameAuth) : Z :=
  if negb (enabled fa) then 0 else FilenameAuthMACLen.

Definition GetSeparator (fa : FilenameAuth) : bytes := FilenameAuthSeparator.

End filenameauth.

(** ** internal/writecoalescing: the per-file write buffer *)

Module writecoalescing.

Definition DefaultCoalesceThreshold : Z := 1024.
(** A [time.Duration] counts nanoseconds. *)
Definition DefaultCoalesceTimeout : Z := 10 * 1000000.
Definition DefaultMaxCoalesceSize : Z := 64 * 1024.

Record CoalesceConfig : Type := {
  Threshold : Z;
  Timeout : Z;
  MaxSize : Z;
  Enabled : bool;
}.

Definition DefaultConfig : CoalesceConfig :=
  {| Threshold := DefaultCoalesceThreshold;
     Timeout := DefaultCoalesceTimeout;
     MaxSize := DefaultMaxCoalesceSize;
     Enabled := true |}.

(** The buffer's own fields.  [FlushCallback] is set once by
    [NewWriteBuffer] and is a parameter below; [Mutex] is held for the
    whole of every method that touches the fields, so that calls take
    effect one after the other.  A [time.Time] is the nanoseconds since
    some origin, and [Sub] the difference. *)
Record WriteBuffer : Type := {
  Buffer : bytes;
  Offset : Z;
  LastWriteTime : Z;
  Config : CoalesceConfig;
}.

Section WriteBuffer.
(** What the callback acts on (the file behind the buffer), and its
    errors. *)
Context {World E : Type}.
Variable FlushCallback : bytes → Z → World → World * option E.

(** [NewWriteBuffer(config, flushCallback)]; a nil [config] is [None].
    [make([]byte, 0, config.MaxSize)] panics on a negative capacity. *)
Definition NewWriteBuffer (config : option CoalesceConfig) : outcome WriteBuffer :=
  let config := default DefaultConfig config in
  if MaxSize config <? 0 then Abort (Panic "makeslice: cap out of range")
  else Ret {| Buffer := []; Offset := 0; LastWriteTime := 0; Config := config |}.

(** [flushLocked()]: the buffer after the call, the world after the
    callback, and the callback's error. *)
Definition flushLocked (wb : WriteBuffer) (w : World)
  : WriteBuffer * World * option E :=
  if len (Buffer wb) =? 0 then (wb, w, None)
  else
    (* Make a copy of the buffer data *)
    let data := copy (make (len (Buffer wb))) (Buffer wb) in
    let offset := Offset wb in
    (* Clear the buffer *)
    let wb := {| Buffer := slice_to (Buffer wb) 0; Offset := Offset wb;
                 LastWriteTime := LastWriteTime wb; Config := Config wb |} in
    (* Call the flush callback *)
    let '(w, err) := FlushCallback data offset w in
    (wb, w, err).

(** [Write(data, offset)], with [now] the reading of [time.Now()]. *)
Definition Write (wb : WriteBuffer) (now : Z) (data : bytes) (offset : Z) (w : World)
  : WriteBuffer * World * option E :=
  if negb (Enabled (Config wb)) then
    (* If coalescing is disabled, flush immediately *)
    let '(w, err) := FlushCallback data offset w in (wb, w, err)
  else if len data >=? Threshold (Config wb) then
    (* If this is a large write, flush any existing buffer first *)
    let '(wb, w, err) :=
      if len (Buffer wb) >? 0 then flushLocked wb w else (wb, w, None) in
    match err with
    | Some e => (wb, w, Some e)
    | None =>
        (* For large writes, don't buffer - write directly *)
        let '(w, err) := FlushCallback data offset w in (wb, w, err)
    end
  else
    (* Check if we need to flush due to timeout *)
    let '(wb, w, err) :=
      if (len (Buffer wb) >? 0) && (now - LastWriteTime wb >? Timeout (Config wb))
      then flushLocked wb w else (wb, w, None) in
    match err with
    | Some e => (wb, w, Some e)
    | None =>
        (* Check if we need to flush due to buffer size *)
        let '(wb, w, err) :=
          if len (Buffer wb) + len data >? MaxSize (Config wb)
          then flushLocked wb w else (wb, w, None) in
        match err with
        | Some e => (wb, w, Some e)
        | None =>
            (* Add data to buffer *)
            let offset' := if len (Buffer wb) =? 0 then offset else Offset wb in
            ({| Buffer := Buffer wb ++ data; Offset := offset';
                LastWriteTime := now; Config := Config wb |}, w, None)
        end
    end.

Definition Flush (wb : WriteBuffer) (w : World) : WriteBuffer * World * option E :=
  flushLocked wb w.

Definition Close (wb : WriteBuffer) (w : World) : WriteBuffer * World * option E :=
  Flush wb w.

(** A caller that makes the calls [Write(data, offset)] of a list one
    after the other, each at its clock reading [now], and goes on after an
    error. *)
Fixpoint Writes (wb : WriteBuffer) (calls : list (Z * bytes * Z)) (w : World)
  : WriteBuffer * World :=
  match calls with
  | [] => (wb, w)
  | (now, data, offset) :: rest =>
      let '(wb, w, _) := Write wb now data offset w in
      Writes wb rest w
  end.

End WriteBuffer.

Definition GetBufferSize (wb : WriteBuffer) : Z := len (Buffer wb).

Definition GetConfig (wb : WriteBuffer) : CoalesceConfig := Config wb.

Definition SetConfig (wb : WriteBuffer) (config : CoalesceConfig) : WriteBuffer :=
  {| Buffer := Buffer wb; Offset := Offset wb;
     LastWriteTime := LastWriteTime wb; Config := config |}.

(** The calls of a list follow each other within [timeout]: each comes no
    later than [timeout] after the one before it, the first no later than
    [timeout] after [last]. *)
Fixpoint in_time (timeout last : Z) (calls : list (Z * bytes * Z)) : Prop :=
  match calls with
  | [] => True
  | (now, _, _) :: rest => now - last ≤ timeout ∧ in_time timeout now rest
  end.

(** The offset of a buffer that was empty, after writes that were all
    appended to it: the offset of the first write that brought data; of
    the last write when none brought any; [start] without a write. *)
Fixpoint offsetOf (calls : list (Z * bytes * Z)) (start : Z) : Z :=
  match calls with
  | [] => start
  | (_, data, offset) :: rest =>
      if len data =? 0 then offsetOf rest offset else offset
  end.

(** A callback with a record of its calls added: the world is paired
    with the list of [(data, offset)] the callback was called with, oldest
    first. *)
Definition traced {World E : Type} (FlushCallback : bytes → Z → World → World * option E)
  : bytes → Z → World * list (bytes * Z) → World * list (bytes * Z) * option E :=
  λ data offset '(w, calls),
    let '(w, err) := FlushCallback data offset w in
    ((w, calls ++ [(data, offset)]), err).

End writecoalescing.

(** ** internal/writecoalescing: the manager of the buffers of all files *)

Module writebuffermanager.
Import writecoalescing.

(** File identifiers, Go strings, are the keys of the map. *)
#[global] Instance byte_countable : Countable byte :=
  inj_countable Byte.to_N Byte.of_N Byte.of_to_N.

(** [WriteBufferManager].  The map holds pointers to the buffers: a
    buffer a method has changed is stored back under its key.  The
    callback is a parameter below, and the lock is left out as for the
    single buffer. *)
Record WriteBufferManager : Type := {
  Buffers : gmap bytes WriteBuffer;
  Config : CoalesceConfig;
}.

(** [NewWriteBufferManager(config, flushCallback)]. *)
Definition NewWriteBufferManager (config : option CoalesceConfig)
  : WriteBufferManager :=
  {| Buffers := ∅; Config := default DefaultConfig config |}.

(** The manager with [buffer] stored under [fileID]. *)
Definition store (wbm : WriteBufferManager) (fileID : bytes) (buffer : WriteBuffer)
  : WriteBufferManager :=
  {| Buffers := <[fileID := buffer]> (Buffers wbm); Config := Config wbm |}.

Section WriteBufferManager.
Context {World E : Type}.
(** [FlushCallback(fileID, data, offset)]. *)
Variable FlushCallback : bytes → bytes → Z → World → World * option E.

(** [GetBuffer(fileID)]: the buffer of the file, made at its first
    use. *)
Definition GetBuffer (wbm : WriteBufferManager) (fileID : bytes)
  : outcome (WriteBufferManager * WriteBuffer) :=
  match Buffers wbm !! fileID with
  | Some buffer => Ret (wbm, buffer)
  | None =>
      (* Create a new buffer *)
      buffer ← NewWriteBuffer (Some (Config wbm));
      Ret (store wbm fileID buffer, buffer)
  end.

(** [Write(fileID, data, offset)]. *)
Definition Write (wbm : WriteBufferManager) (fileID : bytes) (now : Z) (data : bytes)
  (offset : Z) (w : World) : outcome (WriteBufferManager * World * option E) :=
  '(wbm, buffer) ← GetBuffer wbm fileID;
  let '(buffer, w, err) :=
    writecoalescing.Write (FlushCallback fileID) buffer now data offset w in
  Ret (store wbm fileID buffer, w, err).

(** [Flush(fileID)]. *)
Definition Flush (wbm : WriteBufferManager) (fileID : bytes) (w : World)
  : WriteBufferManager * World * option E :=
  match Buffers wbm !! fileID with
  | None => (wbm, w, None)
  | Some buffer =>
      let '(buffer, w, err) := writecoalescing.Flush (FlushCallback fileID) buffer w in
      (store wbm fileID buffer, w, err)
  end.

(** The loop of [FlushAll] over the buffers, with [order] the order in
    which [range] yielded the keys of the map. *)
Fixpoint flushEach (order : list bytes) (wbm : WriteBufferManager) (w : World)
  (lastErr : option E) : WriteBufferManager * World * option E :=
  match order with
  | [] => (wbm, w, lastErr)
  | fileID :: rest =>
      match Buffers wbm !! fileID with
      | None => flushEach rest wbm w lastErr
      | Some buffer =>
          let '(buffer, w, err) :=
            writecoalescing.Flush (FlushCallback fileID) buffer w in
          let lastErr := match err with Some e => Some e | None => lastErr end in
          flushEach rest (store wbm fileID buffer) w lastErr
      end
  end.

Definition FlushAll (order : list bytes) (wbm : WriteBufferManager) (w : World)
  : WriteBufferManager * World * option E :=
  flushEach order wbm w None.

(** The loop of [Close]: every buffer is closed and taken out of the
    map. *)
Fixpoint closeEach (order : list bytes) (wbm : WriteBufferManager) (w : World)
  (lastErr : option E) : WriteBufferManager * World * option E :=
  match order with
  | [] => (wbm, w, lastErr)
  | fileID :: rest =>
      match Buffers wbm !! fileID with
      | None => closeEach rest wbm w lastErr
      | Some buffer =>
          let '(_, w, err) := writecoalescing.Close (FlushCallback fileID) buffer w in
          let lastErr := match err with Some e => Some e | None => lastErr end in
          closeEach rest
            {| Buffers := delete fileID (Buffers wbm); Config := Config wbm |}
            w lastErr
      end
  end.

Definition Close (order : list bytes) (wbm : WriteBufferManager) (w : World)
  : WriteBufferManager * World * option E :=
  closeEach order wbm w None.

(** A caller that makes the calls [Write(fileID, data, offset)] of a list
    one after the other, each at its clock reading, and goes on after an
    error. *)
Fixpoint Writes (wbm : WriteBufferManager) (calls : list (bytes * Z * bytes * Z))
  (w : World) : outcome (WriteBufferManager * World) :=
  match calls with
  | [] => Ret (wbm, w)
  | (fileID, now, data, offset) :: rest =>
      '(wbm, w, _) ← Write wbm fileID now data offset w;
      Writes wbm rest w
  end.

End WriteBufferManager.

(** The manager's callback with a record of its calls added, as [traced]
    for the single buffer. *)
Definition traced {World E : Type}
  (FlushCallback : bytes → bytes → Z → World → World * option E)
  : bytes → bytes → Z → World * list (bytes * bytes * Z)
    → World * list (bytes * bytes * Z) * option E :=
  λ fileID data offset '(w, calls),
    let '(w, err) := FlushCallback fileID data offset w in
    ((w, calls ++ [(fileID, data, offset)]), err).

(** The data the callback has received for a file, in the order of its
    calls; the data written to a file, in the order written; and what the
    buffer of a file holds. *)
Definition flushed (fileID : bytes) (calls : list (bytes * bytes * Z)) : bytes :=
  concat ((λ c, c.1.2) <$> filter (λ c, c.1.1 = fileID) calls).

Definition written (fileID : bytes) (calls : list (bytes * Z * bytes * Z)) : bytes :=
  concat ((λ c, c.1.2) <$> filter (λ c, c.1.1.1 = fileID) calls).

Definition buffered (fileID : bytes) (wbm : WriteBufferManager) : bytes :=
  from_option Buffer [] (Buffers wbm !! fileID).

(** Every buffer of the map has the configuration of the manager, and is
    empty if that configuration switches coalescing off: what [GetBuffer]
    and [Write] keep. *)
Definition uniform (wbm : WriteBufferManager) : Prop :=
  ∀ f b, Buffers wbm !! f = Some b →
    writecoalescing.Config b = Config wbm
    ∧ (Enabled (Config wbm) = false → Buffer b = []).

End writebuffermanager.

(** ** internal/cpudetection *)

Module cpudetection.

Record CPUFeatures : Type := {
  AESNI : bool;
  AVX : bool;
  AVX2 : bool;
  NEON : bool;
  Arch : string;
  Model : string;
}.

Record CPUDetector : Type := { features : CPUFeatures }.

Definition detectLinuxFeatures (f : CPUFeatures) : CPUFeatures :=
  if String.eqb (Arch f) "amd64" then
    {| AESNI := true; AVX := true; AVX2 := true; NEON := NEON f;
       Arch := Arch f; Model := Model f |}
  else if String.eqb (Arch f) "arm64" then
    {| AESNI := AESNI f; AVX := AVX f; AVX2 := AVX2 f; NEON := true;
       Arch := Arch f; Model := Model f |}
  else f.

Definition detectDarwinFeatures (f : CPUFeatures) : CPUFeatures :=
  if String.eqb (Arch f) "amd64" then
    {| AESNI := true; AVX := true; AVX2 := true; NEON := NEON f;
       Arch := Arch f; Model := Model f |}
  else if String.eqb (Arch f) "arm64" then
    {| AESNI := AESNI f; AVX := AVX f; AVX2 := AVX2 f; NEON := true;
       Arch := Arch f; Model := "Apple Silicon" |}
  else f.

Definition detectWindowsFeatures (f : CPUFeatures) : CPUFeatures :=
  if String.eqb (Arch f) "amd64" then
    {| AESNI := true; AVX := true; AVX2 := true; NEON := NEON f;
       Arch := Arch f; Model := Model f |}
  else f.

Definition detectGenericFeatures (f : CPUFeatures) : CPUFeatures :=
  if String.eqb (Arch f) "amd64" then
    {| AESNI := true; AVX := true; AVX2 := AVX2 f; NEON := NEON f;
       Arch := Arch f; Model := Model f |}
  else if String.eqb (Arch f) "arm64" then
    {| AESNI := AESNI f; AVX := AVX f; AVX2 := AVX2 f; NEON := true;
       Arch := Arch f; Model := Model f |}
  else f.

Section New.
(** [runtime.GOOS] and [runtime.GOARCH]. *)
Variables GOOS GOARCH : string.

Definition detectFeatures : CPUFeatures :=
  let f := {| AESNI := false; AVX := false; AVX2 := false; NEON := false;
              Arch := GOARCH; Model := "" |} in
  if String.eqb GOOS "linux" then detectLinuxFeatures f
  else if String.eqb GOOS "darwin" then detectDarwinFeatures f
  else if String.eqb GOOS "windows" then detectWindowsFeatures f
  else detectGenericFeatures f.

Definition New : CPUDetector := {| features := detectFeatures |}.
End New.

Definition GetFeatures (cd : CPUDetector) : CPUFeatures := features cd.

Definition GetRecommendedBackend (cd : CPUDetector) : string :=
  let features := GetFeatures cd in
  (* For x86_64 with AES-NI, prefer AES-GCM with OpenSSL *)
  if String.eqb (Arch features) "amd64" && AESNI features then "aes-gcm-openssl"
  (* For ARM64 with NEON, prefer AES-GCM with Go *)
  else if String.eqb (Arch features) "arm64" && NEON features then "aes-gcm-go"
  (* For other cases, use XChaCha20-Poly1305 *)
  else "xchacha20-poly1305-go".

Definition IsOptimalForAES (cd : CPUDetector) : bool :=
  let features := GetFeatures cd in
  (String.eqb (Arch features) "amd64" && AESNI features)
  || (String.eqb (Arch features) "arm64" && NEON features).

Definition IsOptimalForChaCha (cd : CPUDetector) : bool :=
  let features := GetFeatures cd in
  String.eqb (Arch features) "amd64" || String.eqb (Arch features) "arm64".

Definition GetArchitecture (cd : CPUDetector) : string := Arch (features cd).

Definition GetModel (cd : CPUDetector) : string := Model (features cd).

End cpudetection.

(** ** Single-bit modifications of a byte string *)

(** Bit [k < 8] of a byte toggled. *)
Definition flip_bit (k : nat) (b : byte) : byte :=
  byte_of_Z (Z.lxor (Z_of_byte b) (Z.shiftl 1 (Z.of_nat k))).

(** Bit [i] of a byte string toggled, bits counted from the low bit of the
    first byte; [i < 8 * length l]. *)
Fixpoint flipBit (i : nat) (l : bytes) : bytes :=
  match l with
  | [] => []
  | b :: rest =>
      if (i <? 8)%nat then flip_bit i b :: rest
      else b :: flipBit (i - 8) rest
  end.

(** An AEAD that rejects every sealed message in which one bit was
    toggled, be it in the nonce, the encrypted text or the tag.  For the
    ciphers in use this holds up to the negligible chance of a forgery; it
    is what "authenticated" is taken to mean below. *)
Definition detects_bit_flips (a : cryptocore.AEAD) : Prop :=
  ∀ nonce plaintext aData i,
    (i < 8 * length (nonce ++ cryptocore.Seal a nonce plaintext aData))%nat →
    let c' := flipBit i (nonce ++ cryptocore.Seal a nonce plaintext aData) in
    cryptocore.Open a (take (length nonce) c') (drop (length nonce) c') aData
    = None.

(** ** Stand-ins for the cryptographic primitives

    The AEAD, HMAC and KDF implementations belong to libraries outside the
    repository, and the theorems below hold for any of them that keeps its
    contract.  The stand-ins here only show that the contracts can be met
    and give the theorems concrete inputs to run on; they are not ciphers. *)

Module standin.

Definition xor_byte (a b : byte) : byte :=
  let '(a0, (a1, (a2, (a3, (a4, (a5, (a6, a7))))))) := Byte.to_bits a in
  let '(b0, (b1, (b2, (b3, (b4, (b5, (b6, b7))))))) := Byte.to_bits b in
  Byte.of_bits (xorb a0 b0, (xorb a1 b1, (xorb a2 b2, (xorb a3 b3,
               (xorb a4 b4, (xorb a5 b5, (xorb a6 b6, xorb a7 b7))))))).

(** The parity of the bits of a byte, and of a byte string. *)
Definition byte_parity (b : byte) : bool :=
  let '(b0, (b1, (b2, (b3, (b4, (b5, (b6, b7))))))) := Byte.to_bits b in
  xorb b0 (xorb b1 (xorb b2 (xorb b3 (xorb b4 (xorb b5 (xorb b6 b7)))))).

Definition parity (l : bytes) : bool :=
  fold_right (λ b acc, xorb (byte_parity b) acc) false l.

(** A 16-byte tag: the parity of key, nonce, sealed text and associated
    data, so that toggling any one bit of nonce or text changes it. *)
Definition tag (key nonce body aData : bytes) : bytes :=
  (if parity (key ++ nonce ++ body ++ aData) then x01 else x00)
    :: replicate 15 x00.

Definition mask (key : bytes) (data : bytes) : bytes :=
  xor_byte (default x00 (key !! 0%nat)) <$> data.

Definition aead (key : bytes) : cryptocore.AEAD :=
  {| cryptocore.Seal nonce plaintext aData :=
       let body := mask key plaintext in
       body ++ tag key nonce body aData;
     cryptocore.Open nonce ciphertext aData :=
       if (length ciphertext <? 16)%nat then None
       else
         let body := take (length ciphertext - 16) ciphertext in
         let t := drop (length ciphertext - 16) ciphertext in
         if bool_decide (t = tag key nonce body aData)
         then Some (mask key body) else None |}.

Definition cc (key : bytes) (ivLen : Z) : cryptocore.CryptoCore :=
  {| cryptocore.AEADCipher := aead key; cryptocore.IVLen := ivLen |}.

(** A 32-byte keyed checksum in the place of HMAC-SHA256. *)
Definition mac (key data : bytes) : bytes :=
  (if parity (key ++ data) then x01 else x00)
    :: byte_of_Z (len data) :: replicate 30 (default x2a (key !! 0%nat)).

(** A key derivation that repeats the first key byte. *)
Definition hkdf (masterKey info : bytes) (outLen : Z) : bytes :=
  replicate (Z.to_nat outLen) (default x00 (masterKey !! 0%nat)).

(** A content codec over the stand-in cipher: 16-byte nonces, 4096-byte
    blocks, four CPUs. *)
Definition be : contentenc.ContentEnc :=
  {| contentenc.cryptoCore := cc [x07] 16;
     contentenc.plainBS := 4096;
     contentenc.cipherBS := 4128;
     contentenc.allZeroBlock := make 4128;
     contentenc.allZeroNonce := make 16;
     contentenc.parallelCrypto := parallelcrypto.New 4 |}.

(** The same with 2-byte nonces and 4-byte blocks, so that a group of
    blocks stays small. *)
Definition be_small : contentenc.ContentEnc :=
  {| contentenc.cryptoCore := cc [x07] 2;
     contentenc.plainBS := 4;
     contentenc.cipherBS := 22;
     contentenc.allZeroBlock := make 22;
     contentenc.allZeroNonce := make 2;
     contentenc.parallelCrypto := parallelcrypto.New 4 |}.

(** A group of eight blocks, numbered from 10 on, of a file without ID:
    the plaintexts, and the ciphertext as it lies on disk. *)
Definition group_plain : list bytes :=
  (λ i, replicate 4 (byte_of_Z (65 + i))) <$> seqZ 0 8.

Definition group_cipher : bytes :=
  concat ((λ i, let nonce := [xa5; byte_of_Z i] in
                nonce ++ cryptocore.Seal (aead [x07]) nonce
                           (replicate 4 (byte_of_Z (65 + i)))
                           (binary.BigEndian_PutUint64 (10 + i)))
            <$> seqZ 0 8).

(** The nonces of [group_cipher], by block index. *)
Definition group_nonces (i : Z) : bytes := [xa5; byte_of_Z i].

(** The same ciphertext with two blocks damaged: the nonce of block 2
    set to zero, and a byte of the tag of block 6 changed. *)
Definition group_damaged : bytes :=
  <[44%nat := x00]> (<[45%nat := x00]> (<[142%nat := x01]> group_cipher)).

(** Two nonces: one with a single bit set, one ordinary. *)
Definition nonce_one : bytes := replicate 15 x00 ++ [x01].
Definition nonce_a5 : bytes := replicate 16 xa5.

(** The two-byte plaintext "hi" sealed as block 3 of a file without ID,
    under each nonce. *)
Definition sealed_a5 : bytes :=
  nonce_a5 ++ cryptocore.Seal (aead [x07]) nonce_a5 [x68; x69]
                (binary.BigEndian_PutUint64 3).
Definition sealed_one : bytes :=
  nonce_one ++ cryptocore.Seal (aead [x07]) nonce_one [x68; x69]
                 (binary.BigEndian_PutUint64 3).

(** An optimized backend over two stand-in ciphers that differ in their
    key, with the 12-byte nonces of standard GCM. *)
Definition backend : optimized_backend.OptimizedBackend :=
  {| optimized_backend.gcm := aead [x07];
     optimized_backend.gcm_NonceSize := 12;
     optimized_backend.simdGCM := aead [x08];
     optimized_backend.hasAVX2 := true;
     optimized_backend.hasAESNI := true;
     optimized_backend.cpuCount := 4 |}.

(** Filename authentication under the stand-in checksum, and a name. *)
Definition fa : filenameauth.FilenameAuth := filenameauth.New hkdf [x07] true.
Definition name_abc : bytes := list_byte_of_string "abc".

End standin.

(** * Properties *)

(** ** Blocks: construction and the hole rule *)

Section block_basics.
Import cryptocore contentenc.

Lemma length_make n : length (make n) = Z.to_nat n.
Proof. apply length_replicate. Qed.

Lemma len_make n : 0 ≤ n → len (make n) = n.
Proof. intros. unfold len. rewrite length_make. lia. Qed.

Lemma bytes_Equal_true a b : bytes_Equal a b = true ↔ a = b.
Proof. unfold bytes_Equal. apply bool_decide_eq_true. Qed.

Lemma bytes_Equal_refl a : bytes_Equal a a = true.
Proof. by apply bytes_Equal_true. Qed.

Lemma bytes_Equal_false a b : bytes_Equal a b = false ↔ a ≠ b.
Proof. unfold bytes_Equal. apply bool_decide_eq_false. Qed.

Lemma wrap64_small z : 0 ≤ z < 2 ^ 64 → wrap64 z = z.
Proof. intros. unfold wrap64. by apply Z.mod_small. Qed.

(** What [New] returns when it returns: no addition wrapped around, the
    block size is positive and divides go-fuse's constant. *)
Lemma New_inv MAX numCPU cc pbs be :
  typed MAX cc pbs →
  New MAX numCPU cc pbs = Ret be →
  be = {| cryptoCore := cc; plainBS := pbs;
          cipherBS := pbs + IVLen cc + AuthTagLen;
          allZeroBlock := make (pbs + IVLen cc + AuthTagLen);
          allZeroNonce := make (IVLen cc);
          parallelCrypto := parallelcrypto.New numCPU |}
  ∧ 0 < pbs ≤ MAX ∧ 0 ≤ IVLen cc.
Proof.
  intros (HM & Hp & Hiv). unfold New.
  destruct (Z.eqb_spec pbs 0) as [|Hne]; [done|].
  destruct (Z.eqb_spec (MAX mod pbs) 0) as [Hmod|]; [|done]. cbn [negb].
  destruct (Z.ltb_spec (IVLen cc) 0) as [|Hge]; [done|].
  assert (pbs ≤ MAX).
  { apply Z.mod_divide in Hmod; [|lia]. apply Z.divide_pos_le in Hmod; lia. }
  intros [= <-].
  assert (Hc : wrap64 (wrap64 (pbs + wrap64 (IVLen cc)) + AuthTagLen) = pbs + IVLen cc + AuthTagLen).
  { unfold AuthTagLen. rewrite (wrap64_small (IVLen cc)) by lia.
    rewrite (wrap64_small (pbs + _)) by lia. apply wrap64_small. lia. }
  rewrite Hc. split; [done|lia].
Qed.

(** C1.  Hole passthrough.  For a codec built by [New] over any cipher and
    key, any block number and any file-ID, [DecryptBlock] applied to
    [cipherBS] zero bytes returns [plainBS] zero bytes and no error.  The
    cipher [cc] is arbitrary, so neither the key nor [Open] has a say. *)
Theorem hole_passthrough MAX numCPU cc pbs be B F :
  typed MAX cc pbs →
  New MAX numCPU cc pbs = Ret be →
  DecryptBlock be (make (cipherBS be)) B F = Ret (Ok (make (plainBS be)))
  ∧ len (make (cipherBS be)) = cipherBS be
  ∧ len (make (plainBS be)) = plainBS be.
Proof.
  intros Ht HN. destruct (New_inv _ _ _ _ _ Ht HN) as (-> & Hp & Hiv).
  cbn [cipherBS plainBS]. unfold AuthTagLen in *.
  split; [|split; apply len_make; lia].
  unfold DecryptBlock. cbn [allZeroBlock plainBS].
  rewrite len_make by lia.
  destruct (Z.eqb_spec (pbs + IVLen cc + 16) 0); [lia|].
  by rewrite bytes_Equal_refl.
Qed.

(** C1 at the stand-in codec. *)
Lemma hole_passthrough_witness :
  ∃ be, New 1048576 4 (standin.cc [x07] 16) 4096 = Ret be
        ∧ DecryptBlock be (make (cipherBS be)) 5 None = Ret (Ok (make (plainBS be))).
Proof.
  eexists. split; [reflexivity|].
  apply (hole_passthrough 1048576 4 (standin.cc [x07] 16) 4096 _ 5 None).
  - unfold typed. cbn. lia.
  - reflexivity.
Defined.

End block_basics.

(** ** Encrypt, then decrypt *)

Section roundtrip.
Import cryptocore contentenc.

(** [concatAD] on a nil or 16-byte file-ID. *)
Lemma concatAD_valid blockNo fileID :
  valid_fileID fileID →
  concatAD blockNo fileID = Ret (binary.BigEndian_PutUint64 blockNo ++ default [] fileID).
Proof.
  intros Hv. unfold concatAD. destruct fileID as [id|]; cbn in *.
  - unfold len in *. rewrite Hv, Z.eqb_refl. reflexivity.
  - reflexivity.
Qed.

Lemma take_make n m : 0 ≤ n ≤ m → take (Z.to_nat n) (make m) = make n.
Proof.
  intros. unfold make. rewrite take_replicate. f_equal. lia.
Qed.

Lemma len_app {A} (l k : list A) : len (l ++ k) = len l + len k.
Proof. unfold len. rewrite length_app. lia. Qed.

Lemma len_nonneg {A} (l : list A) : 0 ≤ len l.
Proof. unfold len. lia. Qed.

Lemma len_zero_nil {A} (l : list A) : len l = 0 → l = [].
Proof. unfold len. destruct l; [done|]. cbn. lia. Qed.

Lemma slice_to_app_len (l k : bytes) : slice_to (l ++ k) (len l) = l.
Proof. unfold slice_to, len. rewrite Nat2Z.id. apply take_app_length. Qed.

Lemma slice_from_app_len (l k : bytes) : slice_from (l ++ k) (len l) = k.
Proof. unfold slice_from, len. rewrite Nat2Z.id. apply drop_app_length. Qed.

(** A non-empty plaintext under a nonce of the right length: the nonce,
    then what the cipher sealed. *)
Lemma doEncryptBlock_nonempty MAX numCPU cc pbs be plaintext B F nonce :
  typed MAX cc pbs →
  New MAX numCPU cc pbs = Ret be →
  (∀ n p ad, len (Seal (AEADCipher cc) n p ad) = len p + AuthTagLen) →
  len nonce = IVLen cc →
  valid_fileID F →
  plaintext ≠ [] →
  doEncryptBlock be plaintext B F nonce
  = Ret (nonce ++ Seal (AEADCipher cc) nonce plaintext
                    (binary.BigEndian_PutUint64 B ++ default [] F)).
Proof.
  intros Ht HN Hlen Hn HF Hne.
  destruct (New_inv _ _ _ _ _ Ht HN) as (-> & Hp & Hiv).
  destruct Ht as (HM & Hpr & Hivr).
  unfold doEncryptBlock. cbn [cryptoCore cipherBS plainBS].
  destruct (Z.eqb_spec (len plaintext) 0) as [H0|_].
  { by apply len_zero_nil in H0. }
  destruct (Z.eqb_spec (len nonce) (IVLen cc)) as [_|]; [|done]. cbn [negb].
  rewrite concatAD_valid by done. cbn [mbind outcome_bind].
  unfold AuthTagLen in *.
  assert (Hcopy : copy (make (pbs + IVLen cc + 16)) nonce
                  = nonce ++ drop (length nonce) (make (pbs + IVLen cc + 16))).
  { unfold copy. rewrite length_make. rewrite firstn_all2; [done|].
    unfold len in Hn. lia. }
  rewrite Hcopy.
  destruct (Z.ltb_spec (len (nonce ++ drop (length nonce) (make (pbs + IVLen cc + 16)))) (len nonce)) as [Hlt|_].
  { rewrite len_app in Hlt. pose proof (len_nonneg (drop (length nonce) (make (pbs + IVLen cc + 16)))). lia. }
  rewrite slice_to_app_len.
  unfold BlockOverhead. cbn [cipherBS plainBS].
  rewrite wrap64_small by lia.
  rewrite len_app, Hlen, Hn.
  destruct (Z.eqb_spec (len plaintext + (pbs + IVLen cc + 16 - pbs)) (IVLen cc + (len plaintext + 16))); [done|lia].
Qed.

(** C2.  Round trip.  For a plaintext of at most [plainBS] bytes, a drawn
    nonce of the configured length that is not all zero, and a cipher that
    keeps the AEAD contract, [EncryptBlock] returns a ciphertext that
    [DecryptBlock] turns back into exactly the plaintext, without error. *)
Theorem encrypt_decrypt_roundtrip MAX numCPU cc pbs be nonce P B F :
  typed MAX cc pbs →
  New MAX numCPU cc pbs = Ret be →
  AEAD_correct (AEADCipher cc) →
  len nonce = IVLen cc →
  nonce ≠ make (IVLen cc) →
  valid_fileID F →
  len P ≤ plainBS be →
  ∃ C, EncryptBlock be nonce P B F = Ret C
       ∧ DecryptBlock be C B F = Ret (Ok P).
Proof.
  intros Ht HN [Hos Hsl] Hn Hnz HF _.
  destruct P as [|p0 P'].
  { exists []. done. }
  exists (nonce ++ Seal (AEADCipher cc) nonce (p0 :: P') (binary.BigEndian_PutUint64 B ++ default [] F)).
  split.
  { unfold EncryptBlock. by eapply doEncryptBlock_nonempty. }
  destruct (New_inv _ _ _ _ _ Ht HN) as (-> & Hp & Hiv).
  set (ad := binary.BigEndian_PutUint64 B ++ default [] F).
  set (sealed := Seal (AEADCipher cc) nonce (p0 :: P') ad).
  unfold DecryptBlock. cbn [cryptoCore allZeroBlock allZeroNonce plainBS].
  assert (Hsealed : len sealed = len (p0 :: P') + AuthTagLen) by apply Hsl.
  assert (0 < len (p0 :: P')) by (unfold len; cbn; lia).
  unfold AuthTagLen in *.
  rewrite len_app.
  destruct (Z.eqb_spec (len nonce + len sealed) 0); [lia|].
  assert (Htake : slice_to (nonce ++ sealed) (IVLen cc) = nonce).
  { rewrite <- Hn. apply slice_to_app_len. }
  assert (Hdrop : slice_from (nonce ++ sealed) (IVLen cc) = sealed).
  { rewrite <- Hn. apply slice_from_app_len. }
  destruct (bytes_Equal (nonce ++ sealed) (make (pbs + IVLen cc + 16))) eqn:Hz.
  { apply bytes_Equal_true in Hz. exfalso. apply Hnz.
    rewrite <- Htake, Hz. unfold slice_to. apply take_make. lia. }
  destruct (Z.ltb_spec (len nonce + len sealed) (IVLen cc)); [lia|].
  rewrite Htake, Hdrop.
  apply bytes_Equal_false in Hnz. rewrite Hnz.
  rewrite concatAD_valid by done. cbn [mbind outcome_bind].
  fold ad. unfold sealed. by rewrite Hos.
Qed.

End roundtrip.

(** ** Toggled bits and the stand-in cipher *)

Section bit_flips.
Import cryptocore contentenc.

Lemma flip_bit_neq k b : (k < 8)%nat → flip_bit k b ≠ b.
Proof.
  intros Hk. do 8 (destruct k as [|k]; [destruct b; vm_compute; discriminate|]). lia.
Qed.

Lemma byte_parity_flip_bit k b :
  (k < 8)%nat → standin.byte_parity (flip_bit k b) = negb (standin.byte_parity b).
Proof.
  intros Hk. do 8 (destruct k as [|k]; [destruct b; vm_compute; reflexivity|]). lia.
Qed.

Lemma length_flipBit i l : length (flipBit i l) = length l.
Proof.
  revert i. induction l as [|b l IH]; intros i; [done|]. cbn [flipBit].
  destruct (i <? 8)%nat; cbn [length]; by rewrite ?IH.
Qed.

Lemma flipBit_neq i l : (i < 8 * length l)%nat → flipBit i l ≠ l.
Proof.
  revert i. induction l as [|b l IH]; intros i Hi; [cbn in *; lia|].
  cbn [flipBit length] in *. destruct (Nat.ltb_spec i 8).
  - intros [= H']. by eapply flip_bit_neq.
  - intros [= H']. eapply IH; [|done]. lia.
Qed.

(** A toggled bit lies in one part of a concatenation. *)
Lemma flipBit_app i (l k : bytes) :
  flipBit i (l ++ k) =
  if (i <? 8 * length l)%nat then flipBit i l ++ k
  else l ++ flipBit (i - 8 * length l) k.
Proof.
  revert i. induction l as [|b l IH]; intros i.
  - cbn. by rewrite Nat.sub_0_r.
  - cbn [app flipBit length]. destruct (Nat.ltb_spec i 8).
    + destruct (Nat.ltb_spec i (8 * S (length l))); [done|lia].
    + rewrite IH. destruct (Nat.ltb_spec (i - 8) (8 * length l));
        destruct (Nat.ltb_spec i (8 * S (length l))); try lia; [done|].
      cbn. do 3 f_equal. lia.
Qed.

Lemma parity_app l k : standin.parity (l ++ k) = xorb (standin.parity l) (standin.parity k).
Proof.
  induction l as [|b l IH]; [reflexivity|].
  cbn [app]. unfold standin.parity in *. cbn [fold_right]. rewrite IH. by rewrite xorb_assoc.
Qed.

(** Toggling a bit changes the parity. *)
Lemma parity_flipBit i l :
  (i < 8 * length l)%nat → standin.parity (flipBit i l) = negb (standin.parity l).
Proof.
  revert i. induction l as [|b l IH]; intros i Hi; [cbn in *; lia|].
  cbn [flipBit length] in *. unfold standin.parity in *.
  destruct (Nat.ltb_spec i 8); cbn [fold_right].
  - rewrite byte_parity_flip_bit by done. by destruct (standin.byte_parity b), (fold_right _ _ l).
  - rewrite IH by lia. by destruct (standin.byte_parity b), (fold_right _ _ l).
Qed.

Lemma xor_byte_involutive k b : standin.xor_byte k (standin.xor_byte k b) = b.
Proof.
  unfold standin.xor_byte.
  destruct (to_bits k) as (k0&k1&k2&k3&k4&k5&k6&k7) eqn:Hk.
  rewrite <- (of_bits_to_bits b) at 2.
  destruct (to_bits b) as (b0&b1&b2&b3&b4&b5&b6&b7) eqn:Hb.
  rewrite to_bits_of_bits.
  rewrite <- !xorb_assoc, !xorb_nilpotent, !xorb_false_l. done.
Qed.

Lemma mask_involutive key l : standin.mask key (standin.mask key l) = l.
Proof.
  unfold standin.mask. induction l as [|b l IH]; [done|].
  cbn. by rewrite xor_byte_involutive, IH.
Qed.

Lemma length_mask key l : length (standin.mask key l) = length l.
Proof. unfold standin.mask. apply length_fmap. Qed.

Lemma length_tag key nonce body ad : length (standin.tag key nonce body ad) = 16%nat.
Proof. reflexivity. Qed.

Lemma standin_open_sealed key nonce body ad t :
  length t = 16%nat →
  Open (standin.aead key) nonce (body ++ t) ad
  = if bool_decide (t = standin.tag key nonce body ad)
    then Some (standin.mask key body) else None.
Proof.
  intros Ht. cbn [Open standin.aead]. rewrite length_app, Ht.
  destruct (Nat.ltb_spec (length body + 16) 16); [lia|].
  replace (length body + 16 - 16)%nat with (length body) by lia.
  by rewrite take_app_length, drop_app_length.
Qed.

(** The stand-in cipher keeps the AEAD contract ... *)
Lemma standin_correct key : AEAD_correct (standin.aead key).
Proof.
  split.
  - intros nonce pt ad. cbn [Seal standin.aead].
    rewrite standin_open_sealed by done.
    rewrite bool_decide_eq_true_2 by done. by rewrite mask_involutive.
  - intros nonce pt ad. cbn [Seal standin.aead]. unfold len, AuthTagLen.
    rewrite length_app, length_mask, length_tag. lia.
Qed.

Lemma tag_parity_neq key nonce body ad nonce' body' :
  standin.parity (key ++ nonce' ++ body' ++ ad) = negb (standin.parity (key ++ nonce ++ body ++ ad)) →
  standin.tag key nonce body ad ≠ standin.tag key nonce' body' ad.
Proof.
  unfold standin.tag. intros ->.
  by destruct (standin.parity (key ++ nonce ++ body ++ ad)).
Qed.

(** ... and rejects every sealed message with one bit toggled. *)
Lemma standin_detects_bit_flips key : detects_bit_flips (standin.aead key).
Proof.
  intros nonce pt ad i Hi c'. subst c'.
  cbn [Seal standin.aead] in *.
  set (body := standin.mask key pt) in *.
  set (t := standin.tag key nonce body ad) in *.
  rewrite !length_app in Hi.
  rewrite flipBit_app.
  destruct (Nat.ltb_spec i (8 * length nonce)) as [Hn|Hn].
  - (* the bit is in the nonce *)
    rewrite take_app_length', drop_app_length' by (by rewrite length_flipBit).
    rewrite standin_open_sealed by done.
    rewrite bool_decide_eq_false_2; [done|].
    apply tag_parity_neq.
    rewrite !parity_app, parity_flipBit by done.
    by destruct (standin.parity key), (standin.parity nonce), (standin.parity body), (standin.parity ad).
  - rewrite take_app_length, drop_app_length.
    rewrite flipBit_app.
    destruct (Nat.ltb_spec (i - 8 * length nonce) (8 * length body)) as [Hb|Hb].
    + (* the bit is in the sealed text *)
      rewrite standin_open_sealed by done.
      rewrite bool_decide_eq_false_2; [done|].
      apply tag_parity_neq.
      rewrite !parity_app, parity_flipBit by done.
      by destruct (standin.parity key), (standin.parity nonce), (standin.parity body), (standin.parity ad).
    + (* the bit is in the tag *)
      rewrite standin_open_sealed by (by rewrite length_flipBit).
      rewrite bool_decide_eq_false_2; [done|].
      apply flipBit_neq. subst t. rewrite length_tag in *. lia.
Qed.

End bit_flips.

(** ** Big-endian block numbers *)

Section big_endian.
Import cryptocore contentenc.

Lemma Z_of_byte_range b : 0 ≤ Z_of_byte b < 256.
Proof. unfold Z_of_byte. pose proof (Byte.to_N_bounded b). lia. Qed.

(** [byte(v)] keeps [v mod 256]. *)
Lemma Z_of_byte_of_Z z : Z_of_byte (byte_of_Z z) = z mod 256.
Proof.
  unfold Z_of_byte, byte_of_Z.
  pose proof (Z.mod_pos_bound z 256 ltac:(lia)) as Hr.
  destruct (Byte.of_N (Z.to_N (z mod 256))) as [b|] eqn:Hb; cbn [from_option id].
  - apply Byte.to_of_N in Hb. rewrite Hb. lia.
  - apply Byte.of_N_None_iff in Hb. lia.
Qed.

Lemma byte_of_Z_of_byte b : byte_of_Z (Z_of_byte b) = b.
Proof.
  unfold byte_of_Z. pose proof (Z_of_byte_range b).
  rewrite Z.mod_small by lia. unfold Z_of_byte. rewrite N2Z.id, Byte.of_to_N. done.
Qed.

Lemma land_mul_pow2_low a b n :
  0 ≤ n → 0 ≤ b < 2 ^ n → Z.land (a * 2 ^ n) b = 0.
Proof.
  intros Hn Hb. apply Z.bits_inj'. intros m Hm.
  rewrite Z.land_spec, Z.bits_0.
  destruct (Z.lt_ge_cases m n).
  - by rewrite Z.mul_pow2_bits_low.
  - rewrite <- (Z.mod_small b (2 ^ n)) by lia.
    rewrite Z.mod_pow2_bits_high by lia. apply andb_false_r.
Qed.

(** Or-ing into cleared low bits is addition. *)
Lemma lor_mul_pow2_add a b n :
  0 ≤ n → 0 ≤ b < 2 ^ n → Z.lor (a * 2 ^ n) b = a * 2 ^ n + b.
Proof.
  intros Hn Hb. pose proof (Z.add_lor_land (a * 2 ^ n) b) as H.
  rewrite land_mul_pow2_low in H by done. lia.
Qed.

Lemma lor_shiftl_add a b n :
  0 ≤ n → 0 ≤ b < 2 ^ n → Z.lor (Z.shiftl a n) b = a * 2 ^ n + b.
Proof. intros. rewrite Z.shiftl_mul_pow2 by lia. by apply lor_mul_pow2_add. Qed.

(** Reading back the eight bytes gives the number. *)
Lemma BigEndian_roundtrip v :
  0 ≤ v < 2 ^ 64 → binary.BigEndian_Uint64 (binary.BigEndian_PutUint64 v) = v.
Proof.
  intros Hv. unfold binary.BigEndian_Uint64, binary.BigEndian_PutUint64.
  cbn [fold_left]. rewrite !Z_of_byte_of_Z, !Z.shiftr_div_pow2 by lia.
  rewrite Z.shiftl_0_l, Z.lor_0_l.
  repeat (rewrite (lor_shiftl_add _ _ 8);
    [| lia | apply (Z.mod_pos_bound _ 256); lia]).
  change (2 ^ 8) with 256. change (2 ^ 16) with 65536.
  change (2 ^ 24) with 16777216. change (2 ^ 32) with 4294967296.
  change (2 ^ 40) with 1099511627776. change (2 ^ 48) with 281474976710656.
  change (2 ^ 56) with 72057594037927936.
  change (2 ^ 64) with 18446744073709551616 in Hv.
  Z.to_euclidean_division_equations. lia.
Qed.

Lemma BigEndian_bytes v :
  Z_of_byte <$> binary.BigEndian_PutUint64 v
  = [ (v / 2 ^ 56) mod 256; (v / 2 ^ 48) mod 256; (v / 2 ^ 40) mod 256;
      (v / 2 ^ 32) mod 256; (v / 2 ^ 24) mod 256; (v / 2 ^ 16) mod 256;
      (v / 2 ^ 8) mod 256; v mod 256 ].
Proof.
  unfold binary.BigEndian_PutUint64. cbn [fmap list_fmap].
  by rewrite !Z_of_byte_of_Z, !Z.shiftr_div_pow2 by lia.
Qed.

End big_endian.

(** ** Single blocks: empty, short, tampered *)

Section single_blocks.
Import cryptocore contentenc.

(** [concatAD] returns only for a nil or 16-byte file-ID. *)
Lemma concatAD_inv blockNo fileID aData :
  concatAD blockNo fileID = Ret aData →
  valid_fileID fileID
  ∧ aData = binary.BigEndian_PutUint64 blockNo ++ default [] fileID.
Proof.
  unfold concatAD. destruct fileID as [fid|]; cbn [valid_fileID].
  - rewrite bool_decide_eq_true_2 by eauto. cbn [andb from_option id].
    destruct (Z.eqb_spec (len fid) headerIDLen); cbn [negb]; [|done].
    by intros [= <-].
  - rewrite bool_decide_eq_false_2 by (by intros [? ?]). cbn [andb].
    by intros [= <-].
Qed.

(** When [doEncryptBlock] returns for a non-empty plaintext, the nonce had
    the right length, the file-ID was well formed, and the result is the
    nonce followed by what the cipher sealed. *)
Lemma doEncryptBlock_inv MAX numCPU cc pbs be plaintext B F nonce C :
  typed MAX cc pbs →
  New MAX numCPU cc pbs = Ret be →
  doEncryptBlock be plaintext B F nonce = Ret C →
  plaintext ≠ [] →
  len nonce = IVLen cc ∧ valid_fileID F
  ∧ C = nonce ++ Seal (AEADCipher cc) nonce plaintext
                   (binary.BigEndian_PutUint64 B ++ default [] F).
Proof.
  intros Ht HN HC Hne.
  destruct (New_inv _ _ _ _ _ Ht HN) as (-> & Hp & Hiv).
  revert HC. unfold doEncryptBlock. cbn [cryptoCore cipherBS plainBS].
  destruct (Z.eqb_spec (len plaintext) 0) as [H0|_].
  { by apply len_zero_nil in H0. }
  destruct (Z.eqb_spec (len nonce) (IVLen cc)) as [Hn|]; [|done]. cbn [negb].
  destruct (concatAD B F) as [aData|] eqn:Had; [|done].
  apply concatAD_inv in Had as [HF ->]. cbn [mbind outcome_bind].
  unfold AuthTagLen.
  assert (Hcopy : copy (make (pbs + IVLen cc + 16)) nonce
                  = nonce ++ drop (length nonce) (make (pbs + IVLen cc + 16))).
  { unfold copy. rewrite length_make. rewrite firstn_all2; [done|].
    unfold len in Hn. lia. }
  rewrite Hcopy.
  destruct (Z.ltb_spec (len (nonce ++ drop (length nonce) (make (pbs + IVLen cc + 16)))) (len nonce)) as [Hlt|_]; [done|].
  rewrite slice_to_app_len.
  destruct (negb _); [done|]. by intros [= <-].
Qed.

(** C10.  The empty plaintext encrypts to the empty ciphertext, and the
    empty ciphertext decrypts to the empty plaintext without error, for
    every block number and file-ID. *)
Theorem empty_block_roundtrip (be : ContentEnc) nonce B F :
  EncryptBlock be nonce [] B F = Ret []
  ∧ DecryptBlock be [] B F = Ret (Ok []).
Proof. split; reflexivity. Qed.

(** C5, amended.  A non-empty ciphertext that is not the all-zero block
    and is shorter than the nonce, or starts with an all-zero nonce, is
    refused without plaintext. *)
Theorem short_or_zero_nonce_rejected MAX numCPU cc pbs be ct B F :
  typed MAX cc pbs →
  New MAX numCPU cc pbs = Ret be →
  ct ≠ [] →
  ct ≠ allZeroBlock be →
  len ct < IVLen cc ∨ slice_to ct (IVLen cc) = make (IVLen cc) →
  DecryptBlock be ct B F
  = Ret (Err (if len ct <? IVLen cc then ErrBlockTooShort else ErrAllZeroNonce)).
Proof.
  intros Ht HN Hne Hnz Hor.
  destruct (New_inv _ _ _ _ _ Ht HN) as (-> & Hp & Hiv).
  cbn [allZeroBlock] in Hnz.
  unfold DecryptBlock. cbn [cryptoCore allZeroBlock allZeroNonce plainBS].
  destruct (Z.eqb_spec (len ct) 0) as [H0|_].
  { by apply len_zero_nil in H0. }
  apply bytes_Equal_false in Hnz. rewrite Hnz.
  destruct (Z.ltb_spec (len ct) (IVLen cc)) as [|Hge]; [done|].
  destruct Hor as [|Hz]; [lia|].
  by rewrite Hz, bytes_Equal_refl.
Qed.

Lemma standin_New : New 1048576 4 (standin.cc [x07] 16) 4096 = Ret standin.be.
Proof. reflexivity. Qed.

Lemma standin_typed : typed 1048576 (standin.cc [x07] 16) 4096.
Proof. unfold typed. cbn. lia. Qed.

Lemma standin_not_hole (ct : bytes) :
  length ct ≠ 4128%nat → ct ≠ allZeroBlock standin.be.
Proof. intros Hl ->. apply Hl. reflexivity. Qed.

(** C5 as stated fails on the empty ciphertext: it is shorter than the
    nonce and is not the all-zero block, yet it decrypts to the empty
    plaintext without error. *)
Lemma empty_ciphertext_accepted :
  [] ≠ allZeroBlock standin.be
  ∧ len (@nil byte) < IVLen (cryptoCore standin.be)
  ∧ DecryptBlock standin.be [] 0 None = Ret (Ok []).
Proof.
  split; [|split].
  - by apply standin_not_hole.
  - reflexivity.
  - reflexivity.
Qed.

(** C5, amended, on a three-byte block and on a block with a zero nonce. *)
Lemma short_or_zero_nonce_rejected_witness :
  DecryptBlock standin.be [x01; x02; x03] 0 None = Ret (Err ErrBlockTooShort)
  ∧ DecryptBlock standin.be (replicate 16 x00 ++ [x01]) 0 None
    = Ret (Err ErrAllZeroNonce).
Proof.
  split.
  - apply (short_or_zero_nonce_rejected 1048576 4 (standin.cc [x07] 16) 4096
             standin.be [x01; x02; x03] 0 None standin_typed standin_New).
    + discriminate.
    + by apply standin_not_hole.
    + left. vm_compute. reflexivity.
  - apply (short_or_zero_nonce_rejected 1048576 4 (standin.cc [x07] 16) 4096
             standin.be (replicate 16 x00 ++ [x01]) 0 None standin_typed standin_New).
    + discriminate.
    + by apply standin_not_hole.
    + right. vm_compute. reflexivity.
Defined.

(** C3, amended.  Under a cipher that rejects every sealed message with
    one bit toggled, a block produced by [EncryptBlock] in which one bit
    was toggled, and which is not the all-zero block, is refused without
    plaintext: with the cipher's authentication error, or, when the toggle
    cleared the only set bit of the nonce, with the all-zero-nonce error. *)
Theorem tampered_block_rejected MAX numCPU cc pbs be nonce P B F C i :
  typed MAX cc pbs →
  New MAX numCPU cc pbs = Ret be →
  detects_bit_flips (AEADCipher cc) →
  EncryptBlock be nonce P B F = Ret C →
  (i < 8 * length C)%nat →
  flipBit i C ≠ allZeroBlock be →
  DecryptBlock be (flipBit i C) B F
  = Ret (Err (if bytes_Equal (slice_to (flipBit i C) (IVLen cc)) (make (IVLen cc))
              then ErrAllZeroNonce else ErrOpen)).
Proof.
  intros Ht HN Hdet HC Hi Hnz.
  assert (HP : P ≠ []).
  { intros ->. cbn in HC. injection HC as <-. cbn in Hi. lia. }
  destruct (doEncryptBlock_inv _ _ _ _ _ _ _ _ _ _ Ht HN HC HP) as (Hn & HF & ->).
  destruct (New_inv _ _ _ _ _ Ht HN) as (-> & Hp & Hiv).
  cbn [allZeroBlock] in Hnz.
  set (ad := binary.BigEndian_PutUint64 B ++ default [] F) in *.
  set (c := nonce ++ Seal (AEADCipher cc) nonce P ad) in *.
  unfold DecryptBlock. cbn [cryptoCore allZeroBlock allZeroNonce plainBS].
  assert (Hlen : len (flipBit i c) = len c) by (unfold len; by rewrite length_flipBit).
  assert (Hc : len c = IVLen cc + len (Seal (AEADCipher cc) nonce P ad)).
  { unfold c. rewrite len_app. lia. }
  pose proof (len_nonneg (Seal (AEADCipher cc) nonce P ad)).
  rewrite Hlen.
  destruct (Z.eqb_spec (len c) 0) as [H0|_].
  { unfold len in H0. lia. }
  apply bytes_Equal_false in Hnz. rewrite Hnz.
  destruct (Z.ltb_spec (len c) (IVLen cc)); [lia|].
  destruct (bytes_Equal (slice_to (flipBit i c) (IVLen cc)) (make (IVLen cc))); [done|].
  rewrite concatAD_valid by done. cbn [mbind outcome_bind]. fold ad.
  unfold slice_to, slice_from. rewrite <- Hn. unfold len. rewrite Nat2Z.id.
  subst c. by rewrite (Hdet nonce P ad i Hi).
Qed.

(** C3, amended, at the stand-in codec: bit 140 lies in the encrypted
    text. *)
Lemma tampered_block_rejected_witness :
  EncryptBlock standin.be standin.nonce_a5 [x68; x69] 3 None = Ret standin.sealed_a5
  ∧ DecryptBlock standin.be (flipBit 140 standin.sealed_a5) 3 None = Ret (Err ErrOpen).
Proof.
  split; [reflexivity|].
  apply (tampered_block_rejected 1048576 4 (standin.cc [x07] 16) 4096
           standin.be standin.nonce_a5 [x68; x69] 3 None standin.sealed_a5 140%nat
           standin_typed standin_New (standin_detects_bit_flips [x07])).
  - reflexivity.
  - vm_compute. lia.
  - by apply standin_not_hole.
Defined.

(** C3 as stated fails: with the nonce 00..01, toggling its last bit gives
    a block that is refused before the cipher is asked, with the
    all-zero-nonce error and not with an authentication error. *)
Lemma bit_flip_to_zero_nonce :
  EncryptBlock standin.be standin.nonce_one [x68; x69] 3 None = Ret standin.sealed_one
  ∧ flipBit 120 standin.sealed_one ≠ allZeroBlock standin.be
  ∧ DecryptBlock standin.be (flipBit 120 standin.sealed_one) 3 None
    = Ret (Err ErrAllZeroNonce)
  ∧ ErrAllZeroNonce ≠ ErrOpen.
Proof.
  split; [reflexivity|]. split; [|split].
  - by apply standin_not_hole.
  - vm_compute. reflexivity.
  - discriminate.
Qed.

(** C2 at the stand-in codec. *)
Lemma encrypt_decrypt_roundtrip_witness :
  ∃ C, EncryptBlock standin.be standin.nonce_a5 [x68; x69] 3 (Some (replicate 16 x11)) = Ret C
       ∧ DecryptBlock standin.be C 3 (Some (replicate 16 x11)) = Ret (Ok [x68; x69]).
Proof.
  apply (encrypt_decrypt_roundtrip 1048576 4 (standin.cc [x07] 16) 4096
           standin.be standin.nonce_a5 [x68; x69] 3 (Some (replicate 16 x11))
           standin_typed standin_New (standin_correct [x07])).
  - reflexivity.
  - discriminate.
  - reflexivity.
  - vm_compute. discriminate.
Defined.

End single_blocks.

(** ** Associated data *)

Section associated_data.
Import cryptocore contentenc.

(** C4.  For a 16-byte file-ID, [concatAD] returns 24 bytes: the block
    number in eight bytes, most significant first, then the file-ID; and
    both [doEncryptBlock] and [DecryptBlock] hand exactly these bytes to
    the cipher as associated data.  On the encrypt path: for a codec
    built by [New], a nonce of the codec's length and a cipher that adds
    its 16-byte tag, [doEncryptBlock] returns the nonce followed by what
    [Seal] makes of the plaintext under these bytes; and whatever codec
    it runs on, a block it returns was sealed under them.  On the decrypt
    path: a block that gets as far as the cipher is opened under them. *)
Theorem concatAD_layout (blockNo : Z) (fileID : bytes) :
  0 ≤ blockNo < 2 ^ 64 →
  len fileID = 16 →
  let aData := binary.BigEndian_PutUint64 blockNo ++ fileID in
  concatAD blockNo (Some fileID) = Ret aData
  ∧ len aData = 24
  ∧ slice_to aData 8 = binary.BigEndian_PutUint64 blockNo
  ∧ binary.BigEndian_Uint64 (slice_to aData 8) = blockNo
  ∧ Z_of_byte <$> slice_to aData 8
    = [ (blockNo / 2 ^ 56) mod 256; (blockNo / 2 ^ 48) mod 256;
        (blockNo / 2 ^ 40) mod 256; (blockNo / 2 ^ 32) mod 256;
        (blockNo / 2 ^ 24) mod 256; (blockNo / 2 ^ 16) mod 256;
        (blockNo / 2 ^ 8) mod 256; blockNo mod 256 ]
  ∧ slice_from aData 8 = fileID
  ∧ (∀ MAX numCPU cc pbs be plaintext nonce,
       typed MAX cc pbs →
       New MAX numCPU cc pbs = Ret be →
       (∀ n p ad, len (Seal (AEADCipher cc) n p ad) = len p + AuthTagLen) →
       len nonce = IVLen cc →
       plaintext ≠ [] →
       doEncryptBlock be plaintext blockNo (Some fileID) nonce
       = Ret (nonce ++ Seal (AEADCipher cc) nonce plaintext aData))
  ∧ (∀ be plaintext nonce C,
       plaintext ≠ [] →
       doEncryptBlock be plaintext blockNo (Some fileID) nonce = Ret C →
       C = slice_to (copy (make (cipherBS be)) nonce) (len nonce)
           ++ Seal (AEADCipher (cryptoCore be)) nonce plaintext aData)
  ∧ (∀ be ciphertext,
       ciphertext ≠ [] →
       ciphertext ≠ allZeroBlock be →
       IVLen (cryptoCore be) ≤ len ciphertext →
       slice_to ciphertext (IVLen (cryptoCore be)) ≠ allZeroNonce be →
       DecryptBlock be ciphertext blockNo (Some fileID)
       = Ret match Open (AEADCipher (cryptoCore be))
                     (slice_to ciphertext (IVLen (cryptoCore be)))
                     (slice_from ciphertext (IVLen (cryptoCore be))) aData with
             | Some plaintext => Ok plaintext
             | None => Err ErrOpen
             end).
Proof.
  intros Hb Hf aData.
  assert (Had : concatAD blockNo (Some fileID) = Ret aData).
  { by rewrite concatAD_valid. }
  assert (H8 : slice_to aData 8 = binary.BigEndian_PutUint64 blockNo).
  { unfold aData. apply (slice_to_app_len (binary.BigEndian_PutUint64 blockNo)). }
  split; [done|]. split.
  { unfold aData. rewrite len_app, Hf. reflexivity. }
  split; [done|]. split.
  { rewrite H8. by apply BigEndian_roundtrip. }
  split.
  { rewrite H8. apply BigEndian_bytes. }
  split.
  { unfold aData. apply (slice_from_app_len (binary.BigEndian_PutUint64 blockNo)). }
  split.
  { intros MAX numCPU cc pbs be plaintext nonce Ht HN Hseal Hn Hne.
    by apply (doEncryptBlock_nonempty MAX numCPU cc pbs be plaintext blockNo
                (Some fileID) nonce Ht HN Hseal Hn). }
  split.
  - intros be plaintext nonce C Hne. unfold doEncryptBlock.
    destruct (Z.eqb_spec (len plaintext) 0) as [H0|_].
    { by apply len_zero_nil in H0. }
    destruct (negb _); [done|]. rewrite Had. cbn [mbind outcome_bind].
    destruct (_ <? _); [done|]. destruct (negb _); [done|]. by intros [= <-].
  - intros be ciphertext Hne Hnz Hlen Hnonce. unfold DecryptBlock.
    destruct (Z.eqb_spec (len ciphertext) 0) as [H0|_].
    { by apply len_zero_nil in H0. }
    apply bytes_Equal_false in Hnz, Hnonce. rewrite Hnz.
    destruct (Z.ltb_spec (len ciphertext) (IVLen (cryptoCore be))); [lia|].
    rewrite Hnonce, Had. cbn [mbind outcome_bind]. by destruct (Open _ _ _ _).
Qed.

(** C4 for block 258 = 0x0102 and the stand-in codec: the associated
    data, the block [doEncryptBlock] seals under them, and the same block
    opened under its own block number and under the next. *)
Lemma concatAD_layout_witness :
  let aData := [x00; x00; x00; x00; x00; x00; x01; x02] ++ replicate 16 x11 in
  let sealed := standin.nonce_a5
                ++ Seal (standin.aead [x07]) standin.nonce_a5 [x68; x69] aData in
  concatAD 258 (Some (replicate 16 x11)) = Ret aData
  ∧ len aData = 24
  ∧ doEncryptBlock standin.be [x68; x69] 258 (Some (replicate 16 x11)) standin.nonce_a5
    = Ret sealed
  ∧ DecryptBlock standin.be sealed 258 (Some (replicate 16 x11)) = Ret (Ok [x68; x69])
  ∧ DecryptBlock standin.be sealed 259 (Some (replicate 16 x11)) = Ret (Err ErrOpen).
Proof.
  intros aData sealed.
  pose proof (concatAD_layout 258 (replicate 16 x11)
                ltac:(lia) ltac:(reflexivity))
    as (H1 & H2 & _ & _ & _ & _ & Henc & _ & Hdec).
  split; [exact H1|]. split; [exact H2|]. split.
  - apply (Henc 1048576 4 (standin.cc [x07] 16) 4096 standin.be [x68; x69]
             standin.nonce_a5 standin_typed standin_New).
    + intros n p ad. apply (standin_correct [x07]).
    + reflexivity.
    + discriminate.
  - split.
    + rewrite (Hdec standin.be sealed).
      * vm_compute. reflexivity.
      * discriminate.
      * vm_compute. discriminate.
      * vm_compute. discriminate.
      * vm_compute. discriminate.
    + vm_compute. reflexivity.
Defined.

End associated_data.

(** ** KDF parameter floors *)

Section kdf.
Import configfile.

Lemma scrypt_validateParams_None (s : scrypt.ScryptKDF) :
  scrypt.validateParams s = None
  ↔ 2 ^ 10 ≤ scrypt.N s ∧ 8 ≤ scrypt.R s ∧ 1 ≤ scrypt.P s
    ∧ 32 ≤ len (scrypt.Salt s) ∧ 32 ≤ scrypt.KeyLen s.
Proof.
  unfold scrypt.validateParams, scrypt.scryptMinLogN, scrypt.scryptMinR,
    scrypt.scryptMinP, scrypt.scryptMinSaltLen, cryptocore.KeyLen.
  change (Z.shiftl 1 10) with 1024. change (2 ^ 10) with 1024.
  repeat (match goal with |- context [?a <? ?b] => destruct (Z.ltb_spec a b) end);
    split; try discriminate; try lia; done.
Qed.

Lemma argon2id_validateParams_None (a : argon2id.Argon2idKDF) :
  argon2id.validateParams a = None
  ↔ 16 * 1024 ≤ argon2id.Memory a ∧ 1 ≤ argon2id.Iterations a
    ∧ 1 ≤ argon2id.Parallelism a ∧ 16 ≤ len (argon2id.Salt a)
    ∧ 32 ≤ argon2id.KeyLen a.
Proof.
  unfold argon2id.validateParams, argon2id.Argon2idMinMemory,
    argon2id.Argon2idMinIterations, argon2id.Argon2idMinParallelism,
    argon2id.Argon2idMinSaltLen, cryptocore.KeyLen.
  repeat (match goal with |- context [?a <? ?b] => destruct (Z.ltb_spec a b) end);
    split; try discriminate; try lia; done.
Qed.

(** C6.  [validateParams] of [ScryptKDF] and of [Argon2idKDF] reports an
    error exactly when some parameter is below its floor, and [DeriveKey]
    then leaves through the weak-parameters exit instead of deriving a
    key: whenever it returns a key, the parameters had passed. *)
Theorem kdf_parameter_floors :
  (∀ s : scrypt.ScryptKDF,
     scrypt.validateParams s ≠ None
     ↔ scrypt.N s < 2 ^ 10 ∨ scrypt.R s < 8 ∨ scrypt.P s < 1
       ∨ len (scrypt.Salt s) < 32 ∨ scrypt.KeyLen s < 32)
  ∧ (∀ a : argon2id.Argon2idKDF,
       argon2id.validateParams a ≠ None
       ↔ argon2id.Memory a < 16 * 1024 ∨ argon2id.Iterations a < 1
         ∨ argon2id.Parallelism a < 1 ∨ len (argon2id.Salt a) < 16
         ∨ argon2id.KeyLen a < 32)
  ∧ (∀ ScryptParams Key (s : scrypt.ScryptKDF) pw,
       scrypt.validateParams s ≠ None →
       scrypt.DeriveKey ScryptParams Key s pw = Abort (Exit ScryptParams))
  ∧ (∀ ScryptParams IDKey (a : argon2id.Argon2idKDF) pw,
       argon2id.validateParams a ≠ None →
       argon2id.DeriveKey ScryptParams IDKey a pw = Abort (Exit ScryptParams))
  ∧ (∀ ScryptParams Key (s : scrypt.ScryptKDF) pw k,
       scrypt.DeriveKey ScryptParams Key s pw = Ret k →
       scrypt.validateParams s = None)
  ∧ (∀ ScryptParams IDKey (a : argon2id.Argon2idKDF) pw k,
       argon2id.DeriveKey ScryptParams IDKey a pw = Ret k →
       argon2id.validateParams a = None).
Proof.
  repeat split.
  - intros Hne. destruct (scrypt.validateParams s) eqn:Hv; [|done].
    assert (Hn : ¬ scrypt.validateParams s = None) by congruence.
    rewrite scrypt_validateParams_None in Hn. lia.
  - intros Hlow Hv. apply scrypt_validateParams_None in Hv. lia.
  - intros Hne. destruct (argon2id.validateParams a) eqn:Hv; [|done].
    assert (Hn : ¬ argon2id.validateParams a = None) by congruence.
    rewrite argon2id_validateParams_None in Hn. lia.
  - intros Hlow Hv. apply argon2id_validateParams_None in Hv. lia.
  - intros code Key s pw Hne. unfold scrypt.DeriveKey.
    by destruct (scrypt.validateParams s).
  - intros code IDKey a pw Hne. unfold argon2id.DeriveKey.
    by destruct (argon2id.validateParams a).
  - intros code Key s pw k. unfold scrypt.DeriveKey.
    by destruct (scrypt.validateParams s).
  - intros code IDKey a pw k. unfold argon2id.DeriveKey.
    by destruct (argon2id.validateParams a).
Qed.

(** C6 on a config with logN lowered to 9. *)
Lemma kdf_parameter_floors_witness :
  let weak := {| scrypt.Salt := replicate 32 x00; scrypt.N := 2 ^ 9;
                 scrypt.R := 8; scrypt.P := 1; scrypt.KeyLen := 32 |} in
  scrypt.validateParams weak ≠ None
  ∧ scrypt.DeriveKey 6 (λ _ _ _ _ _ _, Some []) weak [] = Abort (Exit 6).
Proof.
  intros weak.
  destruct kdf_parameter_floors as (Hs & _ & Hd & _).
  assert (Hw : scrypt.validateParams weak ≠ None).
  { apply Hs. left. vm_compute. reflexivity. }
  split; [exact Hw|]. by apply Hd.
Defined.

End kdf.

(** ** Worker count *)

Section worker_count.
Import parallelcrypto.

(** A significand of at most 53 bits is not rounded. *)
Lemma round53_exact a k :
  0 < a < 2 ^ 53 → 0 ≤ k → float64.round53 (a * 2 ^ k) = a * 2 ^ k.
Proof.
  intros Ha Hk. unfold float64.round53.
  rewrite Z.log2_mul_pow2 by lia.
  assert (Hl : Z.log2 a < 53) by (apply Z.log2_lt_pow2; lia).
  pose proof (Z.log2_nonneg a).
  destruct (Z.leb_spec (k + Z.log2 a + 1) 53) as [|Hbig]; [done|].
  set (sh := k + Z.log2 a + 1 - 53).
  assert (Hsh : 0 < sh ≤ k) by lia.
  assert (Hdiv : a * 2 ^ k = (a * 2 ^ (k - sh)) * 2 ^ sh).
  { rewrite <- Z.mul_assoc, <- Z.pow_add_r by lia. do 2 f_equal. lia. }
  assert (Hpos : 0 < 2 ^ sh) by (apply Z.pow_pos_nonneg; lia).
  assert (Hr : Z.land (a * 2 ^ k) (Z.ones sh) = 0).
  { rewrite Z.land_ones by lia. rewrite Hdiv. apply Z.mod_mul. lia. }
  rewrite Hr.
  assert (Hhalf : 0 < Z.shiftl 1 (sh - 1)).
  { rewrite Z.shiftl_mul_pow2 by lia. apply Z.mul_pos_pos; [lia|].
    apply Z.pow_pos_nonneg; lia. }
  destruct (Z.ltb_spec (Z.shiftl 1 (sh - 1)) 0); [lia|].
  destruct (Z.eqb_spec 0 (Z.shiftl 1 (sh - 1))); [lia|].
  cbn [orb andb].
  rewrite Z.shiftr_div_pow2, Z.shiftl_mul_pow2 by lia.
  rewrite Hdiv at 1. rewrite Z.div_mul by lia. by rewrite <- Hdiv.
Qed.

(** [int(float64(w) * 1.5)] is [3 * w / 2] while the product is exact. *)
Lemma scale_c1_5 w : 0 < w < 2 ^ 51 → float64.scale w float64.c1_5 = 3 * w / 2.
Proof.
  intros Hw. unfold float64.scale, float64.c1_5.
  assert (H1 : float64.round53 w = w).
  { rewrite <- (Z.mul_1_r w) at 1 2. apply (round53_exact w 0); lia. }
  rewrite H1.
  replace (w * 6755399441055744) with ((3 * w) * 2 ^ 51) by lia.
  rewrite round53_exact by lia.
  rewrite Z.shiftr_div_pow2 by lia.
  change (2 ^ 52) with (2 * 2 ^ 51).
  rewrite Z.div_mul_cancel_r by lia. done.
Qed.

(** Rounding never falls below the leading power of two. *)
Lemma round53_lower m : 0 < m → 2 ^ Z.log2 m ≤ float64.round53 m.
Proof.
  intros Hm. unfold float64.round53.
  pose proof (Z.log2_spec m Hm) as [Hlo Hhi].
  pose proof (Z.log2_nonneg m).
  destruct (Z.leb_spec (Z.log2 m + 1) 53) as [|Hbig]; [done|].
  set (sh := Z.log2 m + 1 - 53).
  assert (Hsh : 0 < sh) by lia.
  assert (Hpos : 0 < 2 ^ sh) by (apply Z.pow_pos_nonneg; lia).
  assert (Hsplit : 2 ^ Z.log2 m = 2 ^ 52 * 2 ^ sh).
  { rewrite <- Z.pow_add_r by lia. f_equal. lia. }
  rewrite Z.shiftr_div_pow2, Z.shiftl_mul_pow2 by lia.
  assert (Hq : 2 ^ 52 ≤ m / 2 ^ sh).
  { apply Z.div_le_lower_bound; lia. }
  set (q := m / 2 ^ sh) in *.
  assert (Hq' : q ≤ (if (Z.shiftl 1 (sh - 1) <? Z.land m (Z.ones sh))
                        || (Z.land m (Z.ones sh) =? Z.shiftl 1 (sh - 1)) && Z.odd q
                     then q + 1 else q)).
  { destruct (_ || _); lia. }
  rewrite Hsplit. nia.
Qed.

Lemma scale_lower w c k :
  0 ≤ k → 2 ^ k ≤ w → 2 ^ 52 ≤ c → 2 ^ k ≤ float64.scale w c.
Proof.
  intros Hk Hw Hc. unfold float64.scale.
  assert (H2k : 0 < 2 ^ k) by (apply Z.pow_pos_nonneg; lia).
  assert (Hx : 2 ^ k ≤ float64.round53 w).
  { pose proof (round53_lower w ltac:(lia)).
    assert (k ≤ Z.log2 w) by (apply Z.log2_le_pow2; lia).
    assert (2 ^ k ≤ 2 ^ Z.log2 w) by (apply Z.pow_le_mono_r; lia). lia. }
  set (x := float64.round53 w) in *.
  assert (Hp : 2 ^ (k + 52) ≤ x * c).
  { rewrite Z.pow_add_r by lia. apply Z.mul_le_mono_nonneg; lia. }
  assert (H2p : 0 < 2 ^ (k + 52)) by (apply Z.pow_pos_nonneg; lia).
  assert (Hl : k + 52 ≤ Z.log2 (x * c)) by (apply Z.log2_le_pow2; lia).
  pose proof (round53_lower (x * c) ltac:(lia)) as Hr.
  assert (2 ^ (k + 52) ≤ 2 ^ Z.log2 (x * c)) by (apply Z.pow_le_mono_r; lia).
  rewrite Z.shiftr_div_pow2 by lia.
  apply Z.div_le_lower_bound; [lia|].
  rewrite <- Z.pow_add_r by lia. rewrite (Z.add_comm 52). lia.
Qed.

Lemma scale_pos w c : 1 ≤ w → 2 ^ 52 ≤ c → 1 ≤ float64.scale w c.
Proof. intros. apply (scale_lower w c 0); lia. Qed.

Import parallelcrypto.

(** Beyond the exact range both sides are capped by 16 anyway. *)
Lemma min_scaled (c : Z) :
  2 ≤ c → Z.min 16 (float64.scale c float64.c1_5) = Z.min 16 (3 * c / 2).
Proof.
  intros Hc. destruct (Z.lt_ge_cases c (2 ^ 51)) as [Hlt|Hge].
  - by rewrite scale_c1_5 by lia.
  - assert (2 ^ 4 ≤ float64.scale c float64.c1_5).
    { apply scale_lower; [lia | lia | unfold float64.c1_5; lia]. }
    assert (16 ≤ 3 * c / 2) by (apply Z.div_le_lower_bound; lia).
    lia.
Qed.

(** C7, amended.  For an enabled instance on at least two CPUs and a block
    count at or above the threshold, the worker count is the minimum of
    [MaxParallelWorkers] = 16, the block count, and the CPU count after
    the feature adjustment (one and a half times the count, rounded down,
    for the instances [New] builds); the driver without feature flags
    takes the plain CPU count and caps at 8.  [float64.fits] keeps the
    count where the conversion back to [int] is defined. *)
Theorem worker_count_formula :
  (∀ (pc : ParallelCrypto) (blockCount : Z),
     enabled pc = true →
     2 ≤ cpuCount pc →
     float64.fits (cpuCount pc) →
     ParallelThreshold ≤ blockCount →
     GetOptimalWorkerCount pc blockCount
     = Z.min MaxParallelWorkers (Z.min (scaledCPUs pc) blockCount)
     ∧ MaxParallelWorkers = 16)
  ∧ (∀ (numCPU : Z) (pc : parallelcrypto_plain.ParallelCrypto) (blockCount : Z),
       parallelcrypto_plain.enabled pc = true →
       2 ≤ numCPU →
       parallelcrypto_plain.ParallelThreshold ≤ blockCount →
       parallelcrypto_plain.GetOptimalWorkerCount numCPU pc blockCount
       = Z.min parallelcrypto_plain.MaxParallelWorkers (Z.min numCPU blockCount)
       ∧ parallelcrypto_plain.MaxParallelWorkers = 8).
Proof.
  split.
  - intros pc blockCount He Hc _ Hb. split; [|done].
    unfold GetOptimalWorkerCount, scaledCPUs, ParallelThreshold,
      MinParallelWorkers, MaxParallelWorkers in *.
    rewrite He. cbn [negb].
    destruct (Z.ltb_spec blockCount 4); [lia|].
    destruct (Z.ltb_spec (cpuCount pc) 2); [lia|].
    pose proof (min_scaled (cpuCount pc) Hc) as Hmin.
    destruct (hasAVX2 pc && hasAES pc).
    + set (w := float64.scale _ _) in *. set (w' := 3 * cpuCount pc / 2) in *.
      destruct (Z.gtb_spec w 16);
        [destruct (Z.gtb_spec 16 blockCount) | destruct (Z.gtb_spec w blockCount)]; lia.
    + set (w := if hasAVX pc then _ else _).
      destruct (Z.gtb_spec w 16);
        [destruct (Z.gtb_spec 16 blockCount) | destruct (Z.gtb_spec w blockCount)]; lia.
  - intros numCPU pc blockCount He Hc Hb. split; [|done].
    unfold parallelcrypto_plain.GetOptimalWorkerCount,
      parallelcrypto_plain.ParallelThreshold,
      parallelcrypto_plain.MinParallelWorkers,
      parallelcrypto_plain.MaxParallelWorkers in *.
    rewrite He. cbn [negb].
    destruct (Z.ltb_spec blockCount 8); [lia|].
    destruct (Z.ltb_spec numCPU 2); [lia|].
    destruct (Z.gtb_spec numCPU 8);
      [destruct (Z.gtb_spec 8 blockCount) | destruct (Z.gtb_spec numCPU blockCount)]; lia.
Qed.

(** C7, amended, on four CPUs and 100 blocks. *)
Lemma worker_count_formula_witness :
  GetOptimalWorkerCount (New 4) 100 = 6
  ∧ parallelcrypto_plain.GetOptimalWorkerCount 4 parallelcrypto_plain.New 100 = 4.
Proof.
  destruct worker_count_formula as [H1 H2]. split.
  - apply (H1 (New 4) 100);
      [reflexivity | cbn; lia | unfold float64.fits; cbn; lia
      | unfold ParallelThreshold; lia].
  - apply (H2 4 parallelcrypto_plain.New 100);
      [reflexivity | lia | unfold parallelcrypto_plain.ParallelThreshold; lia].
Defined.

(** C7 as stated fails: on four CPUs the driver starts six workers for 100
    blocks, more than min(16, 4, 100). *)
Lemma worker_count_exceeds_cpus :
  enabled (New 4) = true
  ∧ 2 ≤ cpuCount (New 4)
  ∧ ParallelThreshold ≤ 100
  ∧ MaxParallelWorkers ≤ 16
  ∧ GetOptimalWorkerCount (New 4) 100 = 6
  ∧ Z.min MaxParallelWorkers (Z.min (cpuCount (New 4)) 100) = 4.
Proof. repeat split; vm_compute; congruence. Qed.

End worker_count.

(** ** Shards *)

Section shards.
Import cryptocore contentenc parallelcrypto.

(** The worker count is positive and at most the block count, so the
    division in [ProcessBlocksParallel] never panics and no shard is
    empty. *)
Lemma GetOptimalWorkerCount_bounds (pc : ParallelCrypto) blockCount :
  1 ≤ blockCount →
  1 ≤ GetOptimalWorkerCount pc blockCount ≤ blockCount.
Proof.
  intros Hb. unfold GetOptimalWorkerCount, ParallelThreshold, MinParallelWorkers,
    MaxParallelWorkers.
  destruct (negb (enabled pc)); [lia|].
  destruct (Z.ltb_spec blockCount 4); [lia|].
  destruct (Z.ltb_spec (cpuCount pc) 2); [lia|].
  assert (Hw : 1 ≤ (if hasAVX2 pc && hasAES pc
                    then float64.scale (cpuCount pc) float64.c1_5
                    else if hasAVX pc then float64.scale (cpuCount pc) float64.c1_2
                    else cpuCount pc)).
  { destruct (hasAVX2 pc && hasAES pc); [|destruct (hasAVX pc)];
      [apply scale_pos | apply scale_pos |]; unfold float64.c1_5, float64.c1_2; lia. }
  set (w := if hasAVX2 pc && hasAES pc then _ else _) in *.
  destruct (Z.gtb_spec w 16);
    [destruct (Z.gtb_spec 16 blockCount) | destruct (Z.gtb_spec w blockCount)]; lia.
Qed.

Lemma workerRange_last blockCount workers groupSize :
  workerRange blockCount workers groupSize (workers - 1)
  = ((workers - 1) * groupSize, blockCount).
Proof. unfold workerRange. by rewrite Z.eqb_refl. Qed.

Lemma workerRange_inner blockCount workers groupSize a :
  a ≠ workers - 1 →
  workerRange blockCount workers groupSize a = (a * groupSize, (a + 1) * groupSize).
Proof. intros. unfold workerRange. by destruct (Z.eqb_spec a (workers - 1)). Qed.

(** The ranges of workers [a], [a + 1], ..., [workers - 1] tile the blocks
    from [a * groupSize] on. *)
Lemma tiles_workers blockCount workers groupSize (n : nat) (a : Z) :
  1 ≤ groupSize →
  workers * groupSize ≤ blockCount →
  0 ≤ a →
  a + Z.of_nat n = workers - 1 →
  tiles (workerRange blockCount workers groupSize <$> seqZ a (Z.of_nat (S n)))
        (a * groupSize) blockCount.
Proof.
  intros Hg Hw. revert a. induction n as [|n IH]; intros a Ha Han.
  - rewrite seqZ_cons by lia. rewrite seqZ_nil by lia. cbn [fmap list_fmap tiles].
    replace a with (workers - 1) by lia. rewrite workerRange_last. cbn [fst snd].
    split; [done|]. split; [nia|done].
  - rewrite seqZ_cons by lia. cbn [fmap list_fmap tiles].
    replace (Z.pred (Z.of_nat (S (S n)))) with (Z.of_nat (S n)) by lia.
    rewrite workerRange_inner by lia. cbn [fst snd].
    split; [done|]. split; [nia|].
    replace ((a + 1) * groupSize) with (Z.succ a * groupSize) by lia.
    apply IH; lia.
Qed.

(** Walking tiled ranges in order visits [lo], ..., [hi - 1] once each. *)
Lemma tiles_concat calls lo hi :
  tiles calls lo hi → lo ≤ hi ∧ concat (indices <$> calls) = seqZ lo (hi - lo).
Proof.
  revert lo. induction calls as [|[s e] calls IH]; intros lo; cbn [tiles fst snd].
  - intros ->. split; [lia|]. by rewrite Z.sub_diag.
  - intros (-> & Hlt & Hrest). destruct (IH _ Hrest) as [Hle Hc].
    split; [lia|]. cbn [fmap list_fmap concat]. unfold indices at 1. cbn [fst snd].
    fold (fmap (M:=list) indices calls). rewrite Hc.
    replace (hi - lo) with ((e - lo) + (hi - e)) by lia.
    rewrite seqZ_app by lia. do 2 f_equal. lia.
Qed.

Lemma tiles_lookup_ge calls lo hi (k : nat) c :
  tiles calls lo hi → calls !! k = Some c → lo ≤ c.1 ∧ c.1 < c.2.
Proof.
  revert lo k. induction calls as [|c0 calls IH]; intros lo k; [done|].
  cbn [tiles]. intros (H1 & H2 & Hrest). destruct k as [|k]; cbn.
  - intros [= <-]. lia.
  - intros Hk. destruct (IH _ _ Hrest Hk). lia.
Qed.

Lemma tiles_disjoint calls lo hi : tiles calls lo hi → pairwise_disjoint calls.
Proof.
  revert lo. induction calls as [|c0 calls IH]; intros lo; [by intros ? ? ? ? ? ?|].
  cbn [tiles]. intros (H1 & H2 & Hrest) j k c c' Hjk Hj Hk.
  destruct k as [|k]; [lia|]. cbn in Hk. destruct j as [|j]; cbn in Hj.
  - injection Hj as <-. destruct (tiles_lookup_ge _ _ _ _ _ Hrest Hk). lia.
  - eapply (IH _ Hrest j k); [lia|done..].
Qed.

End shards.

(** ** Schedules of the worker closure *)

Section schedules.
Import cryptocore contentenc parallelcrypto.

Lemma ProcessBlocksParallel_tiles (pc : ParallelCrypto) blockCount :
  1 ≤ blockCount →
  ∃ d, ProcessBlocksParallel pc blockCount = Ret d
       ∧ tiles (calls_of d) 0 blockCount.
Proof.
  intros Hb. unfold ProcessBlocksParallel.
  destruct (negb (ShouldUseParallel pc blockCount)).
  { eexists. split; [done|]. cbn. lia. }
  pose proof (GetOptimalWorkerCount_bounds pc blockCount Hb) as Hw.
  set (w := GetOptimalWorkerCount pc blockCount) in *.
  destruct (Z.eqb_spec w 0); [lia|].
  eexists. split; [done|]. cbn [calls_of].
  rewrite Z.quot_div_nonneg by lia.
  replace w with (Z.of_nat (S (Z.to_nat (w - 1)))) at 3 by lia.
  apply (tiles_workers blockCount w (blockCount / w) (Z.to_nat (w - 1)) 0).
  - apply Z.div_le_lower_bound; lia.
  - apply Z.mul_div_le. lia.
  - lia.
  - lia.
Qed.

Lemma concat_nil_Forall {A} (threads : list (list A)) :
  Forall (λ t, t = []) threads → concat threads = [].
Proof. induction 1 as [|t threads -> _ IH]; [done|]. done. Qed.

(** An interleaving runs every step of every thread exactly once. *)
Lemma interleaving_Permutation {A} (threads : list (list A)) (s : list A) :
  interleaving threads s → s ≡ₚ concat threads.
Proof.
  induction 1 as [threads Hnil | threads k x t rest Hk _ IH].
  - by rewrite concat_nil_Forall.
  - rewrite IH. rewrite insert_take_drop by (by eapply lookup_lt_Some).
    rewrite <- (take_drop_middle threads k (x :: t)) at 3 by done.
    rewrite !concat_app. cbn [concat]. rewrite <- !app_comm_cons.
    by rewrite Permutation_middle.
Qed.

Lemma schedule_of_Permutation d sched blockCount :
  tiles (calls_of d) 0 blockCount →
  schedule_of d sched →
  sched ≡ₚ seqZ 0 blockCount.
Proof.
  intros Ht Hs. destruct (tiles_concat _ _ _ Ht) as [_ Hc].
  rewrite Z.sub_0_r in Hc. rewrite <- Hc.
  destruct d as [calls|calls]; cbn in *.
  - by rewrite Hs.
  - by apply interleaving_Permutation.
Qed.

Section blockStep.
Variables (be : ContentEnc) (cipherBlocks : list bytes) (firstBlockNo : Z)
  (fileID : option bytes) (plains : list bytes).
Hypothesis Hcb : length cipherBlocks = length plains.
Hypothesis Hok : ∀ (j : nat) p,
  plains !! j = Some p →
  DecryptBlock be (default [] (cipherBlocks !! j))
    (wrap64 (firstBlockNo + wrap64 (Z.of_nat j))) fileID = Ret (Ok p).

(** A loop body whose block decrypts stores the plaintext at its index
    and leaves the error alone. *)
Lemma blockStep_ok st i p :
  0 ≤ i < Z.of_nat (length plains) →
  plains !! Z.to_nat i = Some p →
  blockStep be cipherBlocks firstBlockNo fileID st i
  = Ret {| plainBlocks := <[Z.to_nat i := p]> (plainBlocks st);
           decryptErr := decryptErr st |}.
Proof.
  intros Hi Hp. unfold blockStep.
  destruct (Z.ltb_spec i 0); [lia|].
  destruct (Z.leb_spec (len cipherBlocks) i) as [Hle|_].
  { unfold len in Hle. lia. }
  cbn [orb].
  replace (wrap64 i) with (wrap64 (Z.of_nat (Z.to_nat i))) by (f_equal; lia).
  rewrite (Hok _ _ Hp). cbn [mbind outcome_bind]. by destruct (decryptErr st).
Qed.

(** After any run over valid indices, the slots of the indices that ran
    hold their plaintexts and the others are untouched. *)
Lemma runSteps_ok sched st :
  length (plainBlocks st) = length plains →
  Forall (λ i, 0 ≤ i < Z.of_nat (length plains)) sched →
  ∃ st', runSteps (blockStep be cipherBlocks firstBlockNo fileID) sched st = Ret st'
    ∧ decryptErr st' = decryptErr st
    ∧ length (plainBlocks st') = length plains
    ∧ ∀ j : nat, plainBlocks st' !! j
                 = if bool_decide (Z.of_nat j ∈ sched) then plains !! j
                   else plainBlocks st !! j.
Proof.
  revert st. induction sched as [|i rest IH]; intros st Hlen Hall.
  - exists st. split; [done|]. split; [done|]. split; [done|]. intros j.
    rewrite bool_decide_eq_false_2; [done|]. apply not_elem_of_nil.
  - apply Forall_cons in Hall as [Hi Hrest].
    cbn [runSteps].
    destruct (lookup_lt_is_Some_2 plains (Z.to_nat i) ltac:(lia)) as [p Hp].
    rewrite (blockStep_ok st i p Hi Hp). cbn [mbind outcome_bind].
    set (st1 := {| decryptErr := _; plainBlocks := _ |}).
    destruct (IH st1) as (st' & Hrun & Herr & Hl' & Hlk).
    { subst st1. cbn. by rewrite length_insert. }
    { done. }
    exists st'. split; [done|]. split; [by rewrite Herr|].
    split; [done|]. intros j. rewrite Hlk.
    destruct (decide (Z.of_nat j ∈ rest)) as [Hin|Hnin].
    + rewrite !bool_decide_eq_true_2; [done| |done]. by apply list_elem_of_further.
    + rewrite (bool_decide_eq_false_2 _ Hnin). subst st1. cbn [plainBlocks].
      destruct (decide (j = Z.to_nat i)) as [->|Hne].
      * rewrite list_lookup_insert_eq by lia.
        rewrite bool_decide_eq_true_2; [done|].
        apply elem_of_cons. left. lia.
      * rewrite list_lookup_insert_ne by done.
        rewrite bool_decide_eq_false_2; [done|].
        intros [Heq|?]%elem_of_cons; [lia|done].
Qed.

(** After a run that visits every index once, in any order, the slots
    hold the plaintexts in index order. *)
Lemma runSteps_all sched :
  sched ≡ₚ seqZ 0 (Z.of_nat (length plains)) →
  runSteps (blockStep be cipherBlocks firstBlockNo fileID) sched
    {| plainBlocks := replicate (length plains) []; decryptErr := None |}
  = Ret {| plainBlocks := plains; decryptErr := None |}.
Proof.
  intros Hperm.
  destruct (runSteps_ok sched
              {| plainBlocks := replicate (length plains) []; decryptErr := None |})
    as ([pb err] & Hrun & Herr & Hl & Hlk).
  { cbn. apply length_replicate. }
  { rewrite Hperm. apply Forall_seqZ. lia. }
  rewrite Hrun. cbn in *. subst err. do 2 f_equal.
  apply list_eq. intros j. rewrite Hlk.
  destruct (decide (j < length plains)%nat).
  - rewrite bool_decide_eq_true_2; [done|]. rewrite Hperm. apply elem_of_seqZ. lia.
  - rewrite bool_decide_eq_false_2.
    + rewrite !lookup_ge_None_2; [done| lia |]. rewrite length_replicate. lia.
    + rewrite Hperm, elem_of_seqZ. lia.
Qed.
End blockStep.

End schedules.

(** ** Groups of blocks *)

Section block_groups.
Import cryptocore contentenc parallelcrypto.

Lemma int_of_uint64_small v : 0 ≤ v < 2 ^ 63 → int_of_uint64 v = v.
Proof. intros. unfold int_of_uint64. destruct (Z.ltb_spec v (2 ^ 63)); lia. Qed.

Lemma splitBlocks_lookup be ct blockCount (j : nat) :
  Z.of_nat j < blockCount →
  splitBlocks be ct blockCount !! j = Some (cipherBlock be ct (Z.of_nat j)).
Proof.
  intros Hj. unfold splitBlocks, cipherBlock.
  rewrite list_lookup_fmap, lookup_seqZ_lt by done. cbn [fmap option_fmap option_map].
  rewrite Z.add_0_l. do 2 f_equal. lia.
Qed.

Lemma length_splitBlocks be ct blockCount :
  length (splitBlocks be ct blockCount) = Z.to_nat blockCount.
Proof. unfold splitBlocks. by rewrite length_fmap, length_seqZ. Qed.

Lemma wrap64_add_wrap64 a b : wrap64 (a + wrap64 b) = wrap64 (a + b).
Proof. unfold wrap64. apply Zplus_mod_idemp_r. Qed.

(** C8.  The ranges [ProcessBlocksParallel] starts the worker function on
    are non-empty, laid end to end from 0 to [blockCount] and pairwise
    disjoint, so that walking them in order visits every index once; and
    whatever order the goroutines run in, [DecryptBlocks] returns the
    blocks' plaintexts concatenated in block-number order. *)
Theorem shards_tile_and_keep_block_order :
  (∀ (pc : ParallelCrypto) (blockCount : Z),
     float64.fits (cpuCount pc) →
     1 ≤ blockCount →
     ∃ d, ProcessBlocksParallel pc blockCount = Ret d
          ∧ tiles (calls_of d) 0 blockCount
          ∧ pairwise_disjoint (calls_of d)
          ∧ concat (indices <$> calls_of d) = seqZ 0 blockCount)
  ∧ (∀ MAX numCPU cc pbs be sched ciphertext firstBlockNo fileID blockCount d plains,
       typed MAX cc pbs →
       float64.fits numCPU →
       contentenc.New MAX numCPU cc pbs = Ret be →
       blockCount = len ciphertext `quot` cipherBS be →
       ShouldUseParallel (parallelCrypto be) blockCount = true →
       ProcessBlocksParallel (parallelCrypto be) blockCount = Ret d →
       schedule_of d sched →
       Forall2 (λ i p, DecryptBlock be (cipherBlock be ciphertext i)
                         (wrap64 (firstBlockNo + i)) fileID = Ret (Ok p))
               (seqZ 0 blockCount) plains →
       DecryptBlocks be sched ciphertext firstBlockNo fileID
       = Ret (concat plains, None)).
Proof.
  split.
  - intros pc blockCount _ Hb.
    destruct (ProcessBlocksParallel_tiles pc blockCount Hb) as (d & Hd & Ht).
    exists d. split; [done|]. split; [done|]. split.
    + by eapply tiles_disjoint.
    + destruct (tiles_concat _ _ _ Ht) as [_ Hc]. by rewrite Z.sub_0_r in Hc.
  - intros MAX numCPU cc pbs be sched ct first F blockCount d plains
      Ht _ HN Hbc Hpar Hd Hsched Hall.
    destruct (New_inv _ _ _ _ _ Ht HN) as (Hbe & Hp & Hiv).
    destruct Ht as (HM & Hpr & Hivr).
    assert (Hcs : 0 < cipherBS be < 2 ^ 63).
    { rewrite Hbe. cbn [cipherBS]. unfold AuthTagLen. lia. }
    assert (Hb4 : 4 ≤ blockCount).
    { revert Hpar. unfold ShouldUseParallel, ParallelThreshold.
      destruct (negb _); [done|]. destruct (_ <? _); [done|].
      destruct (Z.geb_spec blockCount 4); [lia|done]. }
    unfold DecryptBlocks. rewrite int_of_uint64_small by lia.
    destruct (Z.eqb_spec (cipherBS be) 0); [lia|].
    rewrite <- Hbc. destruct (Z.eqb_spec blockCount 0); [lia|].
    rewrite Hpar. unfold decryptBlocksParallel. rewrite Hd. cbn [mbind outcome_bind].
    destruct (ProcessBlocksParallel_tiles (parallelCrypto be) blockCount ltac:(lia))
      as (d' & Hd' & Htiles).
    rewrite Hd in Hd'. injection Hd' as <-.
    pose proof (schedule_of_Permutation _ _ _ Htiles Hsched) as Hperm.
    pose proof (Forall2_length _ _ _ Hall) as Hlen. rewrite length_seqZ in Hlen.
    assert (Hrun : runDispatch d sched
                     (blockStep be (splitBlocks be ct blockCount) first F)
                     {| plainBlocks := replicate (Z.to_nat blockCount) [];
                        decryptErr := None |}
                   = Ret {| plainBlocks := plains; decryptErr := None |}).
    { assert (Hrs : runDispatch d sched
                      (blockStep be (splitBlocks be ct blockCount) first F)
                    = runSteps (blockStep be (splitBlocks be ct blockCount) first F) sched).
      { destruct d; cbn in *; [by rewrite Hsched|done]. }
      rewrite Hrs, Hlen. apply runSteps_all.
      - by rewrite length_splitBlocks.
      - intros j p Hj.
        assert (Hjlt : Z.of_nat j < blockCount).
        { apply lookup_lt_Some in Hj. lia. }
        rewrite splitBlocks_lookup by done. cbn [from_option].
        rewrite wrap64_add_wrap64.
        apply (Forall2_lookup_lr _ _ _ j _ _ Hall); [|done].
        rewrite lookup_seqZ_lt by done. by rewrite Z.add_0_l.
      - rewrite <- Hlen. by rewrite Z2Nat.id by lia. }
    rewrite Hrun. done.
Qed.

Ltac interleave k :=
  eapply (interleaving_step _ k); [reflexivity|]; cbn.

(** C8 on eight blocks and four CPUs: six shards, run out of order. *)
Lemma shards_tile_and_keep_block_order_witness :
  (∃ d, ProcessBlocksParallel (parallelcrypto.New 4) 8 = Ret d
        ∧ calls_of d = [(0, 1); (1, 2); (2, 3); (3, 4); (4, 5); (5, 8)])
  ∧ DecryptBlocks standin.be_small [5; 0; 6; 3; 1; 7; 2; 4] standin.group_cipher 10 None
    = Ret (concat standin.group_plain, None).
Proof.
  destruct shards_tile_and_keep_block_order as [H1 H2]. split.
  - destruct (H1 (parallelcrypto.New 4) 8 ltac:(unfold float64.fits; cbn; lia)
                ltac:(lia)) as (d & Hd & _).
    exists d. split; [exact Hd|].
    vm_compute in Hd. injection Hd as <-. reflexivity.
  - apply (H2 1048576 4 (standin.cc [x07] 2) 4 standin.be_small
             [5; 0; 6; 3; 1; 7; 2; 4] standin.group_cipher 10 None 8
             (Goroutines [(0, 1); (1, 2); (2, 3); (3, 4); (4, 5); (5, 8)])
             standin.group_plain).
    + unfold typed. cbn. lia.
    + unfold float64.fits. lia.
    + reflexivity.
    + reflexivity.
    + reflexivity.
    + reflexivity.
    + cbn. interleave 5%nat. interleave 0%nat. interleave 5%nat. interleave 3%nat.
      interleave 1%nat. interleave 5%nat. interleave 2%nat. interleave 4%nat.
      apply interleaving_done. repeat constructor.
    + repeat constructor; vm_compute; reflexivity.
Defined.

End block_groups.

(** ** base64: one quantum *)

Section base64_arith.
Import base64.

Lemma byte_of_Z_eq z b : z mod 256 = Z_of_byte b → byte_of_Z z = b.
Proof.
  intros Hz. rewrite <- (byte_of_Z_of_byte b), <- Hz.
  unfold byte_of_Z. by rewrite Z.mod_mod.
Qed.

Lemma lor_add_disjoint a b n :
  0 ≤ n → a mod 2 ^ n = 0 → 0 ≤ b < 2 ^ n → Z.lor a b = a + b.
Proof.
  intros Hn Ha Hb.
  assert (H2 : 0 < 2 ^ n) by (apply Z.pow_pos_nonneg; lia).
  rewrite (Z.div_mod a (2 ^ n)) by lia. rewrite Ha, Z.add_0_r.
  rewrite (Z.mul_comm (2 ^ n)). by apply lor_mul_pow2_add.
Qed.

Lemma land_63 x : Z.land x 63 = x mod 64.
Proof. change 63 with (Z.ones 6). by rewrite Z.land_ones. Qed.

Lemma sextet_range x : 0 ≤ Z.land x 63 < 64.
Proof. rewrite land_63. apply Z.mod_pos_bound. lia. Qed.

Lemma encode_decode_nat (n : nat) :
  (n < 64)%nat →
  decodeMap (encode (Z.of_nat n)) = Some (Z.of_nat n)
  ∧ encode (Z.of_nat n) ≠ x2e.
Proof.
  intros Hn.
  do 64 (destruct n as [|n]; [split; [vm_compute; reflexivity | vm_compute; discriminate]|]).
  lia.
Qed.

Lemma decodeMap_encode v : 0 ≤ v < 64 → decodeMap (encode v) = Some v.
Proof.
  intros Hv. rewrite <- (Z2Nat.id v) by lia. apply encode_decode_nat. lia.
Qed.

Lemma encode_not_sep v : 0 ≤ v < 64 → encode v ≠ x2e.
Proof.
  intros Hv. rewrite <- (Z2Nat.id v) by lia. apply encode_decode_nat. lia.
Qed.

Lemma val2 x0 x1 :
  0 ≤ x0 < 256 → 0 ≤ x1 < 256 →
  Z.lor (Z.shiftl x0 16) (Z.shiftl x1 8) = x0 * 65536 + x1 * 256.
Proof.
  intros. rewrite !Z.shiftl_mul_pow2 by lia.
  rewrite (lor_add_disjoint (x0 * 2 ^ 16) (x1 * 2 ^ 8) 16);
    [lia | lia | apply Z.mod_mul; lia | lia].
Qed.

Lemma val3 x0 x1 x2 :
  0 ≤ x0 < 256 → 0 ≤ x1 < 256 → 0 ≤ x2 < 256 →
  Z.lor (Z.lor (Z.shiftl x0 16) (Z.shiftl x1 8)) x2 = x0 * 65536 + x1 * 256 + x2.
Proof.
  intros. rewrite val2 by done.
  rewrite (lor_add_disjoint (x0 * 65536 + x1 * 256) x2 8); [lia | lia | | lia].
  replace (x0 * 65536 + x1 * 256) with ((x0 * 256 + x1) * 2 ^ 8) by lia.
  apply Z.mod_mul. lia.
Qed.

Lemma dec4 s0 s1 s2 s3 :
  0 ≤ s0 < 64 → 0 ≤ s1 < 64 → 0 ≤ s2 < 64 → 0 ≤ s3 < 64 →
  Z.lor (Z.lor (Z.lor (Z.shiftl s0 18) (Z.shiftl s1 12)) (Z.shiftl s2 6)) s3
  = s0 * 262144 + s1 * 4096 + s2 * 64 + s3.
Proof.
  intros. rewrite !Z.shiftl_mul_pow2 by lia.
  rewrite (lor_add_disjoint (s0 * 2 ^ 18) (s1 * 2 ^ 12) 18);
    [| lia | apply Z.mod_mul; lia | lia].
  rewrite (lor_add_disjoint (s0 * 2 ^ 18 + s1 * 2 ^ 12) (s2 * 2 ^ 6) 12);
    [| lia | | lia].
  2: { replace (s0 * 2 ^ 18 + s1 * 2 ^ 12) with ((s0 * 2 ^ 6 + s1) * 2 ^ 12) by lia.
       apply Z.mod_mul. lia. }
  rewrite (lor_add_disjoint (s0 * 2 ^ 18 + s1 * 2 ^ 12 + s2 * 2 ^ 6) s3 6);
    [lia | lia | | lia].
  replace (s0 * 2 ^ 18 + s1 * 2 ^ 12 + s2 * 2 ^ 6)
    with ((s0 * 2 ^ 12 + s1 * 2 ^ 6 + s2) * 2 ^ 6) by lia.
  apply Z.mod_mul. lia.
Qed.

Ltac sextets :=
  rewrite ?land_63, ?Z.shiftr_div_pow2 by lia;
  change (2 ^ 18) with 262144; change (2 ^ 16) with 65536;
  change (2 ^ 12) with 4096; change (2 ^ 8) with 256; change (2 ^ 6) with 64.

(** Three bytes, cut into four six-bit values and put together again. *)
Lemma quantum_full b0 b1 b2 :
  let val := Z.lor (Z.lor (Z.shiftl (Z_of_byte b0) 16) (Z.shiftl (Z_of_byte b1) 8))
                   (Z_of_byte b2) in
  quantumBytes [ Z.land (Z.shiftr val 18) 63; Z.land (Z.shiftr val 12) 63;
                 Z.land (Z.shiftr val 6) 63; Z.land val 63 ] 4
  = [b0; b1; b2].
Proof.
  intros val. unfold quantumBytes. cbn [lookup list_lookup from_option id take Nat.sub].
  pose proof (Z_of_byte_range b0). pose proof (Z_of_byte_range b1).
  pose proof (Z_of_byte_range b2).
  rewrite dec4 by apply sextet_range.
  subst val. rewrite val3 by done. sextets.
  repeat f_equal; apply byte_of_Z_eq; Z.to_euclidean_division_equations; lia.
Qed.

Lemma quantum_two b0 b1 :
  let val := Z.lor (Z.shiftl (Z_of_byte b0) 16) (Z.shiftl (Z_of_byte b1) 8) in
  quantumBytes [ Z.land (Z.shiftr val 18) 63; Z.land (Z.shiftr val 12) 63;
                 Z.land (Z.shiftr val 6) 63 ] 3
  = [b0; b1].
Proof.
  intros val. unfold quantumBytes. cbn [lookup list_lookup from_option id take Nat.sub].
  pose proof (Z_of_byte_range b0). pose proof (Z_of_byte_range b1).
  rewrite dec4 by (try apply sextet_range; lia).
  subst val. rewrite val2 by done. sextets.
  repeat f_equal; apply byte_of_Z_eq; Z.to_euclidean_division_equations; lia.
Qed.

Lemma quantum_one b0 :
  let val := Z.shiftl (Z_of_byte b0) 16 in
  quantumBytes [ Z.land (Z.shiftr val 18) 63; Z.land (Z.shiftr val 12) 63 ] 2
  = [b0].
Proof.
  intros val. unfold quantumBytes. cbn [lookup list_lookup from_option id take Nat.sub].
  pose proof (Z_of_byte_range b0).
  rewrite dec4 by (try apply sextet_range; lia).
  subst val. rewrite Z.shiftl_mul_pow2 by lia. sextets.
  repeat f_equal; apply byte_of_Z_eq; Z.to_euclidean_division_equations; lia.
Qed.

End base64_arith.

(** ** base64: decoding inverts encoding *)

Section base64_roundtrip.
Import base64.

(** Induction in steps of three, as [EncodeToString] recurses. *)
Lemma list_ind3 {A} (P : list A → Prop) :
  P [] → (∀ a, P [a]) → (∀ a b, P [a; b]) →
  (∀ a b c l, P l → P (a :: b :: c :: l)) →
  ∀ l, P l.
Proof.
  intros H0 H1 H2 H3 l.
  assert (H : P l ∧ (∀ a, P (a :: l)) ∧ (∀ a b, P (a :: b :: l))).
  { induction l as [|x l (IH0 & IH1 & IH2)]; [by auto|].
    split; [apply IH1|]. split; [intros a; apply IH2|].
    intros a b. by apply H3. }
  apply H.
Qed.

Lemma decodeLoop_char v tail dbuf dst :
  0 ≤ v < 64 →
  decodeLoop (encode v :: tail) dbuf dst
  = if bool_decide (length (dbuf ++ [v]) = 4%nat)
    then decodeLoop tail [] (dst ++ quantumBytes (dbuf ++ [v]) 4)
    else decodeLoop tail (dbuf ++ [v]) dst.
Proof. intros Hv. cbn [decodeLoop]. by rewrite decodeMap_encode. Qed.

Lemma decodeLoop_quantum s0 s1 s2 s3 tail dst :
  0 ≤ s0 < 64 → 0 ≤ s1 < 64 → 0 ≤ s2 < 64 → 0 ≤ s3 < 64 →
  decodeLoop (encode s0 :: encode s1 :: encode s2 :: encode s3 :: tail) [] dst
  = decodeLoop tail [] (dst ++ quantumBytes [s0; s1; s2; s3] 4).
Proof. intros. by rewrite !decodeLoop_char. Qed.

Lemma decodeLoop_pad1 s0 s1 s2 dst :
  0 ≤ s0 < 64 → 0 ≤ s1 < 64 → 0 ≤ s2 < 64 →
  decodeLoop [encode s0; encode s1; encode s2; padChar] [] dst
  = Ok (dst ++ quantumBytes [s0; s1; s2] 3).
Proof. intros. by rewrite !decodeLoop_char. Qed.

Lemma decodeLoop_pad2 s0 s1 dst :
  0 ≤ s0 < 64 → 0 ≤ s1 < 64 →
  decodeLoop [encode s0; encode s1; padChar; padChar] [] dst
  = Ok (dst ++ quantumBytes [s0; s1] 2).
Proof. intros. by rewrite !decodeLoop_char. Qed.

(** Decoding what was encoded appends the original bytes. *)
Lemma decodeLoop_EncodeToString src dst :
  decodeLoop (EncodeToString src) [] dst = Ok (dst ++ src).
Proof.
  revert dst. induction src as [|b0|b0 b1|b0 b1 b2 rest IH] using list_ind3; intros dst.
  - by rewrite app_nil_r.
  - cbn [EncodeToString]. rewrite decodeLoop_pad2 by apply sextet_range.
    by rewrite quantum_one.
  - cbn [EncodeToString]. rewrite decodeLoop_pad1 by apply sextet_range.
    by rewrite quantum_two.
  - cbn [EncodeToString]. rewrite decodeLoop_quantum by apply sextet_range.
    rewrite quantum_full, IH. by rewrite <- app_assoc.
Qed.

Lemma DecodeString_EncodeToString src : DecodeString (EncodeToString src) = Ok src.
Proof. apply decodeLoop_EncodeToString. Qed.

(** The encoding has no separator in it. *)
Lemma EncodeToString_no_sep src : x2e ∉ EncodeToString src.
Proof.
  induction src as [|b0|b0 b1|b0 b1 b2 rest IH] using list_ind3;
    cbn [EncodeToString]; rewrite ?not_elem_of_cons;
    repeat split;
    try (apply not_eq_sym, encode_not_sep, sextet_range);
    try discriminate; try apply not_elem_of_nil; done.
Qed.

End base64_roundtrip.

(** ** Filename MAC *)

Section filename_mac.
Import filenameauth.

(** The backward scan finds the last separator below [n], or none. *)
Lemma lastSepBelow_spec (s : list byte) (n : nat) :
  (n ≤ length s)%nat →
  (lastSepBelow s n = -1 ∧ ∀ j, (j < n)%nat → s !! j ≠ Some x2e)
  ∨ (∃ r : nat, lastSepBelow s n = Z.of_nat r ∧ (r < n)%nat ∧ s !! r = Some x2e
       ∧ ∀ j, (r < j < n)%nat → s !! j ≠ Some x2e).
Proof.
  induction n as [|i IH]; intros Hn.
  - left. split; [reflexivity|]. intros j Hj. lia.
  - cbn [lastSepBelow]. change (FilenameAuthSeparator !! 0%nat) with (Some x2e).
    destruct (bool_decide_reflect (s !! i = Some x2e)) as [Hi|Hi].
    + right. exists i. split; [done|]. split; [lia|]. split; [done|]. intros j Hj. lia.
    + destruct IH as [[Hr Hno]|(r & Hr & Hlt & Hsep & Hno)]; [lia| |].
      * left. split; [done|]. intros j Hj.
        destruct (decide (j = i)) as [->|]; [done|]. apply Hno. lia.
      * right. exists r. split; [done|]. split; [lia|]. split; [done|]. intros j Hj.
        destruct (decide (j = i)) as [->|]; [done|]. apply Hno. lia.
Qed.

Lemma not_elem_of_lookup {A} (l : list A) (x : A) :
  x ∉ l ↔ ∀ j : nat, l !! j ≠ Some x.
Proof.
  split.
  - intros Hnin j Hj. apply Hnin. by eapply list_elem_of_lookup_2.
  - intros Hno [j Hj]%list_elem_of_lookup. by eapply Hno.
Qed.

(** The split yields two parts exactly at the last separator. *)
Lemma splitAuthenticatedName_two s a b :
  splitAuthenticatedName s = [a; b] ↔ s = a ++ [x2e] ++ b ∧ x2e ∉ b.
Proof.
  unfold splitAuthenticatedName.
  destruct (lastSepBelow_spec s (length s) ltac:(lia))
    as [[Hr Hno]|(r & Hr & Hlt & Hsep & Hno)]; rewrite Hr.
  - rewrite Z.eqb_refl. split; [done|]. intros [-> _]. exfalso.
    apply (Hno (length a)).
    + rewrite length_app. cbn. lia.
    + by apply list_lookup_middle.
  - destruct (Z.eqb_spec (Z.of_nat r) (-1)); [lia|].
    unfold slice_to, slice_from.
    replace (Z.to_nat (Z.of_nat r + 1)) with (S r) by lia. rewrite Nat2Z.id.
    assert (Hs : s = take r s ++ [x2e] ++ drop (S r) s).
    { symmetry. by apply take_drop_middle. }
    assert (Hd : x2e ∉ drop (S r) s).
    { apply (proj2 (not_elem_of_lookup _ _)). intros j. rewrite lookup_drop.
      destruct (decide (S r + j < length s)%nat); [apply Hno; lia|].
      rewrite lookup_ge_None_2 by lia. done. }
    split.
    + intros [= <- <-]. done.
    + intros [Hab Hb].
      assert (Hra : r = length a).
      { destruct (Nat.lt_trichotomy r (length a)) as [Hlt'|[->|Hgt]]; [|done|].
        - exfalso. apply (Hno (length a)).
          + split; [done|]. rewrite Hab, length_app. cbn. lia.
          + rewrite Hab. by apply list_lookup_middle.
        - exfalso. apply Hb. apply (list_elem_of_lookup_2 _ (r - length a - 1)).
          rewrite Hab in Hsep. rewrite lookup_app_r in Hsep by lia.
          rewrite lookup_app_r in Hsep by (cbn; lia).
          rewrite <- Hsep. cbn. f_equal. }
      subst r. clear Hs Hd Hno Hsep Hr Hlt. subst s.
      rewrite take_app_length.
      replace (S (length a)) with (length a + 1)%nat by lia.
      by rewrite drop_app_add.
Qed.

Lemma splitAuthenticatedName_cases s :
  (∃ a b, splitAuthenticatedName s = [a; b]) ∨ splitAuthenticatedName s = [s].
Proof.
  unfold splitAuthenticatedName. destruct (_ =? _); eauto.
Qed.

Section Verify.
Variable hmac_sha256 : bytes → bytes → bytes.

(** When [VerifyFilename] accepts, and what it returns then. *)
Lemma VerifyFilename_Ok fa s n :
  enabled fa = true →
  VerifyFilename hmac_sha256 fa s = Ok n
  ↔ (∃ macB64, s = n ++ [x2e] ++ macB64 ∧ (x2e ∉ macB64)
       ∧ base64.DecodeString macB64 = Ok (calculateMAC hmac_sha256 fa n)).
Proof.
  intros He. unfold VerifyFilename. rewrite He. cbn [negb].
  destruct (splitAuthenticatedName_cases s) as [(a & b & Hab)|Hs].
  - rewrite Hab. apply splitAuthenticatedName_two in Hab as [-> Hb].
    destruct (base64.DecodeString b) as [mac|e] eqn:Hdec.
    + unfold hmac_Equal.
      destruct (bool_decide_reflect (mac = calculateMAC hmac_sha256 fa a)) as [->|Hne];
        cbn [negb].
      * split.
        -- intros [= <-]. eauto.
        -- intros (m & Heq & Hm & Hd).
           assert (Hsplit : splitAuthenticatedName (a ++ [x2e] ++ b) = [n; m]).
           { rewrite Heq. by apply splitAuthenticatedName_two. }
           assert (Hsplit' : splitAuthenticatedName (a ++ [x2e] ++ b) = [a; b]).
           { by apply splitAuthenticatedName_two. }
           congruence.
      * split; [done|]. intros (m & Heq & Hm & Hd).
        assert (Hsplit : splitAuthenticatedName (a ++ [x2e] ++ b) = [n; m]).
        { rewrite Heq. by apply splitAuthenticatedName_two. }
        assert (Hsplit' : splitAuthenticatedName (a ++ [x2e] ++ b) = [a; b]).
        { by apply splitAuthenticatedName_two. }
        assert (a = n ∧ b = m) as [-> ->] by (split; congruence).
        congruence.
    + split; [done|]. intros (m & Heq & Hm & Hd).
      assert (Hsplit : splitAuthenticatedName (a ++ [x2e] ++ b) = [n; m]).
      { rewrite Heq. by apply splitAuthenticatedName_two. }
      assert (Hsplit' : splitAuthenticatedName (a ++ [x2e] ++ b) = [a; b]).
      { by apply splitAuthenticatedName_two. }
      assert (a = n ∧ b = m) as [-> ->] by (split; congruence).
      congruence.
  - rewrite Hs. split; [done|]. intros (m & Heq & Hm & Hd).
    assert (Hsplit : splitAuthenticatedName s = [n; m]).
    { rewrite Heq. by apply splitAuthenticatedName_two. }
    congruence.
Qed.

(** C9, as the code decides.  With authentication enabled,
    [VerifyFilename] gives back the name [AuthenticateFilename] was given;
    and it accepts a name exactly when the part after the last separator
    decodes, as base64url, to the HMAC of the part before it.  Everything
    else is an error.  The suffix is compared after decoding, never as
    the string [AuthenticateFilename] wrote. *)
Theorem filename_mac_roundtrip_and_acceptance (fa : FilenameAuth) :
  enabled fa = true →
  (∀ n, AuthenticateFilename hmac_sha256 fa n
        = Ok (n ++ [x2e] ++ base64.EncodeToString (calculateMAC hmac_sha256 fa n))
        ∧ VerifyFilename hmac_sha256 fa
            (n ++ [x2e] ++ base64.EncodeToString (calculateMAC hmac_sha256 fa n))
          = Ok n)
  ∧ (∀ s n, VerifyFilename hmac_sha256 fa s = Ok n
            ↔ (∃ macB64, s = n ++ [x2e] ++ macB64 ∧ (x2e ∉ macB64)
                 ∧ base64.DecodeString macB64 = Ok (calculateMAC hmac_sha256 fa n)))
  ∧ (∀ s, (¬ ∃ n macB64, s = n ++ [x2e] ++ macB64 ∧ (x2e ∉ macB64)
                 ∧ base64.DecodeString macB64 = Ok (calculateMAC hmac_sha256 fa n)) →
          ∃ e, VerifyFilename hmac_sha256 fa s = Err e).
Proof.
  intros He. split; [|split].
  - intros n. split.
    + unfold AuthenticateFilename. by rewrite He.
    + apply VerifyFilename_Ok; [done|].
      exists (base64.EncodeToString (calculateMAC hmac_sha256 fa n)).
      split; [done|]. split; [apply EncodeToString_no_sep|].
      apply DecodeString_EncodeToString.
  - intros s n. by apply VerifyFilename_Ok.
  - intros s Hno. destruct (VerifyFilename hmac_sha256 fa s) as [n|e] eqn:Hv; [|eauto].
    exfalso. apply Hno. exists n. by apply VerifyFilename_Ok.
Qed.
End Verify.

(** C9, as the code decides, on the name "abc". *)
Lemma filename_mac_roundtrip_and_acceptance_witness :
  ∃ a, AuthenticateFilename standin.mac standin.fa standin.name_abc = Ok a
       ∧ VerifyFilename standin.mac standin.fa a = Ok standin.name_abc.
Proof.
  destruct (filename_mac_roundtrip_and_acceptance standin.mac standin.fa eq_refl)
    as (Hrt & _ & _).
  destruct (Hrt standin.name_abc) as [Ha Hv].
  eexists. split; [exact Ha | exact Hv].
Defined.

(** C9 fails in the code: [VerifyFilename] accepts a MAC suffix that was
    tampered with.  A suffix with a line feed appended, and a suffix with
    one character changed (the last before the padding, in its unused low
    bits), are not the encoding of the MAC but decode to it, and the name
    is returned without an error. *)
Lemma noncanonical_mac_accepted :
  let mac := calculateMAC standin.mac standin.fa standin.name_abc in
  let with_newline := base64.EncodeToString mac ++ [x0a] in
  let other_bits := <[42%nat := x64]> (base64.EncodeToString mac) in
  enabled standin.fa = true
  ∧ VerifyFilename standin.mac standin.fa (standin.name_abc ++ [x2e] ++ with_newline)
    = Ok standin.name_abc
  ∧ with_newline ≠ base64.EncodeToString mac
  ∧ VerifyFilename standin.mac standin.fa (standin.name_abc ++ [x2e] ++ other_bits)
    = Ok standin.name_abc
  ∧ other_bits ≠ base64.EncodeToString mac.
Proof.
  split; [reflexivity|]. split; [vm_compute; reflexivity|].
  split; [vm_compute; discriminate|]. split; [vm_compute; reflexivity|].
  vm_compute. discriminate.
Qed.

End filename_mac.

(** ** Single blocks: ciphertext length and associated data *)

Section block_invariants.
Import cryptocore contentenc.

Lemma length_BigEndian_PutUint64 v : length (binary.BigEndian_PutUint64 v) = 8%nat.
Proof. done. Qed.

(** X1.  [EncryptBlock] checks the length of what the cipher returned:
    whenever it returns for a non-empty plaintext, the ciphertext is the
    nonce followed by exactly [len(plaintext) + 16] bytes, whatever the
    cipher is; a full plaintext block gives a full ciphertext block. *)
Theorem EncryptBlock_length MAX numCPU cc pbs be nonce P B F C :
  typed MAX cc pbs →
  contentenc.New MAX numCPU cc pbs = Ret be →
  P ≠ [] →
  EncryptBlock be nonce P B F = Ret C →
  len C = len P + IVLen cc + AuthTagLen
  ∧ slice_to C (IVLen cc) = nonce
  ∧ len (slice_from C (IVLen cc)) = len P + AuthTagLen
  ∧ (len P = plainBS be → len C = cipherBS be).
Proof.
  intros Ht HN HP HC.
  destruct (doEncryptBlock_inv _ _ _ _ _ _ _ _ _ _ Ht HN HC HP) as (Hn & HF & HCeq).
  destruct (New_inv _ _ _ _ _ Ht HN) as (Hbe & Hp & Hiv).
  destruct Ht as (HM & Hpr & Hivr).
  assert (Hlen : len C = len P + BlockOverhead be).
  { revert HC. unfold EncryptBlock, doEncryptBlock.
    destruct (Z.eqb_spec (len P) 0) as [H0|_]; [by apply len_zero_nil in H0|].
    destruct (negb (len nonce =? _)); [done|].
    destruct (concatAD B F) as [aData|]; [|done]. cbn [mbind outcome_bind].
    destruct (_ <? _); [done|].
    destruct (Z.eqb_spec (len P + BlockOverhead be)
                (len (slice_to (copy (make (cipherBS be)) nonce) (len nonce)
                      ++ Seal (AEADCipher (cryptoCore be)) nonce P aData)))
      as [Hl|]; [|done].
    cbn [negb]. intros [= <-]. lia. }
  assert (Hov : BlockOverhead be = IVLen cc + AuthTagLen).
  { unfold BlockOverhead. rewrite Hbe. cbn [cipherBS plainBS].
    replace (pbs + IVLen cc + AuthTagLen - pbs) with (IVLen cc + AuthTagLen) by lia.
    apply wrap64_small. unfold AuthTagLen. lia. }
  rewrite Hov in Hlen.
  split; [lia|]. split; [by rewrite HCeq, <- Hn, slice_to_app_len|].
  split.
  - rewrite HCeq at 1. rewrite <- Hn, slice_from_app_len.
    rewrite HCeq, len_app in Hlen. lia.
  - intros HPl. rewrite Hlen, HPl, Hbe. cbn [plainBS cipherBS]. lia.
Qed.

(** X1 at a concrete input. *)
Lemma EncryptBlock_length_witness :
  len standin.sealed_a5 = 2 + 16 + 16
  ∧ slice_to standin.sealed_a5 16 = standin.nonce_a5.
Proof.
  destruct (EncryptBlock_length 1048576 4 (standin.cc [x07] 16) 4096 standin.be
              standin.nonce_a5 [x68; x69] 3 None standin.sealed_a5)
    as (H1 & H2 & _).
  - exact standin_typed.
  - exact standin_New.
  - done.
  - reflexivity.
  - split; [exact H1 | exact H2].
Defined.

(** X2.  Associated data tell blocks apart: two block numbers and file
    IDs that [concatAD] maps to the same bytes are the same block number
    and the same file ID. *)
Theorem concatAD_injective B B' F F' aData :
  0 ≤ B < 2 ^ 64 →
  0 ≤ B' < 2 ^ 64 →
  concatAD B F = Ret aData →
  concatAD B' F' = Ret aData →
  B = B' ∧ F = F'.
Proof.
  intros HB HB' H1 H2.
  destruct (concatAD_inv _ _ _ H1) as [HF ->].
  destruct (concatAD_inv _ _ _ H2) as [HF' Heq].
  apply app_inj_1 in Heq as [Hbe Hid]; [|done].
  split.
  - rewrite <- (BigEndian_roundtrip B HB), <- (BigEndian_roundtrip B' HB').
    by rewrite Hbe.
  - destruct F as [fid|], F' as [fid'|]; cbn in *; by subst.
Qed.

(** X2 at a concrete input. *)
Lemma concatAD_injective_witness :
  concatAD 258 (Some (replicate 16 x11))
  = Ret ([x00; x00; x00; x00; x00; x00; x01; x02] ++ replicate 16 x11)
  ∧ (258 = 258 ∧ Some (replicate 16 x11) = Some (replicate 16 x11)).
Proof.
  split; [reflexivity|].
  apply (concatAD_injective 258 258 (Some (replicate 16 x11))
           (Some (replicate 16 x11))
           ([x00; x00; x00; x00; x00; x00; x01; x02] ++ replicate 16 x11));
    [lia | lia | reflexivity | reflexivity].
Defined.

End block_invariants.

(** ** Merging data into a block *)

Section merge.
Import cryptocore contentenc.

Lemma copy_make_short n (src : bytes) :
  len src ≤ n → copy (make n) src = src ++ make (n - len src).
Proof.
  unfold copy, make, len. intros Hn.
  rewrite length_replicate, take_ge by lia. rewrite drop_replicate.
  do 2 f_equal. lia.
Qed.

Lemma copy_same_length (dst src : bytes) :
  length dst = length src → copy dst src = src.
Proof.
  unfold copy. intros H. rewrite take_ge, drop_ge by lia. apply app_nil_r.
Qed.

(** [oldData] followed by zeros up to the block size: [out] after
    [copy(out, oldData)]. *)
Lemma lookup_padded (old : bytes) n (i : nat) :
  len old ≤ n → Z.of_nat i < n →
  (old ++ make (n - len old)) !! i
  = if bool_decide (Z.of_nat i < len old) then old !! i else Some x00.
Proof.
  unfold len, make. intros Hn Hi. case_bool_decide.
  - apply lookup_app_l. lia.
  - rewrite lookup_app_r by lia. apply lookup_replicate_2. lia.
Qed.

Lemma MergeBlocks_slow be (old new : bytes) offset :
  0 ≤ plainBS be < 2 ^ 63 →
  ¬ (old = [] ∧ offset = 0) →
  len old ≤ plainBS be →
  0 ≤ offset →
  offset + len new ≤ plainBS be →
  let pad := old ++ make (plainBS be - len old) in
  MergeBlocks be old new offset
  = Ret (take (Z.to_nat (Z.max (len old) (offset + len new)))
           (take (Z.to_nat offset) pad ++ new
              ++ drop (Z.to_nat (offset + len new)) pad)).
Proof.
  intros Hp Hfast Hold Hoff Hnew pad. unfold MergeBlocks.
  assert (Hslow : (len old =? 0) && (offset =? 0) = false).
  { destruct (Z.eqb_spec (len old) 0) as [H0|]; [|done].
    destruct (Z.eqb_spec offset 0); [|done].
    apply len_zero_nil in H0. tauto. }
  rewrite Hslow, int_of_uint64_small by lia.
  destruct (Z.ltb_spec (plainBS be) 0); [lia|].
  rewrite copy_make_short by done. fold pad.
  assert (Hlp : len pad = plainBS be).
  { subst pad. rewrite len_app, len_make; unfold len in *; lia. }
  rewrite Hlp.
  destruct (Z.ltb_spec offset 0); [lia|].
  destruct (Z.ltb_spec (plainBS be) (offset + len new)); [lia|]. cbn [orb].
  rewrite copy_same_length.
  2:{ unfold slice_to, slice_from. rewrite length_take, length_drop.
      unfold len in *. lia. }
  set (out := slice_to pad offset ++ new ++ slice_from pad (offset + len new)).
  assert (Hlo : len out = plainBS be).
  { subst out. rewrite !len_app. unfold slice_to, slice_from, len in *.
    rewrite length_take, length_drop. lia. }
  rewrite Hlo.
  destruct (Z.ltb_spec (len old) (offset + len new)) as [Hlt|Hge].
  - destruct (Z.ltb_spec (plainBS be) (offset + len new)); [lia|].
    unfold slice_to. do 2 f_equal. lia.
  - destruct (Z.ltb_spec (plainBS be) (len old)); [lia|].
    unfold slice_to. do 2 f_equal. lia.
Qed.

(** X3.  What [MergeBlocks] returns when the data fit into a block: the
    result is as long as the longer of the old data and the end of the
    new data; it holds the new data from [offset] on, the old data
    everywhere else the old data reach, and zeros in a gap between the
    two. *)
Theorem MergeBlocks_content be (old new : bytes) offset :
  0 ≤ plainBS be < 2 ^ 63 →
  len old ≤ plainBS be →
  0 ≤ offset →
  offset + len new ≤ plainBS be →
  ∃ out, MergeBlocks be old new offset = Ret out
    ∧ len out = Z.max (len old) (offset + len new)
    ∧ ∀ i : nat, Z.of_nat i < len out →
        out !! i
        = if bool_decide (offset ≤ Z.of_nat i < offset + len new)
          then new !! (i - Z.to_nat offset)%nat
          else if bool_decide (Z.of_nat i < len old) then old !! i
          else Some x00.
Proof.
  intros Hp Hold Hoff Hnew.
  destruct (decide (old = [] ∧ offset = 0)) as [[-> ->]|Hslow].
  { exists new. split; [done|]. split; [unfold len; cbn; lia|].
    intros i Hi. rewrite bool_decide_eq_true_2 by lia. f_equal. lia. }
  eexists. split; [by apply MergeBlocks_slow|].
  set (pad := old ++ make (plainBS be - len old)).
  assert (Hlp : length pad = Z.to_nat (plainBS be)).
  { subst pad. rewrite length_app, length_make. unfold len in *. lia. }
  set (out1 := take (Z.to_nat offset) pad ++ new
                 ++ drop (Z.to_nat (offset + len new)) pad).
  assert (Hl1 : length out1 = Z.to_nat (plainBS be)).
  { subst out1. rewrite !length_app, length_take, length_drop. unfold len in *. lia. }
  assert (Hlen : len (take (Z.to_nat (Z.max (len old) (offset + len new))) out1)
                 = Z.max (len old) (offset + len new)).
  { unfold len in *. rewrite length_take. lia. }
  split; [done|]. rewrite Hlen. intros i Hi.
  rewrite lookup_take_lt by lia. subst out1.
  assert (Hlt : length (take (Z.to_nat offset) pad) = Z.to_nat offset).
  { rewrite length_take. unfold len in *. lia. }
  case_bool_decide as Hin.
  - rewrite lookup_app_r by (rewrite Hlt; lia). rewrite Hlt.
    apply lookup_app_l. unfold len in *. lia.
  - destruct (decide (Z.of_nat i < offset)) as [Hlo|Hhi].
    + rewrite lookup_app_l by (rewrite Hlt; lia). rewrite lookup_take_lt by lia.
      apply lookup_padded; lia.
    + rewrite lookup_app_r by (rewrite Hlt; lia). rewrite Hlt.
      rewrite lookup_app_r by (unfold len in *; lia).
      rewrite lookup_drop.
      replace (Z.to_nat (offset + len new)
               + (i - Z.to_nat offset - length new))%nat with i
        by (unfold len in *; lia).
      apply lookup_padded; lia.
Qed.

(** X3 at a concrete input. *)
Lemma MergeBlocks_content_witness :
  ∃ out, MergeBlocks standin.be [x61; x62; x63] [x58; x59] 5 = Ret out
    ∧ len out = Z.max (len [x61; x62; x63]) (5 + len [x58; x59])
    ∧ ∀ i : nat, Z.of_nat i < len out →
        out !! i
        = if bool_decide (5 ≤ Z.of_nat i < 5 + len [x58; x59])
          then [x58; x59] !! (i - Z.to_nat 5)%nat
          else if bool_decide (Z.of_nat i < len [x61; x62; x63])
               then [x61; x62; x63] !! i
               else Some x00.
Proof.
  apply (MergeBlocks_content standin.be [x61; x62; x63] [x58; x59] 5);
    unfold len; cbn; lia.
Defined.

Lemma length_copy (dst src : bytes) : length (copy dst src) = length dst.
Proof. unfold copy. rewrite length_app, length_take, length_drop. lia. Qed.

(** X4.  When [MergeBlocks] panics.  The fast path, empty old data and
    offset zero, hands back the new data without looking at their size;
    otherwise data that start below zero or do not fit into a block of
    [plainBS] bytes end in a slice-bounds panic. *)
Theorem MergeBlocks_out_of_block be (old new : bytes) offset :
  0 ≤ plainBS be < 2 ^ 63 →
  (old = [] ∧ offset = 0 → MergeBlocks be old new offset = Ret new)
  ∧ (¬ (old = [] ∧ offset = 0) →
     offset < 0 ∨ plainBS be < offset + len new ∨ plainBS be < len old →
     MergeBlocks be old new offset = Abort (Panic "slice bounds out of range")).
Proof.
  intros Hp. split; [by intros [-> ->]|].
  intros Hfast Hout. unfold MergeBlocks.
  assert (Hslow : (len old =? 0) && (offset =? 0) = false).
  { destruct (Z.eqb_spec (len old) 0) as [H0|]; [|done].
    destruct (Z.eqb_spec offset 0); [|done].
    apply len_zero_nil in H0. tauto. }
  rewrite Hslow, int_of_uint64_small by lia.
  destruct (Z.ltb_spec (plainBS be) 0); [lia|].
  assert (Hlc : len (copy (make (plainBS be)) old) = plainBS be).
  { unfold len. rewrite length_copy, length_make. lia. }
  rewrite Hlc.
  destruct (Z.ltb_spec offset 0); [done|].
  destruct (Z.ltb_spec (plainBS be) (offset + len new)); [done|]. cbn [orb].
  set (out := slice_to _ offset ++ _ ++ _).
  assert (Hlo : len out = plainBS be).
  { subst out. unfold len, slice_to, slice_from in *.
    repeat rewrite ?length_app, ?length_copy, ?length_take, ?length_drop.
    rewrite length_make. lia. }
  rewrite Hlo.
  destruct (Z.ltb_spec (len old) (offset + len new)); [lia|].
  destruct (Z.ltb_spec (plainBS be) (len old)); [done|lia].
Qed.

(** X4 at a concrete input. *)
Lemma MergeBlocks_out_of_block_witness :
  MergeBlocks standin.be [] (replicate 5000 x41) 0 = Ret (replicate 5000 x41)
  ∧ MergeBlocks standin.be [x61] (replicate 4096 x41) 1
    = Abort (Panic "slice bounds out of range").
Proof.
  split.
  - apply (MergeBlocks_out_of_block standin.be [] (replicate 5000 x41) 0);
      [cbn; lia | done].
  - apply (MergeBlocks_out_of_block standin.be [x61] (replicate 4096 x41) 1).
    + cbn; lia.
    + by intros [? _].
    + right. left. unfold len. rewrite length_replicate. cbn. lia.
Defined.

End merge.

(** ** The drivers: worker count, batches and shards *)

Section drivers.
Import parallelcrypto.

Lemma batchLoop_done fuel i batchSize blockCount :
  blockCount ≤ i → batchLoop fuel i batchSize blockCount = [].
Proof.
  intros Hi. destruct fuel as [|fuel]; [done|]. cbn [batchLoop].
  by destruct (Z.ltb_spec i blockCount); [lia|].
Qed.

Lemma batchLoop_tiles fuel i batchSize blockCount :
  0 < batchSize →
  i < blockCount →
  (Z.to_nat (blockCount - i) ≤ fuel)%nat →
  tiles (batchLoop fuel i batchSize blockCount) i blockCount
  ∧ Forall (λ c, c.2 - c.1 ≤ batchSize) (batchLoop fuel i batchSize blockCount).
Proof.
  intros Hbs. revert i. induction fuel as [|fuel IH]; intros i Hi Hfuel; [lia|].
  cbn [batchLoop]. destruct (Z.ltb_spec i blockCount); [|lia].
  destruct (Z.gtb_spec (i + batchSize) blockCount) as [Hover|Hin].
  - rewrite batchLoop_done by lia. cbn. split; [lia|].
    constructor; [cbn; lia|constructor].
  - destruct (decide (i + batchSize = blockCount)) as [Heq|Hne].
    + rewrite batchLoop_done by lia. cbn. split; [lia|].
      constructor; [cbn; lia|constructor].
    + destruct (IH (i + batchSize)) as [Ht Hsz]; [lia..|].
      cbn [tiles fst snd]. split; [split; [done|split; [lia|done]]|].
      constructor; [cbn; lia|done].
Qed.

Lemma ProcessBlocksBatch_tiles (pc : ParallelCrypto) blockCount :
  1 ≤ blockCount →
  tiles (calls_of (ProcessBlocksBatch pc blockCount)) 0 blockCount.
Proof.
  intros Hb. unfold ProcessBlocksBatch.
  destruct (negb (ShouldUseBatch pc blockCount)); [cbn; lia|].
  cbn [calls_of]. apply batchLoop_tiles; [by destruct (hasAVX2 pc)|lia..].
Qed.

Lemma ProcessBlocksOptimized_tiles (pc : ParallelCrypto) blockCount :
  1 ≤ blockCount →
  ∃ d, ProcessBlocksOptimized pc blockCount = Ret d
       ∧ tiles (calls_of d) 0 blockCount.
Proof.
  intros Hb. unfold ProcessBlocksOptimized.
  destruct (ShouldUseParallel pc blockCount); [by apply ProcessBlocksParallel_tiles|].
  destruct (ShouldUseBatch pc blockCount).
  - eexists. split; [done|]. by apply ProcessBlocksBatch_tiles.
  - eexists. split; [done|]. cbn. lia.
Qed.

(** X5.  The worker count stays between one and the cap of 16 (8 in the
    plain driver) for every instance and block count, is never more than
    the number of blocks, and is one whenever the parallel path is not
    taken. *)
Theorem worker_count_bounds :
  (∀ (pc : ParallelCrypto) (blockCount : Z),
     float64.fits (cpuCount pc) →
     1 ≤ GetOptimalWorkerCount pc blockCount ≤ MaxParallelWorkers
     ∧ (1 ≤ blockCount → GetOptimalWorkerCount pc blockCount ≤ blockCount)
     ∧ (ShouldUseParallel pc blockCount = false →
        GetOptimalWorkerCount pc blockCount = 1))
  ∧ (∀ (numCPU : Z) (pc : parallelcrypto_plain.ParallelCrypto) (blockCount : Z),
       1 ≤ parallelcrypto_plain.GetOptimalWorkerCount numCPU pc blockCount
         ≤ parallelcrypto_plain.MaxParallelWorkers
       ∧ (1 ≤ blockCount →
          parallelcrypto_plain.GetOptimalWorkerCount numCPU pc blockCount ≤ blockCount)
       ∧ (parallelcrypto_plain.ShouldUseParallel numCPU pc blockCount = false →
          parallelcrypto_plain.GetOptimalWorkerCount numCPU pc blockCount = 1)).
Proof.
  split.
  - intros pc blockCount _.
    unfold GetOptimalWorkerCount, ShouldUseParallel, ParallelThreshold,
      MinParallelWorkers, MaxParallelWorkers.
    destruct (negb (enabled pc)); [lia|].
    destruct (Z.ltb_spec blockCount 4).
    { destruct (_ <? _); [lia|]. destruct (Z.geb_spec blockCount 4); lia. }
    destruct (Z.ltb_spec (cpuCount pc) 2); [lia|].
    assert (Hw : 1 ≤ (if hasAVX2 pc && hasAES pc
                      then float64.scale (cpuCount pc) float64.c1_5
                      else if hasAVX pc then float64.scale (cpuCount pc) float64.c1_2
                      else cpuCount pc)).
    { destruct (hasAVX2 pc && hasAES pc); [|destruct (hasAVX pc)];
        [apply scale_pos | apply scale_pos |]; unfold float64.c1_5, float64.c1_2; lia. }
    set (w := if hasAVX2 pc && hasAES pc then _ else _) in *.
    destruct (Z.geb_spec blockCount 4); [|lia].
    destruct (Z.gtb_spec w 16);
      [destruct (Z.gtb_spec 16 blockCount) | destruct (Z.gtb_spec w blockCount)];
      repeat split; (lia || done).
  - intros numCPU pc blockCount.
    unfold parallelcrypto_plain.GetOptimalWorkerCount,
      parallelcrypto_plain.ShouldUseParallel,
      parallelcrypto_plain.ParallelThreshold,
      parallelcrypto_plain.MinParallelWorkers,
      parallelcrypto_plain.MaxParallelWorkers.
    destruct (negb (parallelcrypto_plain.enabled pc)); [lia|].
    destruct (Z.ltb_spec blockCount 8).
    { destruct (_ <? _); [lia|]. destruct (Z.geb_spec blockCount 8); lia. }
    destruct (Z.ltb_spec numCPU 2); [lia|].
    destruct (Z.geb_spec blockCount 8); [|lia].
    destruct (Z.gtb_spec numCPU 8);
      [destruct (Z.gtb_spec 8 blockCount) | destruct (Z.gtb_spec numCPU blockCount)];
      repeat split; (lia || done).
Qed.

(** X5 at a concrete input. *)
Lemma worker_count_bounds_witness :
  1 ≤ GetOptimalWorkerCount (parallelcrypto.New 64) 1000 ≤ MaxParallelWorkers.
Proof.
  destruct worker_count_bounds as [H _].
  apply (H (parallelcrypto.New 64) 1000). unfold float64.fits. cbn. lia.
Defined.

(** X6.  [ProcessBlocksBatch] walks the blocks in index order without
    starting a goroutine: its calls lie end to end from 0 to
    [blockCount], and in batch mode none spans more than the batch size,
    8 blocks with AVX2 and 4 without. *)
Theorem batches_in_order (pc : ParallelCrypto) (blockCount : Z) :
  1 ≤ blockCount →
  ∃ calls, ProcessBlocksBatch pc blockCount = Sequential calls
    ∧ tiles calls 0 blockCount
    ∧ concat (contentenc.indices <$> calls) = seqZ 0 blockCount
    ∧ (ShouldUseBatch pc blockCount = true →
       Forall (λ c, c.2 - c.1 ≤ if hasAVX2 pc then 8 else 4) calls).
Proof.
  intros Hb.
  pose proof (ProcessBlocksBatch_tiles pc blockCount Hb) as Ht.
  revert Ht. unfold ProcessBlocksBatch.
  destruct (ShouldUseBatch pc blockCount); cbn [negb calls_of]; intros Ht.
  - eexists. split; [done|]. split; [done|]. split.
    + destruct (tiles_concat _ _ _ Ht) as [_ Hc]. by rewrite Z.sub_0_r in Hc.
    + intros _. apply batchLoop_tiles; [by destruct (hasAVX2 pc)|lia..].
  - eexists. split; [done|]. split; [done|]. split; [|done].
    destruct (tiles_concat _ _ _ Ht) as [_ Hc]. by rewrite Z.sub_0_r in Hc.
Qed.

(** X6 at a concrete input. *)
Lemma batches_in_order_witness :
  ∃ calls, ProcessBlocksBatch (parallelcrypto.New 1) 19 = Sequential calls
    ∧ tiles calls 0 19
    ∧ concat (contentenc.indices <$> calls) = seqZ 0 19
    ∧ (ShouldUseBatch (parallelcrypto.New 1) 19 = true →
       Forall (λ c, c.2 - c.1 ≤ if hasAVX2 (parallelcrypto.New 1) then 8 else 4)
              calls).
Proof. apply (batches_in_order (parallelcrypto.New 1) 19). lia. Defined.

(** X7.  [ProcessBlocksOptimized] hands every block index to the worker
    function exactly once, whichever of the three modes it picks and in
    whatever order the goroutines run; outside the parallel mode the
    blocks are walked in index order. *)
Theorem optimized_covers_each_block_once (pc : ParallelCrypto) (blockCount : Z) :
  float64.fits (cpuCount pc) →
  1 ≤ blockCount →
  ∃ d, ProcessBlocksOptimized pc blockCount = Ret d
    ∧ tiles (calls_of d) 0 blockCount
    ∧ pairwise_disjoint (calls_of d)
    ∧ (∀ sched, contentenc.schedule_of d sched → sched ≡ₚ seqZ 0 blockCount)
    ∧ (ShouldUseParallel pc blockCount = false →
       ∀ sched, contentenc.schedule_of d sched → sched = seqZ 0 blockCount).
Proof.
  intros _ Hb.
  destruct (ProcessBlocksOptimized_tiles pc blockCount Hb) as (d & Hd & Ht).
  exists d. split; [done|]. split; [done|]. split; [by eapply tiles_disjoint|].
  split; [intros sched; by apply schedule_of_Permutation|].
  intros Hseq sched Hs. revert Hd. unfold ProcessBlocksOptimized. rewrite Hseq.
  destruct (tiles_concat _ _ _ Ht) as [_ Hc]. rewrite Z.sub_0_r in Hc.
  destruct (ShouldUseBatch pc blockCount).
  - intros [= <-]. revert Hs Hc. unfold ProcessBlocksBatch.
    destruct (negb _); cbn; by intros -> ->.
  - intros [= <-]. cbn in *. by rewrite Hs, <- Hc.
Qed.

(** X7 at a concrete input. *)
Lemma optimized_covers_each_block_once_witness :
  ∃ d, ProcessBlocksOptimized (parallelcrypto.New 4) 3 = Ret d
    ∧ calls_of d = [(0, 3)]
    ∧ ∀ sched, contentenc.schedule_of d sched → sched = [0; 1; 2].
Proof.
  destruct (optimized_covers_each_block_once (parallelcrypto.New 4) 3)
    as (d & Hd & _ & _ & _ & Hseq).
  - unfold float64.fits. cbn. lia.
  - lia.
  - exists d. split; [exact Hd|]. split.
    + vm_compute in Hd. injection Hd as <-. reflexivity.
    + apply Hseq. reflexivity.
Defined.

(** X8.  The shards of the parallel path are balanced: there is one per
    worker, every shard but the last holds [blockCount / workers] blocks,
    at least one, and the last holds the remainder as well. *)
Theorem shards_are_balanced (pc : ParallelCrypto) (blockCount : Z) :
  float64.fits (cpuCount pc) →
  ShouldUseParallel pc blockCount = true →
  let workers := GetOptimalWorkerCount pc blockCount in
  ∃ calls, ProcessBlocksParallel pc blockCount = Ret (Goroutines calls)
    ∧ len calls = workers
    ∧ 1 ≤ blockCount / workers
    ∧ ∀ (k : nat) c, calls !! k = Some c →
        c.2 - c.1
        = if Z.of_nat k =? workers - 1
          then blockCount / workers + blockCount mod workers
          else blockCount / workers.
Proof.
  intros _ Hpar workers.
  assert (Hb : 4 ≤ blockCount).
  { revert Hpar. unfold ShouldUseParallel, ParallelThreshold.
    destruct (negb _); [done|]. destruct (_ <? _); [done|].
    destruct (Z.geb_spec blockCount 4); [lia|done]. }
  pose proof (GetOptimalWorkerCount_bounds pc blockCount ltac:(lia)) as Hw.
  fold workers in Hw.
  unfold ProcessBlocksParallel. rewrite Hpar. cbn [negb]. fold workers.
  destruct (Z.eqb_spec workers 0); [lia|].
  rewrite Z.quot_div_nonneg by lia.
  eexists. split; [done|].
  split; [unfold len; rewrite length_fmap, length_seqZ; lia|].
  split; [apply Z.div_le_lower_bound; lia|].
  intros k c Hk. rewrite list_lookup_fmap in Hk.
  destruct (seqZ 0 workers !! k) as [a|] eqn:Ha; [|done].
  apply lookup_seqZ in Ha as [-> Hlt]. rewrite Z.add_0_l in Hk.
  injection Hk as <-.
  pose proof (Z.div_mod blockCount workers ltac:(lia)) as Hdm.
  destruct (Z.eqb_spec (Z.of_nat k) (workers - 1)) as [Heq|Hne].
  - rewrite Heq, workerRange_last. cbn [fst snd]. nia.
  - rewrite workerRange_inner by done. cbn [fst snd]. lia.
Qed.

(** X8 at a concrete input. *)
Lemma shards_are_balanced_witness :
  ∃ calls, ProcessBlocksParallel (parallelcrypto.New 4) 20 = Ret (Goroutines calls)
    ∧ calls = [(0, 3); (3, 6); (6, 9); (9, 12); (12, 15); (15, 20)].
Proof.
  destruct (shards_are_balanced (parallelcrypto.New 4) 20) as (calls & Hc & _).
  - unfold float64.fits. cbn. lia.
  - reflexivity.
  - exists calls. split; [exact Hc|].
    vm_compute in Hc. injection Hc as <-. reflexivity.
Defined.

End drivers.

(** ** Decrypting a group: the three paths *)

Section group_paths.
Import cryptocore contentenc parallelcrypto.

Lemma DecryptBlock_returns be ct B F :
  valid_fileID F → ∃ r, DecryptBlock be ct B F = Ret r.
Proof.
  intros HF. unfold DecryptBlock.
  destruct (_ =? _); [by eexists|].
  destruct (bytes_Equal ct _); [by eexists|].
  destruct (_ <? _); [by eexists|].
  destruct (bytes_Equal _ _); [by eexists|].
  rewrite (concatAD_valid _ _ HF). cbn [mbind outcome_bind].
  destruct (Open _ _ _ _); by eexists.
Qed.

Lemma runSteps_app {S : Type} (step : S → Z → outcome S) l1 l2 st :
  runSteps step (l1 ++ l2) st = st' ← runSteps step l1 st; runSteps step l2 st'.
Proof.
  revert st. induction l1 as [|i l1 IH]; intros st; [done|].
  cbn [app runSteps]. destruct (step st i) as [st1|]; [|done].
  cbn [mbind outcome_bind]. apply IH.
Qed.

Lemma runDispatch_runSteps {S : Type} d sched (step : S → Z → outcome S) st :
  schedule_of d sched → runDispatch d sched step st = runSteps step sched st.
Proof. destruct d; cbn; [by intros ->|done]. Qed.

Lemma cipherBlock_app be (whole tail : bytes) (n i : Z) :
  0 < cipherBS be < 2 ^ 63 →
  len whole = n * cipherBS be →
  0 ≤ i < n →
  cipherBlock be (whole ++ tail) i = cipherBlock be whole i.
Proof.
  intros Hc Hw Hi. unfold cipherBlock, slice_to, slice_from.
  rewrite int_of_uint64_small by lia. unfold len in *.
  rewrite drop_app_le by nia. rewrite take_app_le; [done|].
  rewrite length_drop. nia.
Qed.

Lemma splitBlocks_app be (whole tail : bytes) (n : Z) :
  0 < cipherBS be < 2 ^ 63 →
  len whole = n * cipherBS be →
  splitBlocks be (whole ++ tail) n = splitBlocks be whole n.
Proof.
  intros Hc Hw. apply list_eq. intros j.
  destruct (decide (Z.of_nat j < n)) as [Hj|Hj].
  - rewrite !splitBlocks_lookup by done. f_equal.
    by apply (cipherBlock_app be whole tail n); [..|lia].
  - rewrite !lookup_ge_None_2; [done|rewrite length_splitBlocks; lia..].
Qed.

Lemma quot_whole_tail (n cbs t : Z) :
  0 < cbs → 0 ≤ n → 0 ≤ t < cbs → (n * cbs + t) `quot` cbs = n.
Proof.
  intros. rewrite Z.quot_div_nonneg by nia.
  symmetry. apply (Z.div_unique _ _ _ t); lia.
Qed.

(** The worker closure of the group paths, block by block. *)
Section closure.
Variables (be : ContentEnc) (cipherBlocks : list bytes) (firstBlockNo : Z)
  (fileID : option bytes).
Hypothesis HF : valid_fileID fileID.

Local Abbreviation blockResult i :=
  (DecryptBlock be (default [] (cipherBlocks !! Z.to_nat i))
     (wrap64 (firstBlockNo + wrap64 i)) fileID).

Lemma blockStep_good st i p :
  0 ≤ i < len cipherBlocks →
  blockResult i = Ret (Ok p) →
  blockStep be cipherBlocks firstBlockNo fileID st i
  = Ret {| plainBlocks := <[Z.to_nat i := p]> (plainBlocks st);
           decryptErr := decryptErr st |}.
Proof.
  intros Hi Hr. unfold blockStep.
  destruct (Z.ltb_spec i 0); [lia|].
  destruct (Z.leb_spec (len cipherBlocks) i); [lia|]. cbn [orb].
  rewrite Hr. cbn [mbind outcome_bind]. by destruct (decryptErr st).
Qed.

Lemma blockStep_bad st i e :
  0 ≤ i < len cipherBlocks →
  blockResult i = Ret (Err e) →
  blockStep be cipherBlocks firstBlockNo fileID st i
  = Ret {| plainBlocks := <[Z.to_nat i := []]> (plainBlocks st);
           decryptErr := Some (default e (decryptErr st)) |}.
Proof.
  intros Hi Hr. unfold blockStep.
  destruct (Z.ltb_spec i 0); [lia|].
  destruct (Z.leb_spec (len cipherBlocks) i); [lia|]. cbn [orb].
  rewrite Hr. cbn [mbind outcome_bind]. by destruct (decryptErr st).
Qed.

(** Blocks that decrypt leave the error as it was. *)
Lemma runSteps_good pre st :
  Forall (λ j, 0 ≤ j < len cipherBlocks ∧ ∃ p, blockResult j = Ret (Ok p)) pre →
  ∃ st', runSteps (blockStep be cipherBlocks firstBlockNo fileID) pre st = Ret st'
         ∧ decryptErr st' = decryptErr st.
Proof.
  revert st. induction pre as [|i pre IH]; intros st Hall; [by exists st|].
  apply Forall_cons in Hall as [(Hi & p & Hp) Hrest]. cbn [runSteps].
  rewrite (blockStep_good st i p Hi Hp). cbn [mbind outcome_bind].
  set (st1 := {| plainBlocks := _ |}).
  destruct (IH st1 Hrest) as (st' & Hrun & Herr). by exists st'.
Qed.

(** An error, once recorded, stays. *)
Lemma runSteps_sticky sched st e :
  Forall (λ j, 0 ≤ j < len cipherBlocks) sched →
  decryptErr st = Some e →
  ∃ st', runSteps (blockStep be cipherBlocks firstBlockNo fileID) sched st = Ret st'
         ∧ decryptErr st' = Some e.
Proof.
  revert st. induction sched as [|i sched IH]; intros st Hall He; [by exists st|].
  apply Forall_cons in Hall as [Hi Hrest]. cbn [runSteps].
  destruct (DecryptBlock_returns be (default [] (cipherBlocks !! Z.to_nat i))
              (wrap64 (firstBlockNo + wrap64 i)) fileID HF) as [[p|e'] Hr].
  - rewrite (blockStep_good st i p Hi Hr). cbn [mbind outcome_bind].
    by apply IH.
  - rewrite (blockStep_bad st i e' Hi Hr). cbn [mbind outcome_bind].
    apply IH; [done|]. cbn. by rewrite He.
Qed.

Lemma runSteps_first_error pre i post st e :
  Forall (λ j, 0 ≤ j < len cipherBlocks) (pre ++ i :: post) →
  Forall (λ j, ∃ p, blockResult j = Ret (Ok p)) pre →
  blockResult i = Ret (Err e) →
  decryptErr st = None →
  ∃ st', runSteps (blockStep be cipherBlocks firstBlockNo fileID)
           (pre ++ i :: post) st = Ret st'
         ∧ decryptErr st' = Some e.
Proof.
  intros Hrange Hpre Hi Hnone.
  apply Forall_app in Hrange as [Hrpre Hrpost].
  apply Forall_cons in Hrpost as [Hri Hrpost].
  destruct (runSteps_good pre st) as (st1 & Hrun1 & Herr1).
  { apply Forall_and. by split. }
  rewrite runSteps_app, Hrun1. cbn [mbind outcome_bind runSteps].
  rewrite (blockStep_bad st1 i e Hri Hi). cbn [mbind outcome_bind].
  apply runSteps_sticky; [done|]. cbn. by rewrite Herr1, Hnone.
Qed.
End closure.

Lemma New_cipherBS MAX numCPU cc pbs be :
  typed MAX cc pbs →
  contentenc.New MAX numCPU cc pbs = Ret be →
  0 < cipherBS be < 2 ^ 63
  ∧ parallelCrypto be = parallelcrypto.New numCPU.
Proof.
  intros Ht HN. destruct (New_inv _ _ _ _ _ Ht HN) as (Hbe & Hp & Hiv).
  destruct Ht as (HM & Hpr & Hivr). rewrite Hbe. cbn [cipherBS parallelCrypto].
  unfold AuthTagLen. split; [lia|done].
Qed.

(** A dispatch that tiles the group, run over blocks that all decrypt. *)
Lemma group_run_ok be d sched ct first F n plains :
  tiles (calls_of d) 0 n →
  schedule_of d sched →
  Forall2 (λ i p, DecryptBlock be (cipherBlock be ct i)
                    (wrap64 (first + i)) F = Ret (Ok p))
          (seqZ 0 n) plains →
  runDispatch d sched (blockStep be (splitBlocks be ct n) first F)
    {| plainBlocks := replicate (Z.to_nat n) []; decryptErr := None |}
  = Ret {| plainBlocks := plains; decryptErr := None |}.
Proof.
  intros Htiles Hsched Hall.
  destruct (tiles_concat _ _ _ Htiles) as [Hn _].
  pose proof (schedule_of_Permutation _ _ _ Htiles Hsched) as Hperm.
  pose proof (Forall2_length _ _ _ Hall) as Hlen. rewrite length_seqZ in Hlen.
  rewrite runDispatch_runSteps by done.
  rewrite Hlen. apply runSteps_all.
  - by rewrite length_splitBlocks.
  - intros j p Hj.
    assert (Hjlt : Z.of_nat j < n).
    { apply lookup_lt_Some in Hj. lia. }
    rewrite splitBlocks_lookup by done. cbn [from_option].
    rewrite wrap64_add_wrap64.
    apply (Forall2_lookup_lr _ _ _ j _ _ Hall); [|done].
    rewrite lookup_seqZ_lt by done. by rewrite Z.add_0_l.
  - rewrite <- Hlen. by rewrite Z2Nat.id by lia.
Qed.

Lemma length_concat_full (cbs : Z) (pre : list bytes) :
  Forall (λ c, len c = cbs) pre →
  len (concat pre) = Z.of_nat (length pre) * cbs.
Proof.
  induction 1 as [|c pre Hc _ IH]; [done|].
  cbn [concat]. rewrite len_app, IH, Hc. cbn [length]. lia.
Qed.

Lemma sequentialLoop_nil fuel be pBuf blockNo F :
  sequentialLoop fuel be [] pBuf blockNo F = Ret (pBuf, None).
Proof. by destruct fuel. Qed.

(** The sequential loop past a run of whole blocks that decrypt. *)
Lemma sequentialLoop_prefix be F pre :
  0 < cipherBS be < 2 ^ 63 →
  Forall (λ c, len c = cipherBS be) pre →
  ∀ fuel plains rest pBuf blockNo,
    0 ≤ blockNo < 2 ^ 64 →
    length plains = length pre →
    (∀ (k : nat) c p, pre !! k = Some c → plains !! k = Some p →
       DecryptBlock be c (wrap64 (blockNo + Z.of_nat k)) F = Ret (Ok p)) →
    (length pre ≤ fuel)%nat →
    sequentialLoop fuel be (concat pre ++ rest) pBuf blockNo F
    = sequentialLoop (fuel - length pre) be rest (pBuf ++ concat plains)
        (wrap64 (blockNo + Z.of_nat (length pre))) F.
Proof.
  intros Hc. induction 1 as [|c pre Hlc _ IH];
    intros fuel plains rest pBuf blockNo HB Hlen Hok Hfuel.
  - destruct plains; [|done]. cbn [concat length app].
    rewrite app_nil_r, Z.add_0_r, wrap64_small by done.
    f_equal. lia.
  - destruct plains as [|p plains]; [done|].
    destruct fuel as [|fuel]; [cbn in Hfuel; lia|].
    cbn [concat sequentialLoop]. rewrite <- app_assoc.
    rewrite int_of_uint64_small by lia.
    destruct (Z.gtb_spec (len (c ++ concat pre ++ rest)) 0) as [_|Hle].
    2:{ rewrite len_app in Hle. pose proof (len_nonneg (concat pre ++ rest)). lia. }
    assert (Hcl : Z.to_nat (cipherBS be) = length c) by (unfold len in Hlc; lia).
    rewrite Hcl, take_app_length, drop_app_length.
    pose proof (Hok 0%nat c p eq_refl eq_refl) as H0.
    rewrite Z.add_0_r, wrap64_small in H0 by done.
    rewrite H0. cbn [mbind outcome_bind].
    rewrite (IH fuel plains rest (pBuf ++ p) (wrap64 (blockNo + 1))).
    + cbn [length concat]. rewrite <- app_assoc. f_equal.
      unfold wrap64. rewrite Zplus_mod_idemp_l. f_equal. lia.
    + unfold wrap64. apply Z.mod_pos_bound. lia.
    + cbn in Hlen. lia.
    + intros k c' p' Hk Hp'.
      replace (wrap64 (wrap64 (blockNo + 1) + Z.of_nat k))
        with (wrap64 (blockNo + Z.of_nat (S k))).
      * by apply Hok.
      * unfold wrap64. rewrite Zplus_mod_idemp_l. f_equal. lia.
    + cbn in Hfuel. lia.
Qed.

Lemma decryptBlocksSequential_good be first F (pre plains : list bytes) last p :
  0 < cipherBS be < 2 ^ 63 →
  0 ≤ first < 2 ^ 64 →
  Forall (λ c, len c = cipherBS be) pre →
  length plains = length pre →
  (∀ (k : nat) c p, pre !! k = Some c → plains !! k = Some p →
     DecryptBlock be c (wrap64 (first + Z.of_nat k)) F = Ret (Ok p)) →
  len last ≤ cipherBS be →
  DecryptBlock be last (wrap64 (first + len pre)) F = Ret (Ok p) →
  decryptBlocksSequential be (concat pre ++ last) first F
  = Ret (concat plains ++ p, None).
Proof.
  intros Hc HB Hfull Hlen Hok Hl Hp.
  pose proof (length_concat_full _ _ Hfull) as Hlc. unfold len in Hlc.
  unfold decryptBlocksSequential.
  rewrite (sequentialLoop_prefix be F pre Hc Hfull _ plains last [] first HB Hlen Hok)
    by (rewrite length_app; nia).
  cbn [app]. destruct last as [|x last].
  { rewrite sequentialLoop_nil. unfold DecryptBlock in Hp. cbn in Hp.
    injection Hp as <-. by rewrite app_nil_r. }
  replace (length (concat pre ++ x :: last) - length pre)%nat
    with (S (length (concat pre ++ x :: last) - length pre - 1))
    by (rewrite length_app; cbn [length]; nia).
  cbn [sequentialLoop]. rewrite int_of_uint64_small by lia.
  destruct (Z.gtb_spec (len (x :: last)) 0) as [_|Hle];
    [|unfold len in Hle; cbn in Hle; lia].
  rewrite take_ge, drop_ge by (unfold len in Hl; lia).
  unfold len in Hp. rewrite Hp. cbn [mbind outcome_bind].
  apply sequentialLoop_nil.
Qed.

Lemma decryptBlocksSequential_bad be first F (pre plains : list bytes) b rest e :
  0 < cipherBS be < 2 ^ 63 →
  0 ≤ first < 2 ^ 64 →
  Forall (λ c, len c = cipherBS be) pre →
  length plains = length pre →
  (∀ (k : nat) c p, pre !! k = Some c → plains !! k = Some p →
     DecryptBlock be c (wrap64 (first + Z.of_nat k)) F = Ret (Ok p)) →
  0 < len b ≤ cipherBS be →
  (len b < cipherBS be → rest = []) →
  DecryptBlock be b (wrap64 (first + len pre)) F = Ret (Err e) →
  decryptBlocksSequential be (concat pre ++ b ++ rest) first F
  = Ret (concat plains, Some e).
Proof.
  intros Hc HB Hfull Hlen Hok Hb Hrest He.
  pose proof (length_concat_full _ _ Hfull) as Hlc. unfold len in Hlc.
  unfold decryptBlocksSequential.
  rewrite (sequentialLoop_prefix be F pre Hc Hfull _ plains (b ++ rest) [] first
             HB Hlen Hok)
    by (rewrite length_app; nia).
  cbn [app].
  replace (length (concat pre ++ b ++ rest) - length pre)%nat
    with (S (length (concat pre ++ b ++ rest) - length pre - 1))
    by (rewrite !length_app; unfold len in Hb; nia).
  cbn [sequentialLoop]. rewrite int_of_uint64_small by lia.
  destruct (Z.gtb_spec (len (b ++ rest)) 0) as [_|Hle];
    [|rewrite len_app in Hle; pose proof (len_nonneg rest); lia].
  assert (Htake : take (Z.to_nat (cipherBS be)) (b ++ rest) = b).
  { destruct (decide (len b = cipherBS be)) as [Heq|Hne].
    - replace (Z.to_nat (cipherBS be)) with (length b) by (unfold len in Heq; lia).
      apply take_app_length.
    - rewrite Hrest by lia. rewrite app_nil_r. apply take_ge.
      unfold len in Hb. lia. }
  rewrite Htake. unfold len in He. rewrite He. done.
Qed.

(** X9.  [decryptBlocksSequential] stops at the first block that fails
    and returns the plaintext of the blocks before it together with that
    block's error; when every block decrypts, a last block shorter than
    [cipherBS] included, it returns all the plaintext. *)
Theorem sequential_path_result be first F (pre plains : list bytes) :
  0 < cipherBS be < 2 ^ 63 →
  0 ≤ first < 2 ^ 64 →
  Forall (λ c, len c = cipherBS be) pre →
  length plains = length pre →
  (∀ (k : nat) c p, pre !! k = Some c → plains !! k = Some p →
     DecryptBlock be c (wrap64 (first + Z.of_nat k)) F = Ret (Ok p)) →
  (∀ last p,
     len last ≤ cipherBS be →
     DecryptBlock be last (wrap64 (first + len pre)) F = Ret (Ok p) →
     decryptBlocksSequential be (concat pre ++ last) first F
     = Ret (concat plains ++ p, None))
  ∧ (∀ b rest e,
       0 < len b ≤ cipherBS be →
       (len b < cipherBS be → rest = []) →
       DecryptBlock be b (wrap64 (first + len pre)) F = Ret (Err e) →
       decryptBlocksSequential be (concat pre ++ b ++ rest) first F
       = Ret (concat plains, Some e)).
Proof.
  intros Hc HB Hfull Hlen Hok. split.
  - intros last p. by apply decryptBlocksSequential_good.
  - intros b rest e. by apply decryptBlocksSequential_bad.
Qed.

(** X9 at a concrete input. *)
Lemma sequential_path_result_witness :
  decryptBlocksSequential standin.be_small
    (take 22 standin.group_cipher ++ [x01; x02; x03; x04; x05]) 10 None
  = Ret (concat [replicate 4 x41], Some ErrOpen).
Proof.
  destruct (sequential_path_result standin.be_small 10 None
              [take 22 standin.group_cipher] [replicate 4 x41]) as [_ H].
  - cbn. lia.
  - lia.
  - repeat constructor.
  - reflexivity.
  - intros [|[|k]] c p; cbn; intros [= <-] [= <-]; done.
  - apply (H [x01; x02; x03; x04; x05] [] ErrOpen).
    + unfold len. cbn. lia.
    + done.
    + vm_compute. reflexivity.
Defined.

Lemma ShouldUseParallel_ge pc n : ShouldUseParallel pc n = true → 4 ≤ n.
Proof.
  unfold ShouldUseParallel, ParallelThreshold.
  destruct (negb _); [done|]. destruct (_ <? _); [done|].
  destruct (Z.geb_spec n 4); [lia|done].
Qed.

Lemma ShouldUseBatch_New numCPU n :
  ShouldUseBatch (parallelcrypto.New numCPU) n = (n >=? 2).
Proof. done. Qed.

Lemma cipherBlock_whole be (ct : bytes) :
  0 < cipherBS be < 2 ^ 63 → len ct = cipherBS be → cipherBlock be ct 0 = ct.
Proof.
  intros Hc Hl. unfold cipherBlock, slice_to, slice_from.
  rewrite int_of_uint64_small by lia. cbn [Z.mul Z.to_nat drop].
  apply take_ge. unfold len in Hl. lia.
Qed.

Lemma DecryptBlocks_whole_group MAX numCPU cc pbs be sched ct first F n plains :
  typed MAX cc pbs →
  float64.fits numCPU →
  contentenc.New MAX numCPU cc pbs = Ret be →
  0 ≤ first < 2 ^ 64 →
  1 ≤ n →
  len ct = n * cipherBS be →
  (ShouldUseParallel (parallelCrypto be) n = true →
   ∀ d, ProcessBlocksParallel (parallelCrypto be) n = Ret d → schedule_of d sched) →
  Forall2 (λ i p, DecryptBlock be (cipherBlock be ct i)
                    (wrap64 (first + i)) F = Ret (Ok p))
          (seqZ 0 n) plains →
  DecryptBlocks be sched ct first F = Ret (concat plains, None).
Proof.
  intros Ht _ HN HB Hn Hlen Hsched Hall.
  destruct (New_cipherBS _ _ _ _ _ Ht HN) as [Hc Hpc].
  unfold DecryptBlocks. rewrite int_of_uint64_small by lia.
  destruct (Z.eqb_spec (cipherBS be) 0); [lia|].
  rewrite Hlen, Z.quot_mul by lia.
  destruct (Z.eqb_spec n 0); [lia|].
  destruct (ShouldUseParallel (parallelCrypto be) n) eqn:Hpar.
  { unfold decryptBlocksParallel.
    destruct (ProcessBlocksParallel_tiles (parallelCrypto be) n Hn) as (d & Hd & Htiles).
    rewrite Hd. cbn [mbind outcome_bind].
    by rewrite (group_run_ok be d sched ct first F n plains Htiles (Hsched eq_refl d Hd) Hall). }
  destruct (ShouldUseBatch (parallelCrypto be) n) eqn:Hbatch.
  { unfold decryptBlocksBatch.
    pose proof (ProcessBlocksBatch_tiles (parallelCrypto be) n Hn) as Htiles.
    destruct (ProcessBlocksBatch (parallelCrypto be) n) as [calls|calls] eqn:Hd.
    - change (runDispatch (Sequential calls) []) with
        (runDispatch (S:=group) (Sequential calls) (concat (indices <$> calls))).
      by rewrite (group_run_ok be (Sequential calls) (concat (indices <$> calls))
                    ct first F n plains Htiles eq_refl Hall).
    - revert Hd. unfold ProcessBlocksBatch. by destruct (negb _). }
  assert (n = 1) as ->.
  { rewrite Hpc, ShouldUseBatch_New in Hbatch.
    destruct (Z.geb_spec n 2); [done|lia]. }
  rewrite seqZ_cons, seqZ_nil in Hall by lia.
  apply Forall2_cons_inv_l in Hall as (p & plains' & Hp & Hnil & ->).
  apply Forall2_nil_inv_l in Hnil as ->.
  rewrite cipherBlock_whole, Z.add_0_r, wrap64_small in Hp by lia.
  pose proof (decryptBlocksSequential_good be first F [] [] ct p Hc HB
                ltac:(constructor) eq_refl ltac:(done) ltac:(lia)) as Hseq.
  cbn [concat app] in Hseq. change (len (@nil bytes)) with 0 in Hseq.
  rewrite Z.add_0_r, wrap64_small in Hseq by done.
  rewrite (Hseq Hp). cbn [concat]. by rewrite app_nil_r.
Qed.

(** X10.  A ciphertext of [n >= 1] whole blocks that all decrypt comes
    back as the plaintexts in block order, on each of the three paths
    [DecryptBlocks] chooses between and for every order in which the
    goroutines of the parallel path run. *)
Theorem whole_group_decrypts MAX numCPU cc pbs be sched ct first F n plains :
  typed MAX cc pbs →
  float64.fits numCPU →
  contentenc.New MAX numCPU cc pbs = Ret be →
  0 ≤ first < 2 ^ 64 →
  1 ≤ n →
  len ct = n * cipherBS be →
  (ShouldUseParallel (parallelCrypto be) n = true →
   ∀ d, ProcessBlocksParallel (parallelCrypto be) n = Ret d → schedule_of d sched) →
  Forall2 (λ i p, DecryptBlock be (cipherBlock be ct i)
                    (wrap64 (first + i)) F = Ret (Ok p))
          (seqZ 0 n) plains →
  DecryptBlocks be sched ct first F = Ret (concat plains, None).
Proof. apply DecryptBlocks_whole_group. Qed.

(** X10 at a concrete input. *)
Lemma whole_group_decrypts_witness :
  DecryptBlocks standin.be_small [] (take 66 standin.group_cipher) 10 None
  = Ret (concat (take 3 standin.group_plain), None).
Proof.
  apply (whole_group_decrypts 1048576 4 (standin.cc [x07] 2) 4 standin.be_small
           [] (take 66 standin.group_cipher) 10 None 3 (take 3 standin.group_plain)).
  - unfold typed. cbn. lia.
  - unfold float64.fits. lia.
  - reflexivity.
  - lia.
  - lia.
  - reflexivity.
  - intros H. vm_compute in H. discriminate H.
  - repeat constructor; vm_compute; reflexivity.
Defined.

Lemma in_range_of_Permutation (sched : list Z) n :
  sched ≡ₚ seqZ 0 n → Forall (λ j, 0 ≤ j < n) sched.
Proof. intros ->. apply Forall_seqZ. lia. Qed.

(** The group paths when a block fails: the closure run over the blocks
    in the order [order]. *)
Lemma group_run_fails be ct first F n (order pre post : list Z) i e :
  valid_fileID F →
  0 ≤ n →
  order ≡ₚ seqZ 0 n →
  order = pre ++ i :: post →
  Forall (λ j, ∃ p, DecryptBlock be (cipherBlock be ct j)
                      (wrap64 (first + j)) F = Ret (Ok p)) pre →
  DecryptBlock be (cipherBlock be ct i) (wrap64 (first + i)) F = Ret (Err e) →
  ∃ st, runSteps (blockStep be (splitBlocks be ct n) first F) order
          {| plainBlocks := replicate (Z.to_nat n) []; decryptErr := None |}
        = Ret st
        ∧ decryptErr st = Some e.
Proof.
  intros HF Hn Hperm -> Hpre Hi.
  pose proof (in_range_of_Permutation _ _ Hperm) as Hrange.
  assert (Hlk : ∀ j, 0 ≤ j < n →
            default [] (splitBlocks be ct n !! Z.to_nat j) = cipherBlock be ct j).
  { intros j Hj. rewrite splitBlocks_lookup by lia. cbn. f_equal. lia. }
  assert (Hlen : len (splitBlocks be ct n) = n).
  { unfold len. rewrite length_splitBlocks. lia. }
  apply runSteps_first_error; [done| by rewrite Hlen | | | done].
  - apply Forall_app in Hrange as [Hrpre _].
    rewrite Forall_forall in Hpre, Hrpre. apply Forall_forall. intros j Hj.
    destruct (Hpre j Hj) as [p Hp]. exists p.
    by rewrite Hlk, wrap64_add_wrap64 by (by apply Hrpre).
  - apply Forall_app in Hrange as [_ Hr]. apply Forall_cons in Hr as [Hri _].
    by rewrite Hlk, wrap64_add_wrap64.
Qed.

(** X11.  On the batch and the parallel path a block that fails costs
    the whole group: [DecryptBlocks] returns no plaintext, and the error
    of the failing block that was decrypted first.  On the batch path
    that is the failing block with the lowest number; on the parallel
    path it is the first in the order the goroutines ran. *)
Theorem group_failure_discards_plaintext MAX numCPU cc pbs be ct first F n :
  typed MAX cc pbs →
  float64.fits numCPU →
  contentenc.New MAX numCPU cc pbs = Ret be →
  valid_fileID F →
  n = len ct `quot` cipherBS be →
  2 ≤ n →
  (ShouldUseParallel (parallelCrypto be) n = false →
   ∀ sched i e,
     0 ≤ i < n →
     (∀ j, 0 ≤ j < i →
        ∃ p, DecryptBlock be (cipherBlock be ct j) (wrap64 (first + j)) F = Ret (Ok p)) →
     DecryptBlock be (cipherBlock be ct i) (wrap64 (first + i)) F = Ret (Err e) →
     DecryptBlocks be sched ct first F = Ret ([], Some e))
  ∧ (ShouldUseParallel (parallelCrypto be) n = true →
     ∀ d sched pre i post e,
       ProcessBlocksParallel (parallelCrypto be) n = Ret d →
       schedule_of d sched →
       sched = pre ++ i :: post →
       Forall (λ j, ∃ p, DecryptBlock be (cipherBlock be ct j)
                           (wrap64 (first + j)) F = Ret (Ok p)) pre →
       DecryptBlock be (cipherBlock be ct i) (wrap64 (first + i)) F = Ret (Err e) →
       DecryptBlocks be sched ct first F = Ret ([], Some e)).
Proof.
  intros Ht _ HN HF Hquot Hn.
  destruct (New_cipherBS _ _ _ _ _ Ht HN) as [Hc Hpc].
  assert (Hunfold : ∀ sched,
    DecryptBlocks be sched ct first F
    = if ShouldUseParallel (parallelCrypto be) n
      then decryptBlocksParallel be sched ct first F n
      else decryptBlocksBatch be ct first F n).
  { intros sched. unfold DecryptBlocks. rewrite int_of_uint64_small by lia.
    destruct (Z.eqb_spec (cipherBS be) 0); [lia|]. rewrite <- Hquot.
    destruct (Z.eqb_spec n 0); [lia|].
    destruct (ShouldUseParallel _ _); [done|].
    rewrite Hpc, ShouldUseBatch_New. by destruct (Z.geb_spec n 2); [|lia]. }
  split.
  - intros Hpar sched i e Hi Hpre He. rewrite Hunfold, Hpar.
    unfold decryptBlocksBatch.
    pose proof (ProcessBlocksBatch_tiles (parallelCrypto be) n ltac:(lia)) as Htiles.
    destruct (ProcessBlocksBatch (parallelCrypto be) n) as [calls|calls] eqn:Hd.
    2:{ revert Hd. unfold ProcessBlocksBatch. by destruct (negb _). }
    cbn [runDispatch calls_of] in *.
    destruct (tiles_concat _ _ _ Htiles) as [_ Hcat]. rewrite Z.sub_0_r in Hcat.
    rewrite Hcat.
    destruct (group_run_fails be ct first F n (seqZ 0 n)
                (seqZ 0 i) (seqZ (i + 1) (n - i - 1)) i e)
      as (st & Hrun & Herr); [done | lia | done | | | done |].
    + replace n with (i + (n - i)) at 1 by lia. rewrite seqZ_app by lia.
      f_equal. rewrite Z.add_0_l. rewrite (seqZ_cons i) by lia.
      f_equal.
    + apply Forall_seqZ. intros j Hj. apply Hpre. lia.
    + rewrite Hrun. cbn [mbind outcome_bind]. unfold assemble. by rewrite Herr.
  - intros Hpar d sched pre i post e Hd Hsched Hsplit Hpre He.
    rewrite Hunfold, Hpar. unfold decryptBlocksParallel. rewrite Hd.
    cbn [mbind outcome_bind].
    destruct (ProcessBlocksParallel_tiles (parallelCrypto be) n ltac:(lia))
      as (d' & Hd' & Htiles).
    rewrite Hd in Hd'. injection Hd' as <-.
    rewrite runDispatch_runSteps by done.
    destruct (group_run_fails be ct first F n sched pre post i e)
      as (st & Hrun & Herr); [done | lia | | done..|].
    { by eapply schedule_of_Permutation. }
    rewrite Hrun. cbn [mbind outcome_bind]. unfold assemble. by rewrite Herr.
Qed.

Ltac pick k :=
  eapply (interleaving_step _ k); [reflexivity|]; cbn.

(** X11 at a concrete input. *)
Lemma group_failure_discards_plaintext_witness :
  DecryptBlock standin.be_small (cipherBlock standin.be_small standin.group_damaged 2)
    12 None = Ret (Err ErrAllZeroNonce)
  ∧ DecryptBlocks standin.be_small [5; 0; 6; 3; 1; 7; 2; 4] standin.group_damaged 10 None
    = Ret ([], Some ErrOpen).
Proof.
  split; [vm_compute; reflexivity|].
  destruct (group_failure_discards_plaintext 1048576 4 (standin.cc [x07] 2) 4
              standin.be_small standin.group_damaged 10 None 8) as [_ H].
  - unfold typed. cbn. lia.
  - unfold float64.fits. lia.
  - reflexivity.
  - exact I.
  - reflexivity.
  - lia.
  - apply (H eq_refl (Goroutines [(0, 1); (1, 2); (2, 3); (3, 4); (4, 5); (5, 8)])
             [5; 0; 6; 3; 1; 7; 2; 4] [5; 0] 6 [3; 1; 7; 2; 4] ErrOpen).
    + reflexivity.
    + cbn. pick 5%nat. pick 0%nat. pick 5%nat. pick 3%nat.
      pick 1%nat. pick 5%nat. pick 2%nat. pick 4%nat.
      apply interleaving_done. repeat constructor.
    + reflexivity.
    + repeat constructor; eexists; vm_compute; reflexivity.
    + vm_compute. reflexivity.
Defined.

(** X12.  Bytes after the last whole block.  With no whole block
    [DecryptBlocks] returns nothing and no error; with two or more it
    ignores the bytes, as if they were not there; only behind exactly one
    whole block are they decrypted, as the block that follows it. *)
Theorem trailing_partial_block MAX numCPU cc pbs be sched (whole tail : bytes)
    first F n :
  typed MAX cc pbs →
  contentenc.New MAX numCPU cc pbs = Ret be →
  0 ≤ n →
  len whole = n * cipherBS be →
  len tail < cipherBS be →
  (n = 0 → DecryptBlocks be sched (whole ++ tail) first F = Ret ([], None))
  ∧ (2 ≤ n →
     DecryptBlocks be sched (whole ++ tail) first F
     = DecryptBlocks be sched whole first F)
  ∧ (n = 1 → 0 ≤ first < 2 ^ 64 →
     ∀ p0 p1,
       DecryptBlock be whole first F = Ret (Ok p0) →
       DecryptBlock be tail (wrap64 (first + 1)) F = Ret (Ok p1) →
       DecryptBlocks be sched (whole ++ tail) first F = Ret (p0 ++ p1, None)).
Proof.
  intros Ht HN Hn Hw Htail.
  destruct (New_cipherBS _ _ _ _ _ Ht HN) as [Hc Hpc].
  pose proof (len_nonneg tail) as Ht0.
  assert (Hq : len (whole ++ tail) `quot` cipherBS be = n).
  { rewrite len_app, Hw. apply quot_whole_tail; lia. }
  assert (Hq' : len whole `quot` cipherBS be = n).
  { rewrite Hw. apply Z.quot_mul. lia. }
  unfold DecryptBlocks. rewrite int_of_uint64_small by lia.
  destruct (Z.eqb_spec (cipherBS be) 0); [lia|]. rewrite Hq, Hq'.
  split; [by intros ->|]. split.
  - intros H2. destruct (Z.eqb_spec n 0); [lia|].
    rewrite Hpc, ShouldUseBatch_New.
    destruct (Z.geb_spec n 2); [|lia].
    unfold decryptBlocksParallel, decryptBlocksBatch.
    by rewrite (splitBlocks_app be whole tail n Hc Hw).
  - intros -> HB p0 p1 Hp0 Hp1. cbn [Z.eqb].
    rewrite Hpc. cbn [ShouldUseParallel ShouldUseBatch parallelcrypto.New enabled negb].
    replace (1 >=? ParallelThreshold) with false by done.
    replace (1 >=? BatchThreshold) with false by done.
    assert (Hseq : decryptBlocksSequential be (whole ++ tail) first F
                   = Ret (p0 ++ p1, None)).
    { pose proof (decryptBlocksSequential_good be first F [whole] [p0] tail p1 Hc HB)
        as Hseq.
      cbn [concat] in Hseq. rewrite !app_nil_r in Hseq. apply Hseq.
      - repeat constructor. lia.
      - done.
      - intros [|k] c p; cbn; intros [= <-] [= <-].
        by rewrite Z.add_0_r, wrap64_small.
      - lia.
      - done. }
    by destruct (_ <? _).
Qed.

(** X12 at a concrete input. *)
Lemma trailing_partial_block_witness :
  DecryptBlocks standin.be_small [] (take 66 standin.group_cipher ++ [x01; x02; x03])
    10 None
  = DecryptBlocks standin.be_small [] (take 66 standin.group_cipher) 10 None.
Proof.
  destruct (trailing_partial_block 1048576 4 (standin.cc [x07] 2) 4 standin.be_small
              [] (take 66 standin.group_cipher) [x01; x02; x03] 10 None 3)
    as (_ & H & _).
  - unfold typed. cbn. lia.
  - reflexivity.
  - lia.
  - reflexivity.
  - unfold len. cbn. lia.
  - apply H. lia.
Defined.

End group_paths.

(** ** Encrypting a group *)

Section group_encryption.
Import cryptocore contentenc parallelcrypto.

(** Steps that each fill the slot of their index, run over a schedule
    that visits every index once. *)
Lemma runSteps_slots {A} (step : list A → Z → outcome (list A)) (vals : list A) :
  (∀ st i v, vals !! Z.to_nat i = Some v → 0 ≤ i →
     step st i = Ret (<[Z.to_nat i := v]> st)) →
  ∀ sched st,
    length st = length vals →
    Forall (λ i, 0 ≤ i < Z.of_nat (length vals)) sched →
    ∃ st', runSteps step sched st = Ret st'
      ∧ length st' = length vals
      ∧ ∀ j : nat, st' !! j
                   = if bool_decide (Z.of_nat j ∈ sched) then vals !! j else st !! j.
Proof.
  intros Hstep. induction sched as [|i rest IH]; intros st Hlen Hall.
  - exists st. split; [done|]. split; [done|]. intros j.
    rewrite bool_decide_eq_false_2; [done|]. apply not_elem_of_nil.
  - apply Forall_cons in Hall as [Hi Hrest]. cbn [runSteps].
    destruct (lookup_lt_is_Some_2 vals (Z.to_nat i) ltac:(lia)) as [v Hv].
    rewrite (Hstep st i v Hv) by lia. cbn [mbind outcome_bind].
    destruct (IH (<[Z.to_nat i := v]> st)) as (st' & Hrun & Hl' & Hlk).
    { by rewrite length_insert. }
    { done. }
    exists st'. split; [done|]. split; [done|]. intros j. rewrite Hlk.
    destruct (decide (Z.of_nat j ∈ rest)) as [Hin|Hnin].
    + rewrite !bool_decide_eq_true_2; [done| |done]. by apply list_elem_of_further.
    + rewrite (bool_decide_eq_false_2 _ Hnin).
      destruct (decide (j = Z.to_nat i)) as [->|Hne].
      * rewrite list_lookup_insert_eq by lia.
        rewrite bool_decide_eq_true_2; [done|].
        apply elem_of_cons. left. lia.
      * rewrite list_lookup_insert_ne by done.
        rewrite bool_decide_eq_false_2; [done|].
        intros [Heq|?]%elem_of_cons; [lia|done].
Qed.

Lemma runSteps_slots_all {A} (step : list A → Z → outcome (list A)) (vals : list A)
    (x : A) sched :
  (∀ st i v, vals !! Z.to_nat i = Some v → 0 ≤ i →
     step st i = Ret (<[Z.to_nat i := v]> st)) →
  sched ≡ₚ seqZ 0 (Z.of_nat (length vals)) →
  runSteps step sched (replicate (length vals) x) = Ret vals.
Proof.
  intros Hstep Hperm.
  destruct (runSteps_slots step vals Hstep sched (replicate (length vals) x))
    as (st' & Hrun & Hl & Hlk).
  { apply length_replicate. }
  { rewrite Hperm. apply Forall_seqZ. lia. }
  rewrite Hrun. f_equal. apply list_eq. intros j. rewrite Hlk.
  destruct (decide (j < length vals)%nat).
  - rewrite bool_decide_eq_true_2; [done|]. rewrite Hperm. apply elem_of_seqZ. lia.
  - rewrite bool_decide_eq_false_2.
    + rewrite !lookup_ge_None_2; [done| lia |]. rewrite length_replicate. lia.
    + rewrite Hperm, elem_of_seqZ. lia.
Qed.

Lemma EncryptBlocks_run be nonces caps sched (blocks Cs : list bytes) first F :
  length Cs = length blocks →
  (∀ (k : nat) P C, blocks !! k = Some P → Cs !! k = Some C →
     EncryptBlock be (nonces (Z.of_nat k)) P (wrap64 (first + Z.of_nat k)) F = Ret C) →
  (∀ d, ProcessBlocksOptimized (parallelCrypto be) (len blocks) = Ret d →
        schedule_of d sched) →
  EncryptBlocks be nonces caps sched blocks first F
  = (putBlocks be caps 0 blocks Cs;; Ret (concat Cs)).
Proof.
  intros Hlen Henc Hsched. unfold EncryptBlocks.
  assert (Hstep : ∀ st i C, Cs !! Z.to_nat i = Some C → 0 ≤ i →
            encryptStep be nonces blocks first F st i = Ret (<[Z.to_nat i := C]> st)).
  { intros st i C HC Hi. unfold encryptStep.
    assert (Hlt : (Z.to_nat i < length blocks)%nat).
    { rewrite <- Hlen. by eapply lookup_lt_Some. }
    destruct (Z.ltb_spec i 0); [lia|].
    destruct (Z.leb_spec (len blocks) i); [unfold len in *; lia|]. cbn [orb].
    destruct (lookup_lt_is_Some_2 blocks (Z.to_nat i) Hlt) as [P HP].
    rewrite HP. change (default [] (Some P)) with P. rewrite wrap64_add_wrap64.
    pose proof (Henc _ _ _ HP HC) as HE. rewrite Z2Nat.id in HE by lia.
    by rewrite HE. }
  destruct (decide (blocks = [])) as [->|Hne].
  { destruct Cs; [|done].
    unfold ProcessBlocksOptimized, ShouldUseParallel, ShouldUseBatch.
    destruct (negb _); [done|]. by destruct (_ <? _). }
  assert (Hn : 1 ≤ len blocks).
  { unfold len. destruct blocks; [done|]. cbn [length]. lia. }
  destruct (ProcessBlocksOptimized_tiles (parallelCrypto be) (len blocks) Hn)
    as (d & Hd & Htiles).
  rewrite Hd. cbn [mbind outcome_bind].
  rewrite runDispatch_runSteps by (by apply Hsched).
  rewrite <- Hlen.
  rewrite (runSteps_slots_all _ Cs [] sched Hstep); [done|].
  rewrite Hlen. by apply (schedule_of_Permutation d), Hsched.
Qed.

(** The pool takes every block back, or the first it refuses stops the
    loop. *)
Lemma putBlocks_ok be caps (blocks Cs : list bytes) : ∀ i,
  (∀ (k : nat) P C, blocks !! k = Some P → Cs !! k = Some C →
     capEncrypted be (caps (i + Z.of_nat k)) P C = int_of_uint64 (cipherBS be)) →
  putBlocks be caps i blocks Cs = Ret tt.
Proof.
  revert Cs. induction blocks as [|P blocks IH]; intros Cs i Hall; [done|].
  destruct Cs as [|C Cs]; [done|]. cbn [putBlocks]. unfold cBlockPool_Put.
  pose proof (Hall 0%nat P C eq_refl eq_refl) as H0. rewrite Z.add_0_r in H0.
  rewrite H0, Z.eqb_refl. cbn [mbind outcome_bind].
  apply IH. intros k P' C' HP HC.
  replace (i + 1 + Z.of_nat k) with (i + Z.of_nat (S k)) by lia. by apply Hall.
Qed.

Lemma putBlocks_refused be caps (blocks Cs : list bytes) : ∀ i (k : nat) P C,
  blocks !! k = Some P →
  Cs !! k = Some C →
  capEncrypted be (caps (i + Z.of_nat k)) P C ≠ int_of_uint64 (cipherBS be) →
  putBlocks be caps i blocks Cs = Abort (Panic "wrong len=%d, want=%d").
Proof.
  revert Cs. induction blocks as [|P0 blocks IH]; intros Cs i k P C HP HC Hcap;
    [done|].
  destruct Cs as [|C0 Cs]; [done|]. cbn [putBlocks]. unfold cBlockPool_Put at 1.
  destruct (Z.eqb_spec (capEncrypted be (caps i) P0 C0) (int_of_uint64 (cipherBS be)))
    as [Heq|Hne]; [|done].
  cbn [mbind outcome_bind]. destruct k as [|k].
  - cbn in HP, HC. injection HP as <-. injection HC as <-.
    rewrite Z.add_0_r in Hcap. done.
  - apply (IH Cs (i + 1) k P C); [done|done|].
    by replace (i + 1 + Z.of_nat k) with (i + Z.of_nat (S k)) by lia.
Qed.

(** What [EncryptBlock] returns for one block on a codec built by [New],
    and the capacity it comes with. *)
Lemma EncryptBlock_sealed MAX numCPU cc pbs be nonce capIn P B F :
  typed MAX cc pbs →
  contentenc.New MAX numCPU cc pbs = Ret be →
  (∀ n p ad, len (Seal (AEADCipher cc) n p ad) = len p + AuthTagLen) →
  valid_fileID F →
  len nonce = IVLen cc →
  let C := if len P =? 0 then P
           else nonce ++ Seal (AEADCipher cc) nonce P
                           (binary.BigEndian_PutUint64 B ++ default [] F) in
  EncryptBlock be nonce P B F = Ret C
  ∧ (capEncrypted be capIn P C = int_of_uint64 (cipherBS be)
     ↔ if len P =? 0 then capIn = cipherBS be else len P ≤ plainBS be).
Proof.
  intros Ht HN Hseal HF Hn C.
  destruct (New_cipherBS _ _ _ _ _ Ht HN) as [Hc _].
  destruct (New_inv _ _ _ _ _ Ht HN) as (Hbe & Hp & Hiv).
  assert (Hpbs : plainBS be = pbs) by (by rewrite Hbe).
  assert (Hcbs : cipherBS be = pbs + IVLen cc + AuthTagLen) by (by rewrite Hbe).
  rewrite int_of_uint64_small by lia.
  unfold capEncrypted. rewrite int_of_uint64_small by lia. subst C.
  destruct (Z.eqb_spec (len P) 0) as [H0|H0].
  - split; [|done]. unfold EncryptBlock, doEncryptBlock. by rewrite H0.
  - assert (HP : P ≠ []) by (intros ->; by apply H0).
    split.
    + unfold EncryptBlock.
      by apply (doEncryptBlock_nonempty MAX numCPU cc pbs be P B F nonce Ht HN Hseal).
    + rewrite len_app, Hseal, Hn, Hpbs, Hcbs. unfold AuthTagLen.
      destruct (Z.leb_spec (IVLen cc + (len P + 16)) (pbs + IVLen cc + 16)); lia.
Qed.

(** X13.  [EncryptBlocks] on a codec built by [New], whatever mode the
    driver picks and in whatever order the goroutines finish.  Every
    block is encrypted under its block number, an empty block staying
    empty; then every block is handed to the pool of ciphertext blocks,
    which takes only slices of [cipherBS] bytes capacity.  So the call
    returns the ciphertexts in block order when every block is non-empty
    and at most [plainBS] bytes long; it panics when one block is longer,
    or is empty (unless the caller's empty slice happens to have that
    capacity). *)
Theorem EncryptBlocks_in_block_order MAX numCPU cc pbs be nonces caps sched
    (blocks : list bytes) first F :
  typed MAX cc pbs →
  float64.fits numCPU →
  contentenc.New MAX numCPU cc pbs = Ret be →
  (∀ n p ad, len (Seal (AEADCipher cc) n p ad) = len p + AuthTagLen) →
  valid_fileID F →
  (∀ i, 0 ≤ i < len blocks → len (nonces i) = IVLen cc) →
  (∀ d, ProcessBlocksOptimized (parallelCrypto be) (len blocks) = Ret d →
        schedule_of d sched) →
  let sealed (k : nat) (P : bytes) :=
    if len P =? 0 then P
    else nonces (Z.of_nat k)
           ++ Seal (AEADCipher cc) (nonces (Z.of_nat k)) P
                (binary.BigEndian_PutUint64 (wrap64 (first + Z.of_nat k))
                   ++ default [] F) in
  let taken (k : nat) (P : bytes) :=
    if len P =? 0 then caps (Z.of_nat k) = cipherBS be else len P ≤ plainBS be in
  ((∀ (k : nat) P, blocks !! k = Some P → taken k P) →
   EncryptBlocks be nonces caps sched blocks first F
   = Ret (concat (imap sealed blocks)))
  ∧ (∀ (k : nat) P, blocks !! k = Some P → ¬ taken k P →
       EncryptBlocks be nonces caps sched blocks first F
       = Abort (Panic "wrong len=%d, want=%d")).
Proof.
  intros Ht _ HN Hseal HF Hnonces Hsched sealed taken.
  assert (Hlen : length (imap sealed blocks) = length blocks) by apply length_imap.
  assert (Hblock : ∀ (k : nat) P C,
            blocks !! k = Some P → imap sealed blocks !! k = Some C →
            EncryptBlock be (nonces (Z.of_nat k)) P (wrap64 (first + Z.of_nat k)) F
            = Ret C
            ∧ (capEncrypted be (caps (Z.of_nat k)) P C = int_of_uint64 (cipherBS be)
               ↔ taken k P)).
  { intros k P C HP HC. rewrite list_lookup_imap, HP in HC. injection HC as <-.
    apply (EncryptBlock_sealed MAX numCPU cc pbs); try done.
    apply Hnonces. apply lookup_lt_Some in HP. unfold len. lia. }
  assert (Hrun := EncryptBlocks_run be nonces caps sched blocks (imap sealed blocks)
                    first F Hlen (λ k P C HP HC, proj1 (Hblock k P C HP HC)) Hsched).
  rewrite Hrun. split.
  - intros Hall. rewrite putBlocks_ok; [done|].
    intros k P C HP HC. rewrite Z.add_0_l. apply (Hblock k P C HP HC). by apply Hall.
  - intros k P HP Hnot.
    destruct (lookup_lt_is_Some_2 (imap sealed blocks) k) as [C HC].
    { rewrite Hlen. by eapply lookup_lt_Some. }
    rewrite (putBlocks_refused be caps blocks (imap sealed blocks) 0 k P C HP HC);
      [done|].
    rewrite Z.add_0_l. intros Hcap. apply Hnot. by apply (Hblock k P C HP HC).
Qed.

(** X13 at the stand-in codec: three full blocks, then an empty block
    ahead of a full one. *)
Lemma EncryptBlocks_in_block_order_witness :
  EncryptBlocks standin.be_small standin.group_nonces (λ _, 0) [0; 1; 2]
    (take 3 standin.group_plain) 10 None
  = Ret (take 66 standin.group_cipher)
  ∧ EncryptBlocks standin.be_small standin.group_nonces (λ _, 0) [0; 1]
      [[]; [x41; x41; x41; x41]] 10 None
    = Abort (Panic "wrong len=%d, want=%d").
Proof.
  split.
  - destruct (EncryptBlocks_in_block_order 1048576 4 (standin.cc [x07] 2) 4
                standin.be_small standin.group_nonces (λ _, 0) [0; 1; 2]
                (take 3 standin.group_plain) 10 None) as [H _].
    + unfold typed. cbn. lia.
    + unfold float64.fits. lia.
    + reflexivity.
    + intros n p ad. apply (standin_correct [x07]).
    + exact I.
    + intros i Hi. reflexivity.
    + intros d Hd. vm_compute in Hd. injection Hd as <-. reflexivity.
    + rewrite H; [vm_compute; reflexivity|].
      intros [|[|[|k]]] P; cbn; intros [= <-]; vm_compute; discriminate.
  - destruct (EncryptBlocks_in_block_order 1048576 4 (standin.cc [x07] 2) 4
                standin.be_small standin.group_nonces (λ _, 0) [0; 1]
                [[]; [x41; x41; x41; x41]] 10 None) as [_ H].
    + unfold typed. cbn. lia.
    + unfold float64.fits. lia.
    + reflexivity.
    + intros n p ad. apply (standin_correct [x07]).
    + exact I.
    + intros i Hi. reflexivity.
    + intros d Hd. vm_compute in Hd. injection Hd as <-. reflexivity.
    + apply (H 0%nat []); [reflexivity|]. vm_compute. discriminate.
Defined.

Lemma DecryptBlock_sealed MAX numCPU cc pbs be nonce P B F :
  typed MAX cc pbs →
  contentenc.New MAX numCPU cc pbs = Ret be →
  AEAD_correct (AEADCipher cc) →
  len nonce = IVLen cc →
  nonce ≠ make (IVLen cc) →
  valid_fileID F →
  P ≠ [] →
  DecryptBlock be
    (nonce ++ Seal (AEADCipher cc) nonce P
                (binary.BigEndian_PutUint64 B ++ default [] F)) B F
  = Ret (Ok P).
Proof.
  intros Ht HN [Hos Hsl] Hn Hnz HF HP.
  destruct (New_inv _ _ _ _ _ Ht HN) as (-> & Hp & Hiv).
  set (ad := binary.BigEndian_PutUint64 B ++ default [] F).
  set (sealed := Seal (AEADCipher cc) nonce P ad).
  unfold DecryptBlock. cbn [cryptoCore allZeroBlock allZeroNonce plainBS].
  assert (Hsealed : len sealed = len P + AuthTagLen) by apply Hsl.
  pose proof (len_nonneg P).
  unfold AuthTagLen in *.
  rewrite len_app.
  destruct (Z.eqb_spec (len nonce + len sealed) 0); [lia|].
  assert (Htake : slice_to (nonce ++ sealed) (IVLen cc) = nonce).
  { rewrite <- Hn. apply slice_to_app_len. }
  assert (Hdrop : slice_from (nonce ++ sealed) (IVLen cc) = sealed).
  { rewrite <- Hn. apply slice_from_app_len. }
  destruct (bytes_Equal (nonce ++ sealed) (make (pbs + IVLen cc + 16))) eqn:Hz.
  { apply bytes_Equal_true in Hz. exfalso. apply Hnz.
    rewrite <- Htake, Hz. unfold slice_to. apply take_make. lia. }
  destruct (Z.ltb_spec (len nonce + len sealed) (IVLen cc)); [lia|].
  rewrite Htake, Hdrop.
  apply bytes_Equal_false in Hnz. rewrite Hnz.
  rewrite concatAD_valid by done. cbn [mbind outcome_bind].
  fold ad. unfold sealed. by rewrite Hos.
Qed.

Lemma cipherBlock_concat be (Cs : list bytes) (k : nat) C :
  0 < cipherBS be < 2 ^ 63 →
  Forall (λ c, len c = cipherBS be) Cs →
  Cs !! k = Some C →
  cipherBlock be (concat Cs) (Z.of_nat k) = C.
Proof.
  intros Hc Hfull Hk.
  rewrite <- (take_drop_middle Cs k C Hk).
  rewrite concat_app. cbn [concat].
  assert (Hpre : Forall (λ c, len c = cipherBS be) (take k Cs)).
  { by apply Forall_take. }
  pose proof (length_concat_full _ _ Hpre) as Hl.
  rewrite length_take in Hl. apply lookup_lt_Some in Hk as Hlt.
  replace (k `min` length Cs)%nat with k in Hl by lia.
  unfold cipherBlock. rewrite int_of_uint64_small by lia.
  rewrite <- Hl, slice_from_app_len.
  rewrite Forall_forall in Hfull.
  rewrite <- (Hfull C) by (by eapply list_elem_of_lookup_2).
  apply slice_to_app_len.
Qed.

(** X14.  A group of full plaintext blocks that [EncryptBlocks] encrypted
    is [len(blocks)] ciphertext blocks long, and [DecryptBlocks] gives the
    plaintext back, whatever modes the two drivers pick and in whatever
    order their goroutines run. *)
Theorem group_roundtrip MAX numCPU cc pbs be nonces caps esched dsched
    (blocks : list bytes) first F :
  typed MAX cc pbs →
  float64.fits numCPU →
  contentenc.New MAX numCPU cc pbs = Ret be →
  AEAD_correct (AEADCipher cc) →
  valid_fileID F →
  0 ≤ first < 2 ^ 64 →
  blocks ≠ [] →
  Forall (λ P, len P = plainBS be) blocks →
  (∀ i, 0 ≤ i < len blocks →
        len (nonces i) = IVLen cc ∧ nonces i ≠ make (IVLen cc)) →
  (∀ d, ProcessBlocksOptimized (parallelCrypto be) (len blocks) = Ret d →
        schedule_of d esched) →
  (ShouldUseParallel (parallelCrypto be) (len blocks) = true →
   ∀ d, ProcessBlocksParallel (parallelCrypto be) (len blocks) = Ret d →
        schedule_of d dsched) →
  ∃ C, EncryptBlocks be nonces caps esched blocks first F = Ret C
       ∧ len C = len blocks * cipherBS be
       ∧ DecryptBlocks be dsched C first F = Ret (concat blocks, None).
Proof.
  intros Ht Hfits HN Haead HF HB Hne Hfull Hnonces Hes Hds.
  destruct (New_inv _ _ _ _ _ Ht HN) as (Hbe & Hp & Hiv).
  destruct (New_cipherBS _ _ _ _ _ Ht HN) as [Hc Hpc].
  assert (Hpbs : plainBS be = pbs) by (by rewrite Hbe).
  assert (Hcbs : cipherBS be = pbs + IVLen cc + AuthTagLen) by (by rewrite Hbe).
  set (sealed := λ (k : nat) (P : bytes),
         nonces (Z.of_nat k)
           ++ Seal (AEADCipher cc) (nonces (Z.of_nat k)) P
                (binary.BigEndian_PutUint64 (wrap64 (first + Z.of_nat k))
                   ++ default [] F)).
  set (Cs := imap sealed blocks).
  assert (Hlen : length Cs = length blocks) by apply length_imap.
  assert (Hlk : ∀ (k : nat) P C, blocks !! k = Some P → Cs !! k = Some C →
            C = sealed k P ∧ P ≠ [] ∧ 0 ≤ Z.of_nat k < len blocks).
  { intros k P C HP HC. subst Cs. rewrite list_lookup_imap, HP in HC.
    injection HC as <-. split; [done|]. split.
    - rewrite Forall_forall in Hfull.
      pose proof (Hfull P ltac:(by eapply list_elem_of_lookup_2)) as HlP.
      intros ->. unfold len in HlP. cbn in HlP. lia.
    - apply lookup_lt_Some in HP. unfold len. lia. }
  exists (concat Cs).
  assert (Hblock : ∀ (k : nat) P C, blocks !! k = Some P → Cs !! k = Some C →
            EncryptBlock be (nonces (Z.of_nat k)) P (wrap64 (first + Z.of_nat k)) F
            = Ret C
            ∧ capEncrypted be (caps (Z.of_nat k)) P C = int_of_uint64 (cipherBS be)).
  { intros k P C HP HC. destruct (Hlk k P C HP HC) as (-> & HPne & Hk).
    destruct (Hnonces _ Hk) as [Hnl _].
    destruct (EncryptBlock_sealed MAX numCPU cc pbs be (nonces (Z.of_nat k))
                (caps (Z.of_nat k)) P (wrap64 (first + Z.of_nat k)) F
                Ht HN (seal_length _ Haead) HF Hnl) as [He Hcap].
    assert (H0 : (len P =? 0) = false).
    { destruct (Z.eqb_spec (len P) 0) as [H0|]; [|done].
      by apply len_zero_nil in H0. }
    rewrite H0 in He, Hcap. split; [exact He|]. apply Hcap.
    rewrite Forall_forall in Hfull.
    rewrite (Hfull P) by (by eapply list_elem_of_lookup_2). lia. }
  assert (Henc : EncryptBlocks be nonces caps esched blocks first F
                 = Ret (concat Cs)).
  { rewrite (EncryptBlocks_run be nonces caps esched blocks Cs first F Hlen
               (λ k P C HP HC, proj1 (Hblock k P C HP HC)) Hes).
    rewrite putBlocks_ok; [done|].
    intros k P C HP HC. rewrite Z.add_0_l. apply (Hblock k P C HP HC). }
  assert (HCfull : Forall (λ c, len c = cipherBS be) Cs).
  { apply Forall_forall. intros C [k HC]%list_elem_of_lookup_1.
    destruct (lookup_lt_is_Some_2 blocks k) as [P HP].
    { rewrite <- Hlen. by eapply lookup_lt_Some. }
    destruct (Hlk k P C HP HC) as (-> & HPne & Hk).
    destruct (Hnonces _ Hk) as [Hnl _].
    rewrite Forall_forall in Hfull.
    pose proof (Hfull P ltac:(by eapply list_elem_of_lookup_2)) as HlP.
    unfold sealed. rewrite len_app, (seal_length _ Haead), Hnl, HlP, Hpbs, Hcbs. lia. }
  assert (HlC : len (concat Cs) = len blocks * cipherBS be).
  { rewrite (length_concat_full _ _ HCfull), Hlen. done. }
  split; [done|]. split; [done|].
  apply (DecryptBlocks_whole_group MAX numCPU cc pbs be dsched (concat Cs) first F
           (len blocks) blocks); try done.
  { unfold len. destruct blocks; [done|]. cbn [length]. lia. }
  apply Forall2_same_length_lookup_2.
  { rewrite length_seqZ. unfold len. lia. }
  intros k i P Hi HP. apply lookup_seqZ in Hi as [-> Hk]. rewrite Z.add_0_l.
  destruct (lookup_lt_is_Some_2 Cs k) as [C HC].
  { rewrite Hlen. by eapply lookup_lt_Some. }
  rewrite (cipherBlock_concat be Cs k C Hc HCfull HC).
  destruct (Hlk k P C HP HC) as (-> & HPne & Hk').
  destruct (Hnonces _ Hk') as [Hnl Hnz].
  by apply (DecryptBlock_sealed MAX numCPU cc pbs).
Qed.

Ltac pick k :=
  eapply (interleaving_step _ k); [reflexivity|]; cbn.

(** X14 at a concrete input. *)
Lemma group_roundtrip_witness :
  ∃ C, EncryptBlocks standin.be_small standin.group_nonces (λ _, 4)
         [5; 0; 6; 3; 1; 7; 2; 4] standin.group_plain 10 None = Ret C
       ∧ len C = len standin.group_plain * cipherBS standin.be_small
       ∧ DecryptBlocks standin.be_small [0; 1; 2; 3; 4; 5; 6; 7] C 10 None
         = Ret (concat standin.group_plain, None).
Proof.
  apply (group_roundtrip 1048576 4 (standin.cc [x07] 2) 4 standin.be_small
           standin.group_nonces (λ _, 4) [5; 0; 6; 3; 1; 7; 2; 4]
           [0; 1; 2; 3; 4; 5; 6; 7]
           standin.group_plain 10 None).
  - unfold typed. cbn. lia.
  - unfold float64.fits. lia.
  - reflexivity.
  - apply standin_correct.
  - exact I.
  - lia.
  - done.
  - repeat constructor.
  - intros i Hi. split; [reflexivity|]. by intros [=].
  - intros d Hd. vm_compute in Hd. injection Hd as <-. cbn.
    pick 5%nat. pick 0%nat. pick 5%nat. pick 3%nat.
    pick 1%nat. pick 5%nat. pick 2%nat. pick 4%nat.
    apply interleaving_done. repeat constructor.
  - intros _ d Hd. vm_compute in Hd. injection Hd as <-. cbn.
    pick 0%nat. pick 1%nat. pick 2%nat. pick 3%nat.
    pick 4%nat. pick 5%nat. pick 5%nat. pick 5%nat.
    apply interleaving_done. repeat constructor.
Defined.

End group_encryption.

(** ** KDF constructors *)

Section kdf_constructors.
Import configfile.

Lemma shl_1_small k : 0 ≤ k ≤ 62 → shl 1 k = 2 ^ k.
Proof.
  intros Hk. unfold shl, int64.
  destruct (Z.geb_spec k 64); [lia|].
  rewrite Z.shiftl_1_l.
  assert (0 < 2 ^ k) by (apply Z.pow_pos_nonneg; lia).
  assert (2 ^ k ≤ 2 ^ 62) by (apply Z.pow_le_mono_r; lia).
  rewrite Z.mod_small; lia.
Qed.

Lemma shl_1_large k : 63 ≤ k → shl 1 k ≤ 0.
Proof.
  intros Hk. unfold shl, int64.
  destruct (Z.geb_spec k 64); [lia|].
  assert (k = 63) as -> by lia. by vm_compute.
Qed.

(** X15.  The scrypt cost [NewScryptKDF] sets: [2^17] for a [logN] of
    zero or less, [2^logN] for [logN] up to 62.  The KDF it returns passes
    its own validation exactly when [logN] is not positive or, cut to 32
    bits as the shift count is, lies between 10 and 62; a shift count of
    63 or more leaves an [N] that is not positive. *)
Theorem NewScryptKDF_cost (salt : bytes) (logN : Z) :
  len salt = cryptocore.KeyLen →
  (logN ≤ 0 → scrypt.N (scrypt.NewScryptKDF salt logN) = 2 ^ 17)
  ∧ (1 ≤ logN ≤ 62 → scrypt.N (scrypt.NewScryptKDF salt logN) = 2 ^ logN)
  ∧ (scrypt.validateParams (scrypt.NewScryptKDF salt logN) = None
     ↔ logN ≤ 0 ∨ 10 ≤ uint32 logN ≤ 62).
Proof.
  intros Hs. unfold scrypt.NewScryptKDF. cbn [scrypt.N].
  split; [|split].
  - intros H. destruct (Z.leb_spec logN 0); [by vm_compute|lia].
  - intros H. destruct (Z.leb_spec logN 0); [lia|].
    unfold uint32. rewrite Z.mod_small by lia. apply shl_1_small. lia.
  - rewrite scrypt_validateParams_None. cbn [scrypt.N scrypt.R scrypt.P scrypt.Salt
      scrypt.KeyLen]. rewrite Hs. unfold cryptocore.KeyLen.
    destruct (Z.leb_spec logN 0) as [Hle|Hgt].
    { split; [intros _; by left|]. intros _. by vm_compute. }
    assert (Hk : 0 ≤ uint32 logN < 2 ^ 32) by (apply Z.mod_pos_bound; lia).
    destruct (Z.le_gt_cases (uint32 logN) 62) as [Hsmall|Hlarge].
    + rewrite shl_1_small by lia. split.
      * intros (HN & _). right. split; [|done].
        destruct (Z.le_gt_cases 10 (uint32 logN)) as [|Hlt]; [done|].
        assert (2 ^ uint32 logN < 2 ^ 10) by (apply Z.pow_lt_mono_r; lia). lia.
      * intros [|[H10 _]]; [lia|].
        assert (2 ^ 10 ≤ 2 ^ uint32 logN) by (apply Z.pow_le_mono_r; lia). lia.
    + pose proof (shl_1_large (uint32 logN) ltac:(lia)). split.
      * intros (HN & _). lia.
      * intros [|[_ H62]]; lia.
Qed.

(** X15 at a concrete input. *)
Lemma NewScryptKDF_cost_witness :
  scrypt.N (scrypt.NewScryptKDF (replicate 32 x00) 0) = 2 ^ 17
  ∧ scrypt.N (scrypt.NewScryptKDF (replicate 32 x00) 16) = 2 ^ 16.
Proof.
  destruct (NewScryptKDF_cost (replicate 32 x00) 0 eq_refl) as (H0 & _).
  destruct (NewScryptKDF_cost (replicate 32 x00) 16 eq_refl) as (_ & H16 & _).
  split; [apply H0; lia | apply H16; lia].
Defined.

(** X16.  The Argon2id constructors.  A KDF built with the defaults, or
    with the recommended parameters, passes validation, so that
    [DeriveKey] reaches the library with memory 64 MiB, 3 iterations, 4
    lanes and a 32-byte key; one built with parameters of the caller's
    passes exactly when they are at or above the three floors. *)
Theorem Argon2id_constructors (salt : bytes) :
  len salt = cryptocore.KeyLen →
  argon2id.validateParams (argon2id.NewArgon2idKDF salt) = None
  ∧ (∀ ScryptParams IDKey pw,
       argon2id.DeriveKey ScryptParams IDKey (argon2id.NewArgon2idKDF salt) pw
       = Ret (IDKey pw salt 3 (64 * 1024) 4 32))
  ∧ (∀ memory iterations parallelism,
       argon2id.validateParams
         (argon2id.NewArgon2idKDFWithParams salt memory iterations parallelism) = None
       ↔ 16 * 1024 ≤ memory ∧ 1 ≤ iterations ∧ 1 ≤ parallelism)
  ∧ (let '(memory, iterations, parallelism) := argon2id.GetRecommendedArgon2idParams in
     argon2id.NewArgon2idKDFWithParams salt memory iterations parallelism
     = argon2id.NewArgon2idKDF salt).
Proof.
  intros Hs.
  assert (Hv : argon2id.validateParams (argon2id.NewArgon2idKDF salt) = None).
  { apply argon2id_validateParams_None. cbn. rewrite Hs.
    unfold argon2id.Argon2idDefaultMemory, argon2id.Argon2idDefaultIterations,
      argon2id.Argon2idDefaultParallelism, cryptocore.KeyLen. lia. }
  split; [done|]. split; [|split; [|done]].
  - intros code IDKey pw. unfold argon2id.DeriveKey. by rewrite Hv.
  - intros m i p. rewrite argon2id_validateParams_None. cbn. rewrite Hs.
    unfold cryptocore.KeyLen. lia.
Qed.

(** X16 at a concrete input. *)
Lemma Argon2id_constructors_witness :
  argon2id.validateParams (argon2id.NewArgon2idKDF (replicate 32 x00)) = None
  ∧ (argon2id.validateParams
       (argon2id.NewArgon2idKDFWithParams (replicate 32 x00) (8 * 1024) 3 4) = None
     ↔ 16 * 1024 ≤ 8 * 1024 ∧ 1 ≤ 3 ∧ 1 ≤ 4).
Proof.
  destruct (Argon2id_constructors (replicate 32 x00) eq_refl) as (H1 & _ & H2 & _).
  split; [exact H1 | apply H2].
Defined.

End kdf_constructors.

(** ** Filename MAC: answers and lengths *)

Section filename_answers.
Import filenameauth.

Lemma len_EncodeToString src :
  len (base64.EncodeToString src) = base64.EncodedLen (len src).
Proof.
  induction src as [| | |a b c l IH] using list_ind3; [done..|].
  cbn [base64.EncodeToString]. unfold len in *. cbn [length].
  rewrite !Nat2Z.inj_succ, IH. unfold base64.EncodedLen.
  rewrite !Z.quot_div_nonneg by lia.
  replace (Z.succ (Z.succ (Z.succ (Z.of_nat (length l))) ) + 2)
    with (Z.of_nat (length l) + 2 + 1 * 3) by lia.
  rewrite Z.div_add by lia. lia.
Qed.

Section MAC.
Variable hmac_sha256 : bytes → bytes → bytes.

Lemma VerifyFilename_split fa n m :
  enabled fa = true →
  x2e ∉ m →
  VerifyFilename hmac_sha256 fa (n ++ [x2e] ++ m)
  = match base64.DecodeString m with
    | Err e => Err (ErrDecodeMAC e)
    | Ok mac =>
        if bool_decide (mac = calculateMAC hmac_sha256 fa n) then Ok n
        else Err ErrMACMismatch
    end.
Proof.
  intros He Hm. unfold VerifyFilename. rewrite He. cbn [negb].
  assert (Hsplit : splitAuthenticatedName (n ++ [x2e] ++ m) = [n; m]).
  { by apply splitAuthenticatedName_two. }
  rewrite Hsplit. destruct (base64.DecodeString m) as [mac|e]; [|done].
  unfold hmac_Equal. by case_bool_decide.
Qed.

(** X17.  What [VerifyFilename] answers.  With authentication off every
    name comes back unchanged.  With it on, a name without a separator is
    an invalid format; otherwise the name is cut at its last separator,
    a suffix that is not base64 is a decoding error, a decoded MAC other
    than the one of the prefix is a MAC mismatch, and only the MAC of the
    prefix returns the prefix. *)
Theorem VerifyFilename_answers (fa : FilenameAuth) :
  (enabled fa = false →
   ∀ s, VerifyFilename hmac_sha256 fa s = Ok s
        ∧ AuthenticateFilename hmac_sha256 fa s = Ok s)
  ∧ (enabled fa = true →
     ∀ s, x2e ∉ s → VerifyFilename hmac_sha256 fa s = Err ErrInvalidFormat)
  ∧ (enabled fa = true →
     ∀ n m, x2e ∉ m →
       VerifyFilename hmac_sha256 fa (n ++ [x2e] ++ m)
       = match base64.DecodeString m with
         | Err e => Err (ErrDecodeMAC e)
         | Ok mac =>
             if bool_decide (mac = calculateMAC hmac_sha256 fa n) then Ok n
             else Err ErrMACMismatch
         end).
Proof.
  split; [|split].
  - intros He s. unfold VerifyFilename, AuthenticateFilename. by rewrite He.
  - intros He s Hs. unfold VerifyFilename. rewrite He. cbn [negb].
    destruct (splitAuthenticatedName_cases s) as [(a & b & Hab)|Hone].
    + apply splitAuthenticatedName_two in Hab as [-> _].
      exfalso. apply Hs. apply elem_of_app. right. cbn [app].
      apply elem_of_cons. by left.
    + by rewrite Hone.
  - intros He n m Hm. by apply VerifyFilename_split.
Qed.

(** X18.  A name that carries the base64 of some bytes [m] as its MAC is
    accepted exactly when [m] is the MAC of the name, and is a MAC
    mismatch otherwise.  So a name authenticated under another key, or
    the MAC of one name put behind another, passes only where the two
    MACs are equal. *)
Theorem MAC_decides (fa : FilenameAuth) :
  enabled fa = true →
  (∀ n m,
     VerifyFilename hmac_sha256 fa (n ++ [x2e] ++ base64.EncodeToString m)
     = if bool_decide (m = calculateMAC hmac_sha256 fa n) then Ok n
       else Err ErrMACMismatch)
  ∧ (∀ fa' n a,
       enabled fa' = true →
       AuthenticateFilename hmac_sha256 fa' n = Ok a →
       VerifyFilename hmac_sha256 fa a = Ok n
       ↔ calculateMAC hmac_sha256 fa' n = calculateMAC hmac_sha256 fa n)
  ∧ (∀ n n',
       VerifyFilename hmac_sha256 fa
         (n' ++ [x2e] ++ base64.EncodeToString (calculateMAC hmac_sha256 fa n))
       = Ok n'
       ↔ calculateMAC hmac_sha256 fa n = calculateMAC hmac_sha256 fa n').
Proof.
  intros He.
  assert (H1 : ∀ n m,
     VerifyFilename hmac_sha256 fa (n ++ [x2e] ++ base64.EncodeToString m)
     = if bool_decide (m = calculateMAC hmac_sha256 fa n) then Ok n
       else Err ErrMACMismatch).
  { intros n m. rewrite VerifyFilename_split by (done || apply EncodeToString_no_sep).
    by rewrite DecodeString_EncodeToString. }
  split; [done|]. split.
  - intros fa' n a He' Ha. unfold AuthenticateFilename in Ha. rewrite He' in Ha.
    cbn [negb] in Ha. injection Ha as <-.
    change (n ++ x2e :: ?t) with (n ++ [x2e] ++ t). rewrite H1.
    case_bool_decide; split; (done || congruence).
  - intros n n'. rewrite H1. case_bool_decide; split; (done || congruence).
Qed.

(** X19.  Authenticating a name adds the separator and the padded base64
    of the MAC: with a 32-byte HMAC the name grows by 45 bytes, the suffix
    is [EncodedLen(GetMACLength())] bytes long and decodes to
    [GetMACLength()] bytes.  With authentication off nothing is added. *)
Theorem authenticated_name_length (fa : FilenameAuth) n a :
  (∀ key data, len (hmac_sha256 key data) = 32) →
  AuthenticateFilename hmac_sha256 fa n = Ok a →
  len a = len n + (if enabled fa then 45 else 0)
  ∧ (enabled fa = true →
     ∃ macB64 mac,
       a = n ++ GetSeparator fa ++ macB64
       ∧ len macB64 = base64.EncodedLen (GetMACLength fa)
       ∧ base64.DecodeString macB64 = Ok mac
       ∧ len mac = GetMACLength fa).
Proof.
  intros Hmac Ha. unfold AuthenticateFilename in Ha.
  destruct (enabled fa) eqn:He; cbn [negb] in Ha; injection Ha as <-.
  - assert (Hl : len (base64.EncodeToString (calculateMAC hmac_sha256 fa n)) = 44).
    { rewrite len_EncodeToString. unfold calculateMAC. by rewrite Hmac. }
    split.
    + change (n ++ x2e :: ?t) with (n ++ [x2e] ++ t).
      rewrite !len_app, Hl. unfold len. cbn. lia.
    + intros _. eexists _, _. split; [done|].
      unfold GetMACLength. rewrite He. cbn [negb].
      split; [by rewrite Hl|].
      split; [apply DecodeString_EncodeToString|apply Hmac].
  - split; [lia|done].
Qed.
End MAC.

(** X17 at a concrete input. *)
Lemma VerifyFilename_answers_witness :
  VerifyFilename standin.mac standin.fa standin.name_abc = Err ErrInvalidFormat.
Proof.
  destruct (VerifyFilename_answers standin.mac standin.fa) as (_ & H & _).
  apply H; [reflexivity|]. unfold standin.name_abc. cbn. intros Hin.
  repeat (apply elem_of_cons in Hin as [Hin|Hin]; [discriminate Hin|]).
  by apply elem_of_nil in Hin.
Defined.

(** X18 at a concrete input. *)
Lemma MAC_decides_witness :
  VerifyFilename standin.mac standin.fa
    (list_byte_of_string "abd" ++ [x2e]
       ++ base64.EncodeToString
            (calculateMAC standin.mac standin.fa standin.name_abc))
  = Err ErrMACMismatch.
Proof.
  destruct (MAC_decides standin.mac standin.fa eq_refl) as (H & _).
  rewrite H. reflexivity.
Defined.

(** X19 at a concrete input. *)
Lemma authenticated_name_length_witness :
  ∃ a, AuthenticateFilename standin.mac standin.fa standin.name_abc = Ok a
       ∧ len a = 3 + 45.
Proof.
  eexists. split; [reflexivity|].
  apply (authenticated_name_length standin.mac standin.fa standin.name_abc).
  - intros key data. unfold standin.mac, len. cbn [length].
    rewrite length_replicate. reflexivity.
  - reflexivity.
Defined.

End filename_answers.

(** ** The coalescing write buffer *)

Section write_buffer.
Import writecoalescing.

Lemma copy_make_all (b : bytes) : copy (make (len b)) b = b.
Proof.
  apply copy_same_length. rewrite length_make. unfold len. lia.
Qed.

Section buffer.
Context {World E : Type}.
Variable cb : bytes → Z → World → World * option E.

Lemma flushLocked_nonempty wb w :
  Buffer wb ≠ [] →
  flushLocked cb wb w
  = ({| Buffer := []; Offset := Offset wb; LastWriteTime := LastWriteTime wb;
        Config := Config wb |},
     (cb (Buffer wb) (Offset wb) w).1, (cb (Buffer wb) (Offset wb) w).2).
Proof.
  intros Hne. unfold flushLocked.
  destruct (Z.eqb_spec (len (Buffer wb)) 0) as [H0|_];
    [by apply len_zero_nil in H0|].
  rewrite copy_make_all. by destruct (cb _ _ _).
Qed.

Lemma flushLocked_empty wb w :
  Buffer wb = [] → flushLocked cb wb w = (wb, w, None).
Proof. intros Hb. unfold flushLocked. by rewrite Hb. Qed.

(** The buffer, the configuration and the size of the buffer after a
    flush. *)
Lemma flushLocked_buffer wb w :
  Buffer (flushLocked cb wb w).1.1 = []
  ∧ Config (flushLocked cb wb w).1.1 = Config wb.
Proof.
  destruct (decide (Buffer wb = [])) as [Hb|Hb].
  - by rewrite flushLocked_empty.
  - by rewrite flushLocked_nonempty.
Qed.

(** One [Write] of few bytes that needs no flush is appended. *)
Lemma Write_buffered wb now data offset w :
  Enabled (Config wb) = true →
  len data < Threshold (Config wb) →
  len (Buffer wb) + len data ≤ MaxSize (Config wb) →
  (Buffer wb ≠ [] → now - LastWriteTime wb ≤ Timeout (Config wb)) →
  Write cb wb now data offset w
  = ({| Buffer := Buffer wb ++ data;
        Offset := if len (Buffer wb) =? 0 then offset else Offset wb;
        LastWriteTime := now; Config := Config wb |}, w, None).
Proof.
  intros He Hsmall Hfit Htime. unfold Write. rewrite He. cbn [negb].
  destruct (Z.geb_spec (len data) (Threshold (Config wb))); [lia|].
  assert (Hnoflush : (len (Buffer wb) >? 0)
                     && (now - LastWriteTime wb >? Timeout (Config wb)) = false).
  { destruct (Z.gtb_spec (len (Buffer wb)) 0) as [Hpos|]; [|done].
    destruct (Z.gtb_spec (now - LastWriteTime wb) (Timeout (Config wb))); [|done].
    assert (Buffer wb ≠ []) by (intros Hb; rewrite Hb in Hpos; unfold len in Hpos;
                                cbn in Hpos; lia).
    specialize (Htime ltac:(done)). lia. }
  rewrite Hnoflush.
  by destruct (Z.gtb_spec (len (Buffer wb) + len data) (MaxSize (Config wb))); [lia|].
Qed.

Lemma Writes_buffered calls : ∀ wb w,
  Enabled (Config wb) = true →
  Forall (λ c, len c.1.2 < Threshold (Config wb)) calls →
  len (Buffer wb) + len (concat ((λ c, c.1.2) <$> calls)) ≤ MaxSize (Config wb) →
  in_time (Timeout (Config wb)) (LastWriteTime wb) calls →
  ∃ last,
    Writes cb wb calls w
    = ({| Buffer := Buffer wb ++ concat ((λ c, c.1.2) <$> calls);
          Offset := if len (Buffer wb) =? 0 then offsetOf calls (Offset wb)
                    else Offset wb;
          LastWriteTime := last; Config := Config wb |}, w).
Proof.
  induction calls as [|[[now data] offset] rest IH];
    intros wb w He Hsmall Hfit Htime.
  - exists (LastWriteTime wb). cbn. rewrite app_nil_r.
    destruct (len (Buffer wb) =? 0); by destruct wb.
  - apply Forall_cons in Hsmall as [Hs Hrest]. cbn [fst snd] in Hs.
    cbn [fmap list_fmap concat fst snd] in Hfit. rewrite len_app in Hfit.
    destruct Htime as [Ht Hchain].
    pose proof (len_nonneg (concat ((λ c, c.1.2) <$> rest))).
    pose proof (len_nonneg data). pose proof (len_nonneg (Buffer wb)).
    cbn [Writes]. rewrite Write_buffered by (done || lia).
    set (wb1 := {| Buffer := Buffer wb ++ data |}).
    destruct (IH wb1 w) as [last Hlast]; subst wb1; cbn [Config Buffer LastWriteTime];
      try done.
    { rewrite len_app. lia. }
    exists last. rewrite Hlast.
    cbn [Buffer Offset Config fmap list_fmap concat fst snd offsetOf].
    rewrite <- app_assoc, len_app. f_equal. f_equal.
    destruct (Z.eqb_spec (len (Buffer wb)) 0) as [Hz|Hz].
    + rewrite Hz, Z.add_0_l. by destruct (len data =? 0).
    + destruct (Z.eqb_spec (len (Buffer wb) + len data) 0); [lia|done].
Qed.
End buffer.

Lemma NewWriteBuffer_inv (config : option CoalesceConfig) wb :
  NewWriteBuffer config = Ret wb →
  wb = {| Buffer := []; Offset := 0; LastWriteTime := 0;
          Config := default DefaultConfig config |}
  ∧ 0 ≤ MaxSize (default DefaultConfig config).
Proof.
  unfold NewWriteBuffer.
  destruct (Z.ltb_spec (MaxSize (default DefaultConfig config)) 0); [done|].
  by intros [= <-].
Qed.

Section coalescing.
Context {World E : Type}.
Variable cb : bytes → Z → World → World * option E.

(** X20.  Small writes are coalesced: writes below the threshold that
    together fit into the buffer and follow each other within the
    timeout do not reach the callback; the buffer holds their data in the
    order written, at the offset of the first write that brought data
    (the first write, when its data is not empty).  The offsets of the
    writes after that one play no part.  A flush then hands the callback
    the whole in one call, and makes no call when no write brought
    data. *)
Theorem small_writes_coalesce cfg wb0 now0 data0 off0 rest w :
  NewWriteBuffer (Some cfg) = Ret wb0 →
  Enabled cfg = true →
  Forall (λ c, len c.1.2 < Threshold cfg) ((now0, data0, off0) :: rest) →
  len (concat ((λ c, c.1.2) <$> (now0, data0, off0) :: rest)) ≤ MaxSize cfg →
  in_time (Timeout cfg) now0 rest →
  let all := concat ((λ c, c.1.2) <$> (now0, data0, off0) :: rest) in
  let off := offsetOf ((now0, data0, off0) :: rest) 0 in
  ∃ wb, Writes (traced cb) wb0 ((now0, data0, off0) :: rest) (w, []) = (wb, (w, []))
    ∧ Buffer wb = all
    ∧ Offset wb = off
    ∧ (data0 ≠ [] → off = off0)
    ∧ Flush (traced cb) wb (w, [])
      = if len all =? 0 then (wb, (w, []), None)
        else ({| Buffer := []; Offset := off; LastWriteTime := LastWriteTime wb;
                 Config := cfg |},
              ((cb all off w).1, [(all, off)]), (cb all off w).2).
Proof.
  intros HN He Hsmall Hfit Htime all off.
  apply NewWriteBuffer_inv in HN as [-> _]. cbn [default from_option id] in *.
  apply Forall_cons in Hsmall as [Hs Hrest]. cbn [fst snd] in Hs.
  cbn [fmap list_fmap concat fst snd] in Hfit. rewrite len_app in Hfit.
  pose proof (len_nonneg (concat ((λ c, c.1.2) <$> rest))).
  cbn [Writes]. rewrite Write_buffered; cbn [Buffer Config]; try done.
  2:{ change (len (@nil byte)) with 0. lia. }
  change (len (@nil byte) =? 0) with true. cbn [app].
  set (wb1 := {| Buffer := data0 |}).
  destruct (Writes_buffered (traced cb) rest wb1 (w, [])) as [last Hlast];
    subst wb1; cbn [Config Buffer LastWriteTime]; try done.
  cbn [Buffer Offset] in Hlast.
  eexists. split; [exact Hlast|]. cbn [Buffer Offset Config LastWriteTime].
  split; [done|]. split; [done|]. split.
  { intros Hne. subst off. cbn [offsetOf].
    destruct (Z.eqb_spec (len data0) 0) as [H0|]; [|done].
    by apply len_zero_nil in H0. }
  change (data0 ++ concat ((λ c : Z * bytes * Z, c.1.2) <$> rest)) with all.
  change (if len data0 =? 0 then offsetOf rest off0 else off0) with off.
  unfold Flush. destruct (Z.eqb_spec (len all) 0) as [Hz|Hz].
  - apply flushLocked_empty. cbn [Buffer]. by apply len_zero_nil.
  - rewrite flushLocked_nonempty.
    + cbn [Buffer Offset Config LastWriteTime traced]. by destruct (cb _ _ _).
    + cbn [Buffer]. intros Hnil. apply Hz. by rewrite Hnil.
Qed.
End coalescing.

Section conservation.
Context {World E : Type}.
Variable cb : bytes → Z → World → World * option E.
Hypothesis cb_ok : ∀ data offset w, (cb data offset w).2 = None.

Lemma traced_call data offset w tr :
  traced cb data offset (w, tr)
  = (((cb data offset w).1, tr ++ [(data, offset)]), None).
Proof.
  unfold traced. pose proof (cb_ok data offset w) as Hok.
  destruct (cb data offset w) as [w' err]. cbn in *. by subst.
Qed.

Lemma flushLocked_traced wb w tr :
  ∃ wb' w' tr',
    flushLocked (traced cb) wb (w, tr) = (wb', (w', tr'), None)
    ∧ Buffer wb' = []
    ∧ Config wb' = Config wb
    ∧ concat tr'.*1 = concat tr.*1 ++ Buffer wb.
Proof.
  destruct (decide (Buffer wb = [])) as [Hb|Hb].
  - rewrite flushLocked_empty by done. eexists _, _, _. split; [done|].
    rewrite Hb, app_nil_r. done.
  - rewrite flushLocked_nonempty by done. rewrite traced_call. cbn [fst snd].
    eexists _, _, _. split; [done|]. cbn [Buffer Config].
    split; [done|]. split; [done|].
    rewrite fmap_app, concat_app. cbn. by rewrite app_nil_r.
Qed.

Lemma Write_traced wb now data offset w tr :
  (Enabled (Config wb) = false → Buffer wb = []) →
  ∃ wb' w' tr',
    Write (traced cb) wb now data offset (w, tr) = (wb', (w', tr'), None)
    ∧ Config wb' = Config wb
    ∧ (Enabled (Config wb) = false → Buffer wb' = [])
    ∧ concat tr'.*1 ++ Buffer wb' = concat tr.*1 ++ Buffer wb ++ data.
Proof.
  intros Hoff. unfold Write. destruct (Enabled (Config wb)); cbn [negb].
  2:{ rewrite traced_call. eexists _, _, _. split; [done|]. split; [done|].
      split; [done|].
      rewrite fmap_app, concat_app, (Hoff eq_refl). cbn. by rewrite !app_nil_r. }
  destruct (len data >=? Threshold (Config wb)).
  - (* a large write: flush, then write directly *)
    assert (Hflush : ∃ wb1 w1 tr1,
              (if len (Buffer wb) >? 0 then flushLocked (traced cb) wb (w, tr)
               else (wb, (w, tr), None)) = (wb1, (w1, tr1), None)
              ∧ Buffer wb1 = [] ∧ Config wb1 = Config wb
              ∧ concat tr1.*1 = concat tr.*1 ++ Buffer wb).
    { destruct (Z.gtb_spec (len (Buffer wb)) 0) as [|Hle];
        [apply flushLocked_traced|].
      eexists _, _, _. split; [done|].
      assert (Buffer wb = []) as ->.
      { apply len_zero_nil. pose proof (len_nonneg (Buffer wb)). lia. }
      by rewrite app_nil_r. }
    destruct Hflush as (wb1 & w1 & tr1 & -> & Hb1 & Hc1 & Htr1).
    rewrite traced_call. eexists _, _, _. split; [done|]. split; [done|].
    split; [done|].
    rewrite fmap_app, concat_app, Htr1, Hb1. cbn. by rewrite !app_nil_r, app_assoc.
  - (* a small write: flush on timeout, flush on size, append *)
    assert (Htime : ∃ wb1 w1 tr1,
              (if (len (Buffer wb) >? 0)
                  && (now - LastWriteTime wb >? Timeout (Config wb))
               then flushLocked (traced cb) wb (w, tr)
               else (wb, (w, tr), None)) = (wb1, (w1, tr1), None)
              ∧ Config wb1 = Config wb
              ∧ concat tr1.*1 ++ Buffer wb1 = concat tr.*1 ++ Buffer wb).
    { destruct (_ && _).
      - destruct (flushLocked_traced wb w tr) as (wb1 & w1 & tr1 & Hf & Hb & Hc & Ht).
        exists wb1, w1, tr1. by rewrite Hf, Hb, Ht, app_nil_r.
      - by eexists _, _, _. }
    destruct Htime as (wb1 & w1 & tr1 & -> & Hc1 & Htr1).
    assert (Hsize : ∃ wb2 w2 tr2,
              (if len (Buffer wb1) + len data >? MaxSize (Config wb1)
               then flushLocked (traced cb) wb1 (w1, tr1)
               else (wb1, (w1, tr1), None)) = (wb2, (w2, tr2), None)
              ∧ Config wb2 = Config wb1
              ∧ concat tr2.*1 ++ Buffer wb2 = concat tr1.*1 ++ Buffer wb1).
    { destruct (_ >? _).
      - destruct (flushLocked_traced wb1 w1 tr1) as (wb2 & w2 & tr2 & Hf & Hb & Hc & Ht).
        exists wb2, w2, tr2. by rewrite Hf, Hb, Ht, app_nil_r.
      - by eexists _, _, _. }
    destruct Hsize as (wb2 & w2 & tr2 & -> & Hc2 & Htr2).
    eexists _, _, _. split; [done|]. cbn [Config Buffer].
    split; [congruence|]. split; [done|].
    by rewrite app_assoc, Htr2, Htr1, <- app_assoc.
Qed.

Lemma Writes_traced calls : ∀ wb w tr,
  (Enabled (Config wb) = false → Buffer wb = []) →
  ∃ wb' w' tr',
    Writes (traced cb) wb calls (w, tr) = (wb', (w', tr'))
    ∧ Config wb' = Config wb
    ∧ concat tr'.*1 ++ Buffer wb'
      = concat tr.*1 ++ Buffer wb ++ concat ((λ c, c.1.2) <$> calls).
Proof.
  induction calls as [|[[now data] offset] rest IH]; intros wb w tr Hoff.
  - exists wb, w, tr. by rewrite app_nil_r.
  - cbn [Writes].
    destruct (Write_traced wb now data offset w tr Hoff)
      as (wb1 & w1 & tr1 & -> & Hc1 & Hoff1 & Htr1).
    destruct (IH wb1 w1 tr1) as (wb' & w' & tr' & Hrun & Hc' & Htr').
    { rewrite Hc1. exact Hoff1. }
    exists wb', w', tr'. split; [done|]. split; [congruence|].
    rewrite Htr', app_assoc, Htr1. cbn [fmap list_fmap concat fst snd].
    by rewrite <- !app_assoc.
Qed.

(** X21.  Nothing is lost or reordered while the callback succeeds.
    Whatever the sizes of the writes, the clock readings and the
    configuration, the data the callback has received, in the order of
    its calls, followed by what the buffer still holds, are the data
    written, in the order written; after [Close] the callback has
    received all of them and the buffer is empty. *)
Theorem writes_reach_the_callback_in_order config wb0 calls w :
  NewWriteBuffer config = Ret wb0 →
  ∃ wb w' tr,
    Writes (traced cb) wb0 calls (w, []) = (wb, (w', tr))
    ∧ concat tr.*1 ++ Buffer wb = concat ((λ c, c.1.2) <$> calls)
    ∧ ∃ wb' w'' tr',
        Close (traced cb) wb (w', tr) = (wb', (w'', tr'), None)
        ∧ Buffer wb' = []
        ∧ concat tr'.*1 = concat ((λ c, c.1.2) <$> calls).
Proof.
  intros [-> _]%NewWriteBuffer_inv.
  destruct (Writes_traced calls
              {| Buffer := []; Offset := 0; LastWriteTime := 0;
                 Config := default DefaultConfig config |} w [])
    as (wb & w' & tr & Hrun & _ & Htr); [done|].
  exists wb, w', tr. split; [done|]. split; [done|].
  destruct (flushLocked_traced wb w' tr) as (wb' & w'' & tr' & Hf & Hb & _ & Ht).
  exists wb', w'', tr'. split; [done|]. split; [done|]. by rewrite Ht.
Qed.
End conservation.

(** X21 at a concrete input. *)
Lemma writes_reach_the_callback_in_order_witness :
  let cfg := {| Threshold := 4; Timeout := 10; MaxSize := 8; Enabled := true |} in
  let calls := [ (0, [x61; x62], 0); (1, [x63; x64], 2);
                 (2, [x65; x66; x67; x68; x69; x6a], 4); (3, [x6b], 10) ] in
  let cb := λ (_ : bytes) (_ : Z) (w : unit), (w, @None unit) in
  ∃ wb w' tr,
    Writes (traced cb)
      {| Buffer := []; Offset := 0; LastWriteTime := 0; Config := cfg |}
      calls (tt, []) = (wb, (w', tr))
    ∧ concat tr.*1 ++ Buffer wb = concat ((λ c, c.1.2) <$> calls)
    ∧ ∃ wb' w'' tr',
        Close (traced cb) wb (w', tr) = (wb', (w'', tr'), None)
        ∧ Buffer wb' = []
        ∧ concat tr'.*1 = concat ((λ c, c.1.2) <$> calls).
Proof.
  intros cfg calls cb.
  apply (writes_reach_the_callback_in_order cb (λ _ _ _, eq_refl) (Some cfg)).
  reflexivity.
Defined.

Section bound.
Context {World E : Type}.
Variable cb : bytes → Z → World → World * option E.

(** The most the buffer can hold under a configuration. *)
Local Abbreviation bound cfg := (Z.max (MaxSize cfg) (Threshold cfg - 1)).

Lemma Write_bound wb now data offset w :
  len (Buffer wb) ≤ bound (Config wb) →
  len (Buffer (Write cb wb now data offset w).1.1) ≤ bound (Config wb)
  ∧ Config (Write cb wb now data offset w).1.1 = Config wb.
Proof.
  intros Hb. unfold Write.
  pose proof (flushLocked_buffer cb wb w) as [Hfb Hfc].
  assert (H0 : 0 ≤ bound (Config wb)).
  { pose proof (len_nonneg (Buffer wb)). lia. }
  destruct (Enabled (Config wb)); cbn [negb].
  2:{ by destruct (cb data offset w). }
  destruct (Z.geb_spec (len data) (Threshold (Config wb))) as [Hlarge|Hsmall].
  - destruct (len (Buffer wb) >? 0).
    + destruct (flushLocked cb wb w) as [[wb1 w1] [e|]]; cbn [fst snd] in *.
      * rewrite Hfb, Hfc. done.
      * destruct (cb data offset w1). cbn [fst snd]. rewrite Hfb, Hfc. done.
    + by destruct (cb data offset w).
  - assert (Hstage1 : ∃ wb1 w1 err1,
              (if (len (Buffer wb) >? 0)
                  && (now - LastWriteTime wb >? Timeout (Config wb))
               then flushLocked cb wb w else (wb, w, None)) = (wb1, w1, err1)
              ∧ len (Buffer wb1) ≤ bound (Config wb) ∧ Config wb1 = Config wb).
    { destruct (_ && _).
      - destruct (flushLocked cb wb w) as [[wb1 w1] err1]; cbn [fst snd] in *.
        exists wb1, w1, err1. by rewrite Hfb, Hfc.
      - by exists wb, w, None. }
    destruct Hstage1 as (wb1 & w1 & err1 & -> & Hb1 & Hc1).
    destruct err1 as [e|]; [done|].
    pose proof (flushLocked_buffer cb wb1 w1) as [Hfb1 Hfc1].
    destruct (Z.gtb_spec (len (Buffer wb1) + len data) (MaxSize (Config wb1)))
      as [Hover|Hfit].
    + destruct (flushLocked cb wb1 w1) as [[wb2 w2] [e|]]; cbn [fst snd] in *.
      * rewrite Hfb1, Hfc1, Hc1. done.
      * cbn [fst snd Buffer Config]. rewrite Hfb1. cbn [app].
        split; [lia|congruence].
    + cbn [fst snd Buffer Config]. rewrite len_app. rewrite Hc1 in Hfit.
      split; [lia|done].
Qed.

(** X22.  The buffer stays within bounds.  From a new buffer on, after
    any sequence of writes and whatever the callback answers, the buffer
    holds at most [MaxSize] bytes, or [Threshold - 1] if that is more;
    and a flush leaves the buffer empty even when the callback reports an
    error, so that data it was handed are not offered again. *)
Theorem buffer_stays_bounded config wb0 calls w :
  NewWriteBuffer config = Ret wb0 →
  let cfg := default DefaultConfig config in
  len (Buffer (Writes cb wb0 calls w).1) ≤ Z.max (MaxSize cfg) (Threshold cfg - 1)
  ∧ (Threshold cfg ≤ MaxSize cfg + 1 →
     len (Buffer (Writes cb wb0 calls w).1) ≤ MaxSize cfg)
  ∧ ∀ w', Buffer (Flush cb (Writes cb wb0 calls w).1 w').1.1 = [].
Proof.
  intros [-> HM]%NewWriteBuffer_inv cfg.
  assert (Hgen : ∀ calls wb w,
            len (Buffer wb) ≤ bound (Config wb) →
            len (Buffer (Writes cb wb calls w).1) ≤ bound (Config wb)).
  { clear. induction calls as [|[[now data] offset] rest IH]; intros wb w Hb; [done|].
    cbn [Writes]. destruct (Write_bound wb now data offset w Hb) as [Hb1 Hc1].
    destruct (Write cb wb now data offset w) as [[wb1 w1] err1]. cbn [fst snd] in *.
    rewrite <- Hc1. apply IH. by rewrite Hc1. }
  specialize (Hgen calls
                {| Buffer := []; Offset := 0; LastWriteTime := 0; Config := cfg |} w).
  cbn [Buffer Config] in Hgen. change (len (@nil byte)) with 0 in Hgen.
  subst cfg. specialize (Hgen ltac:(lia)).
  split; [done|]. split; [lia|].
  intros w'. apply flushLocked_buffer.
Qed.
End bound.

(** X20 at three writes of data, and at a write of no data ahead of
    one that brings a byte. *)
Lemma small_writes_coalesce_witness :
  let cfg := {| Threshold := 4; Timeout := 10; MaxSize := 8; Enabled := true |} in
  let cb := λ (_ : bytes) (_ : Z) (w : unit), (w, @None unit) in
  let wb0 := {| Buffer := []; Offset := 0; LastWriteTime := 0; Config := cfg |} in
  (∃ wb, Writes (traced cb) wb0
           [(0, [x61; x62], 100); (5, [x63], 7); (12, [x64; x65], 0)] (tt, [])
         = (wb, (tt, []))
     ∧ Buffer wb = [x61; x62; x63; x64; x65]
     ∧ Offset wb = 100
     ∧ Flush (traced cb) wb (tt, [])
       = ({| Buffer := []; Offset := 100; LastWriteTime := LastWriteTime wb;
             Config := cfg |},
          (tt, [([x61; x62; x63; x64; x65], 100)]), None))
  ∧ (∃ wb, Writes (traced cb) wb0 [(0, [], 100); (5, [x63], 7)] (tt, [])
           = (wb, (tt, []))
       ∧ Buffer wb = [x63]
       ∧ Offset wb = 7).
Proof.
  intros cfg cb wb0. split.
  - destruct (small_writes_coalesce cb cfg wb0
                0 [x61; x62] 100 [(5, [x63], 7); (12, [x64; x65], 0)] tt)
      as (wb & Hrun & Hbuf & Hoff & _ & Hflush).
    + reflexivity.
    + reflexivity.
    + repeat constructor; unfold len; cbn; lia.
    + unfold len. cbn. lia.
    + cbn. lia.
    + exists wb. split; [exact Hrun|]. split; [exact Hbuf|]. split; [exact Hoff|].
      exact Hflush.
  - destruct (small_writes_coalesce cb cfg wb0 0 [] 100 [(5, [x63], 7)] tt)
      as (wb & Hrun & Hbuf & Hoff & _).
    + reflexivity.
    + reflexivity.
    + repeat constructor; unfold len; cbn; lia.
    + unfold len. cbn. lia.
    + cbn. lia.
    + exists wb. split; [exact Hrun|]. split; [exact Hbuf|]. exact Hoff.
Defined.

(** X22 at a concrete input. *)
Lemma buffer_stays_bounded_witness :
  let cfg := {| Threshold := 4; Timeout := 10; MaxSize := 8; Enabled := true |} in
  let wb0 := {| Buffer := []; Offset := 0; LastWriteTime := 0; Config := cfg |} in
  let calls := [ (0, [x61; x62; x63], 0); (1, [x64; x65; x66], 3);
                 (2, [x67; x68; x69], 6); (30, [x6a], 9) ] in
  let cb := λ (_ : bytes) (_ : Z) (w : unit), (w, Some tt) in
  len (Buffer (Writes cb wb0 calls tt).1) ≤ Z.max 8 (4 - 1).
Proof.
  intros cfg wb0 calls cb.
  destruct (buffer_stays_bounded cb (Some cfg) wb0 calls tt eq_refl) as [H _].
  exact H.
Defined.

End write_buffer.

(** ** The optimized backend *)

Section backend.
Import cryptocore optimized_backend.

(** X23.  The optimized backend picks its cipher by the length of what it
    is given: [Seal] by the length of the plaintext, [Open] by the length
    of the ciphertext, which is 16 bytes more.  Over two ciphers that keep
    the AEAD contract [Open] undoes [Seal] whenever both take the same
    path: without AVX2 and AES-NI, for plaintexts of 1024 bytes or more,
    and for plaintexts below 1008 bytes.  For the lengths in between, a
    plaintext sealed by the standard cipher (under the nonce cut to 12
    bytes where that applies) is opened by the SIMD cipher under the
    whole nonce. *)
Theorem backend_paths (ob : OptimizedBackend) nonce P ad :
  AEAD_correct (gcm ob) →
  AEAD_correct (simdGCM ob) →
  (hasAVX2 ob && hasAESNI ob = false ∨ 1024 ≤ len P ∨ len P < 1008 →
   Open ob nonce (Seal ob nonce P ad) ad = Some P)
  ∧ (hasAVX2 ob && hasAESNI ob = true →
     1008 ≤ len P < 1024 →
     Open ob nonce (Seal ob nonce P ad) ad
     = cryptocore.Open (simdGCM ob) nonce
         (cryptocore.Seal (gcm ob)
            (if (len nonce =? 16) && (gcm_NonceSize ob =? 12)
             then slice_to nonce 12 else nonce) P ad) ad).
Proof.
  intros [Hos Hsl] [Hos' Hsl']. unfold AuthTagLen in *.
  unfold Open, Seal. rewrite <- !andb_assoc.
  destruct (hasAVX2 ob && hasAESNI ob) eqn:Hf.
  - rewrite !andb_true_r. split.
    + intros [?|[Hbig|Hsmall]]; [done| |].
      * destruct (Z.geb_spec (len P) 1024); [|lia].
        rewrite Hsl'. destruct (Z.geb_spec (len P + 16) 1024); [|lia]. apply Hos'.
      * destruct (Z.geb_spec (len P) 1024); [lia|].
        destruct ((len nonce =? 16) && (gcm_NonceSize ob =? 12));
          rewrite Hsl; (destruct (Z.geb_spec (len P + 16) 1024); [lia|]); apply Hos.
    + intros _ Hmid.
      destruct (Z.geb_spec (len P) 1024); [lia|].
      destruct ((len nonce =? 16) && (gcm_NonceSize ob =? 12));
        rewrite Hsl; by (destruct (Z.geb_spec (len P + 16) 1024); [|lia]).
  - rewrite !andb_false_r. split; [|done]. intros _.
    destruct ((len nonce =? 16) && (gcm_NonceSize ob =? 12)); apply Hos.
Qed.

(** X23 at a backend over two stand-in ciphers: a plaintext of 1010 bytes
    does not come back. *)
Lemma backend_paths_witness :
  Open standin.backend standin.nonce_one
    (Seal standin.backend standin.nonce_one (replicate 1010 x41) []) []
  = None
  ∧ Open standin.backend standin.nonce_one
      (Seal standin.backend standin.nonce_one (replicate 1000 x41) []) []
    = Some (replicate 1000 x41).
Proof.
  destruct (backend_paths standin.backend standin.nonce_one (replicate 1010 x41) []
              (standin_correct [x07]) (standin_correct [x08])) as [_ H].
  destruct (backend_paths standin.backend standin.nonce_one (replicate 1000 x41) []
              (standin_correct [x07]) (standin_correct [x08])) as [H' _].
  split.
  - rewrite H; [by vm_compute | reflexivity |].
    unfold len. rewrite length_replicate. lia.
  - apply H'. right. right. unfold len. rewrite length_replicate. lia.
Defined.

(** X24.  The worker count of the optimized backend is between 1 and 16
    and never more than a block count of at least 1; with AVX2 and AES-NI
    it is the count the parallel driver of [parallelcrypto.New] computes
    for the same number of CPUs. *)
Theorem backend_worker_count (ob : OptimizedBackend) (blockCount : Z) :
  1 ≤ cpuCount ob →
  float64.fits (cpuCount ob) →
  1 ≤ GetOptimalWorkerCount ob blockCount ≤ 16
  ∧ (1 ≤ blockCount → GetOptimalWorkerCount ob blockCount ≤ blockCount)
  ∧ (hasAVX2 ob && hasAESNI ob = true →
     GetOptimalWorkerCount ob blockCount
     = parallelcrypto.GetOptimalWorkerCount
         (parallelcrypto.New (cpuCount ob)) blockCount).
Proof.
  intros Hc _. unfold GetOptimalWorkerCount.
  destruct (Z.ltb_spec blockCount 4) as [Hlt|Hge].
  { split; [lia|]. split; [lia|]. intros _.
    unfold parallelcrypto.GetOptimalWorkerCount, parallelcrypto.ParallelThreshold.
    cbn [parallelcrypto.enabled parallelcrypto.New negb].
    by destruct (Z.ltb_spec blockCount 4); [|lia]. }
  assert (Hw : 1 ≤ (if hasAVX2 ob && hasAESNI ob
                    then float64.scale (cpuCount ob) float64.c1_5
                    else if hasAVX2 ob then float64.scale (cpuCount ob) float64.c1_2
                    else cpuCount ob)).
  { destruct (hasAVX2 ob && hasAESNI ob); [|destruct (hasAVX2 ob)];
      [apply scale_pos | apply scale_pos |]; unfold float64.c1_5, float64.c1_2; lia. }
  split; [|split].
  - set (w := if hasAVX2 ob && hasAESNI ob then _ else _) in *.
    destruct (Z.gtb_spec w 16);
      [destruct (Z.gtb_spec 16 blockCount) | destruct (Z.gtb_spec w blockCount)]; lia.
  - intros _. set (w := if hasAVX2 ob && hasAESNI ob then _ else _) in *.
    destruct (Z.gtb_spec w 16);
      [destruct (Z.gtb_spec 16 blockCount) | destruct (Z.gtb_spec w blockCount)]; lia.
  - intros Hf. rewrite Hf in *.
    unfold parallelcrypto.GetOptimalWorkerCount, parallelcrypto.ParallelThreshold,
      parallelcrypto.MinParallelWorkers, parallelcrypto.MaxParallelWorkers.
    cbn [parallelcrypto.enabled parallelcrypto.New negb parallelcrypto.cpuCount
         parallelcrypto.hasAVX2 parallelcrypto.hasAES parallelcrypto.hasAVX andb].
    destruct (Z.ltb_spec blockCount 4); [lia|].
    destruct (Z.ltb_spec (cpuCount ob) 2) as [Hone|]; [|done].
    assert (cpuCount ob = 1) as -> by lia.
    rewrite scale_c1_5 by lia. change (3 * 1 / 2) with 1.
    destruct (Z.gtb_spec 1 16); [lia|]. by destruct (Z.gtb_spec 1 blockCount); [lia|].
Qed.

(** X24 at the stand-in backend. *)
Lemma backend_worker_count_witness :
  GetOptimalWorkerCount standin.backend 100 = 6.
Proof.
  destruct (backend_worker_count standin.backend 100) as (_ & _ & H).
  - cbn. lia.
  - unfold float64.fits. cbn. lia.
  - rewrite H; reflexivity.
Defined.

End backend.

(** ** CPU features and the recommended backend *)

Section cpu_features.
Import cpudetection.

(** X25.  The backend a detector recommends.  For the detector [New]
    builds the recommendation follows from the platform alone: AES-GCM
    with OpenSSL on amd64, AES-GCM with Go on arm64 except under Windows
    (where NEON is not detected), XChaCha20-Poly1305 everywhere else; and
    AVX2 is never reported without AVX and AES-NI.  For every detector
    the recommendation is an AES backend exactly when [IsOptimalForAES]
    holds, and [IsOptimalForAES] implies [IsOptimalForChaCha]; on an
    architecture other than amd64 and arm64 neither holds. *)
Theorem recommended_backend :
  (∀ GOOS GOARCH,
     let cd := New GOOS GOARCH in
     GetRecommendedBackend cd
     = (if String.eqb GOARCH "amd64" then "aes-gcm-openssl"
        else if String.eqb GOARCH "arm64" && negb (String.eqb GOOS "windows")
             then "aes-gcm-go"
             else "xchacha20-poly1305-go")%string
     ∧ GetArchitecture cd = GOARCH
     ∧ (AVX2 (features cd) = true →
        AVX (features cd) = true ∧ AESNI (features cd) = true))
  ∧ (∀ cd,
       (IsOptimalForAES cd = true
        ↔ GetRecommendedBackend cd ≠ "xchacha20-poly1305-go"%string)
       ∧ (IsOptimalForAES cd = true → IsOptimalForChaCha cd = true)
       ∧ (Arch (features cd) ≠ "amd64"%string →
          Arch (features cd) ≠ "arm64"%string →
          IsOptimalForAES cd = false ∧ IsOptimalForChaCha cd = false)).
Proof.
  split.
  - intros GOOS GOARCH cd. subst cd.
    unfold GetRecommendedBackend, GetArchitecture, GetFeatures, New, detectFeatures,
      detectLinuxFeatures, detectDarwinFeatures, detectWindowsFeatures,
      detectGenericFeatures.
    cbn [features Arch].
    destruct (String.eqb_spec GOOS "linux") as [->|Hl];
      [|destruct (String.eqb_spec GOOS "darwin") as [->|Hd];
        [|destruct (String.eqb_spec GOOS "windows") as [->|Hw]]];
      (destruct (String.eqb_spec GOARCH "amd64") as [->|Ha];
       [|destruct (String.eqb_spec GOARCH "arm64") as [->|Hr]]);
      cbn; repeat split; try done;
      rewrite ?(proj2 (String.eqb_neq _ _) Ha), ?(proj2 (String.eqb_neq _ _) Hr),
        ?(proj2 (String.eqb_neq _ _) Hw); done.
  - intros [f]. unfold IsOptimalForAES, IsOptimalForChaCha, GetRecommendedBackend,
      GetFeatures. cbn [features].
    destruct (String.eqb_spec (Arch f) "amd64") as [Ha|Ha];
      destruct (String.eqb_spec (Arch f) "arm64") as [Hr|Hr];
      destruct (AESNI f), (NEON f); cbn; repeat split; try done; congruence.
Qed.

End cpu_features.

(** ** The manager of the write buffers *)

Section buffer_manager.
Import writecoalescing writebuffermanager.

(** A single buffer under a callback that never fails and whose effect on
    the world is seen through [obs], the data it has received. *)
Section observed.
Context {World E : Type}.
Variable cb : bytes → Z → World → World * option E.
Variable obs : World → bytes.
Hypothesis cb_ok : ∀ data offset w, (cb data offset w).2 = None.
Hypothesis cb_obs : ∀ data offset w, obs (cb data offset w).1 = obs w ++ data.

Lemma flushLocked_observed wb w :
  ∃ wb' w',
    flushLocked cb wb w = (wb', w', None)
    ∧ Buffer wb' = []
    ∧ writecoalescing.Config wb' = writecoalescing.Config wb
    ∧ obs w' = obs w ++ Buffer wb.
Proof.
  destruct (decide (Buffer wb = [])) as [Hb|Hb].
  - rewrite flushLocked_empty by done. exists wb, w. by rewrite Hb, app_nil_r.
  - rewrite flushLocked_nonempty by done. rewrite cb_ok.
    eexists _, _. split; [done|]. split; [done|]. split; [done|]. apply cb_obs.
Qed.

Lemma call_observed data offset w :
  cb data offset w = ((cb data offset w).1, None).
Proof. pose proof (cb_ok data offset w). by destruct (cb data offset w) as [? []]. Qed.

Lemma Write_observed wb now data offset w :
  (Enabled (writecoalescing.Config wb) = false → Buffer wb = []) →
  ∃ wb' w',
    writecoalescing.Write cb wb now data offset w = (wb', w', None)
    ∧ writecoalescing.Config wb' = writecoalescing.Config wb
    ∧ (Enabled (writecoalescing.Config wb) = false → Buffer wb' = [])
    ∧ obs w' ++ Buffer wb' = obs w ++ Buffer wb ++ data.
Proof.
  intros Hoff. unfold writecoalescing.Write.
  destruct (Enabled (writecoalescing.Config wb)); cbn [negb].
  2:{ rewrite call_observed. eexists _, _. split; [done|]. split; [done|].
      split; [done|]. by rewrite cb_obs, (Hoff eq_refl), !app_nil_r. }
  destruct (len data >=? Threshold (writecoalescing.Config wb)).
  - assert (Hflush : ∃ wb1 w1,
              (if len (Buffer wb) >? 0 then flushLocked cb wb w
               else (wb, w, None)) = (wb1, w1, None)
              ∧ Buffer wb1 = []
              ∧ writecoalescing.Config wb1 = writecoalescing.Config wb
              ∧ obs w1 = obs w ++ Buffer wb).
    { destruct (Z.gtb_spec (len (Buffer wb)) 0) as [|Hle];
        [apply flushLocked_observed|].
      exists wb, w. split; [done|].
      assert (Buffer wb = []) as ->.
      { apply len_zero_nil. pose proof (len_nonneg (Buffer wb)). lia. }
      by rewrite app_nil_r. }
    destruct Hflush as (wb1 & w1 & -> & Hb1 & Hc1 & Ho1).
    rewrite call_observed. eexists _, _. split; [done|]. split; [done|].
    split; [done|]. by rewrite cb_obs, Ho1, Hb1, app_nil_r, app_assoc.
  - assert (Htime : ∃ wb1 w1,
              (if (len (Buffer wb) >? 0)
                  && (now - LastWriteTime wb >? Timeout (writecoalescing.Config wb))
               then flushLocked cb wb w else (wb, w, None)) = (wb1, w1, None)
              ∧ writecoalescing.Config wb1 = writecoalescing.Config wb
              ∧ obs w1 ++ Buffer wb1 = obs w ++ Buffer wb).
    { destruct (_ && _).
      - destruct (flushLocked_observed wb w) as (wb1 & w1 & Hf & Hb & Hc & Ho).
        exists wb1, w1. by rewrite Hf, Hb, Ho, app_nil_r.
      - by exists wb, w. }
    destruct Htime as (wb1 & w1 & -> & Hc1 & Ho1).
    assert (Hsize : ∃ wb2 w2,
              (if len (Buffer wb1) + len data >? MaxSize (writecoalescing.Config wb1)
               then flushLocked cb wb1 w1 else (wb1, w1, None)) = (wb2, w2, None)
              ∧ writecoalescing.Config wb2 = writecoalescing.Config wb1
              ∧ obs w2 ++ Buffer wb2 = obs w1 ++ Buffer wb1).
    { destruct (_ >? _).
      - destruct (flushLocked_observed wb1 w1) as (wb2 & w2 & Hf & Hb & Hc & Ho).
        exists wb2, w2. by rewrite Hf, Hb, Ho, app_nil_r.
      - by exists wb1, w1. }
    destruct Hsize as (wb2 & w2 & -> & Hc2 & Ho2).
    eexists _, _. split; [done|]. cbn [writecoalescing.Config Buffer].
    split; [congruence|]. split; [done|].
    by rewrite app_assoc, Ho2, Ho1, <- app_assoc.
Qed.
End observed.

(** What the callback keeps, the methods of a buffer keep. *)
Section frame.
Context {World E : Type}.
Variable cb : bytes → Z → World → World * option E.
Variable I : World → Prop.
Hypothesis cb_I : ∀ data offset w, I w → I (cb data offset w).1.

Lemma flushLocked_frame wb w : I w → I (flushLocked cb wb w).1.2.
Proof.
  intros Hw. destruct (decide (Buffer wb = [])) as [Hb|Hb].
  - by rewrite flushLocked_empty.
  - rewrite flushLocked_nonempty by done. by apply cb_I.
Qed.

Lemma Write_frame wb now data offset w :
  I w → I (writecoalescing.Write cb wb now data offset w).1.2.
Proof.
  intros Hw. unfold writecoalescing.Write.
  pose proof (flushLocked_frame wb w Hw) as Hf.
  destruct (Enabled (writecoalescing.Config wb)); cbn [negb].
  2:{ pose proof (cb_I data offset w Hw). by destruct (cb data offset w). }
  destruct (len data >=? Threshold (writecoalescing.Config wb)).
  - assert (Hstage : I (if len (Buffer wb) >? 0 then flushLocked cb wb w
                        else (wb, w, None)).1.2).
    { by destruct (_ >? _). }
    destruct (if len (Buffer wb) >? 0 then _ else _) as [[wb1 w1] [e|]];
      cbn [fst snd] in *; [done|].
    pose proof (cb_I data offset w1 Hstage). by destruct (cb data offset w1).
  - assert (Hstage : I (if (len (Buffer wb) >? 0)
                           && (now - LastWriteTime wb
                               >? Timeout (writecoalescing.Config wb))
                        then flushLocked cb wb w else (wb, w, None)).1.2).
    { by destruct (_ && _). }
    destruct (if (len (Buffer wb) >? 0) && _ then _ else _) as [[wb1 w1] [e|]];
      cbn [fst snd] in *; [done|].
    pose proof (flushLocked_frame wb1 w1 Hstage) as Hf1.
    assert (Hstage2 : I (if len (Buffer wb1) + len data
                            >? MaxSize (writecoalescing.Config wb1)
                         then flushLocked cb wb1 w1 else (wb1, w1, None)).1.2).
    { by destruct (_ >? _). }
    by destruct (if len (Buffer wb1) + len data >? _ then _ else _)
      as [[wb2 w2] [e|]].
Qed.
End frame.

Lemma flushed_snoc f (tr : list (bytes * bytes * Z)) g data offset :
  flushed f (tr ++ [(g, data, offset)])
  = flushed f tr ++ (if decide (f = g) then data else []).
Proof.
  unfold flushed. rewrite filter_app, fmap_app, concat_app. f_equal.
  rewrite filter_cons, filter_nil. cbn [fst snd].
  destruct (decide (g = f)) as [->|Hne].
  - rewrite decide_True by done. cbn. by rewrite app_nil_r.
  - by rewrite decide_False by done.
Qed.

Lemma written_cons f g now data offset (calls : list (bytes * Z * bytes * Z)) :
  written f ((g, now, data, offset) :: calls)
  = (if decide (f = g) then data else []) ++ written f calls.
Proof.
  unfold written. rewrite filter_cons. cbn [fst snd].
  destruct (decide (g = f)) as [->|Hne].
  - by rewrite decide_True by done.
  - by rewrite decide_False by done.
Qed.

Section manager.
Context {World E : Type}.
Variable mcb : bytes → bytes → Z → World → World * option E.
Hypothesis mcb_ok : ∀ fileID data offset w, (mcb fileID data offset w).2 = None.

Local Abbreviation cbT := (writebuffermanager.traced mcb).

Lemma traced_ok g data offset w : (cbT g data offset w).2 = None.
Proof.
  destruct w as [w tr]. unfold writebuffermanager.traced.
  pose proof (mcb_ok g data offset w). by destruct (mcb g data offset w).
Qed.

Lemma traced_flushed f g data offset w :
  flushed f (cbT g data offset w).1.2
  = flushed f w.2 ++ (if decide (f = g) then data else []).
Proof.
  destruct w as [w tr]. unfold writebuffermanager.traced.
  destruct (mcb g data offset w). cbn [fst snd]. apply flushed_snoc.
Qed.

Lemma buffered_store wbm g b f :
  buffered f (store wbm g b) = if decide (f = g) then Buffer b else buffered f wbm.
Proof.
  unfold buffered, store. cbn [Buffers].
  destruct (decide (f = g)) as [->|Hne].
  - by rewrite lookup_insert_eq.
  - by rewrite lookup_insert_ne.
Qed.

Lemma Write_manager wbm g now data offset w :
  0 ≤ MaxSize (Config wbm) →
  uniform wbm →
  ∃ wbm' w',
    writebuffermanager.Write cbT wbm g now data offset w = Ret (wbm', w', None)
    ∧ Config wbm' = Config wbm
    ∧ uniform wbm'
    ∧ ∀ f, flushed f w'.2 ++ buffered f wbm'
           = flushed f w.2 ++ buffered f wbm
               ++ (if decide (f = g) then data else []).
Proof.
  intros HM Hu. unfold writebuffermanager.Write.
  assert (Hget : ∃ wbm1 b,
            GetBuffer wbm g = Ret (wbm1, b)
            ∧ Config wbm1 = Config wbm ∧ uniform wbm1
            ∧ writecoalescing.Config b = Config wbm
            ∧ (Enabled (Config wbm) = false → Buffer b = [])
            ∧ buffered g wbm = Buffer b
            ∧ ∀ f, f ≠ g → buffered f wbm1 = buffered f wbm).
  { unfold GetBuffer. destruct (Buffers wbm !! g) as [b|] eqn:Hg.
    - exists wbm, b. destruct (Hu g b Hg) as [Hc Hoff].
      split; [done|]. split; [done|]. split; [done|]. split; [done|].
      split; [done|]. split; [|done]. unfold buffered. by rewrite Hg.
    - unfold NewWriteBuffer. cbn [default from_option id].
      destruct (Z.ltb_spec (MaxSize (Config wbm)) 0); [lia|].
      cbn [mbind outcome_bind]. eexists _, _. split; [done|].
      split; [done|]. split.
      + intros f b Hf. unfold store in Hf. cbn [Buffers Config] in *.
        destruct (decide (f = g)) as [->|Hne].
        * rewrite lookup_insert_eq in Hf. by injection Hf as <-.
        * rewrite lookup_insert_ne in Hf by done. exact (Hu f b Hf).
      + cbn [writecoalescing.Config Buffer]. split; [done|]. split; [done|].
        split.
        * unfold buffered. by rewrite Hg.
        * intros f Hne. rewrite buffered_store. by rewrite decide_False. }
  destruct Hget as (wbm1 & b & -> & Hc1 & Hu1 & Hcb & Hboff & Hbg & Hother).
  cbn [mbind outcome_bind].
  destruct (Write_observed (cbT g) (λ w, flushed g w.2) (traced_ok g)
              (λ d o w', eq_trans (traced_flushed g g d o w')
                           ltac:(by rewrite decide_True))
              b now data offset w)
    as (b' & w' & HW & Hcb' & Hboff' & Hobs).
  { by rewrite Hcb. }
  pose proof (λ f (Hne : f ≠ g),
                Write_frame (cbT g) (λ w', flushed f w'.2 = flushed f w.2)
                  (λ d o w0 Hw0, eq_trans (traced_flushed f g d o w0)
                     ltac:(rewrite decide_False, app_nil_r by done; exact Hw0))
                  b now data offset w eq_refl) as Hframe.
  rewrite HW in Hframe. cbn [fst snd] in Hframe. rewrite HW.
  eexists _, _. split; [done|]. split; [done|]. split.
  - intros f b0 Hf. unfold store in Hf. cbn [Buffers Config] in *.
    destruct (decide (f = g)) as [->|Hne].
    + rewrite lookup_insert_eq in Hf. injection Hf as <-.
      unfold store. cbn [Config].
      rewrite Hc1, Hcb', Hcb. split; [done|]. rewrite <- Hcb. exact Hboff'.
    + rewrite lookup_insert_ne in Hf by done. exact (Hu1 f b0 Hf).
  - intros f. rewrite buffered_store.
    destruct (decide (f = g)) as [->|Hne].
    + by rewrite Hobs, Hbg.
    + rewrite (Hframe f Hne), Hother by done. by rewrite !app_nil_r.
Qed.

Lemma Writes_manager calls : ∀ wbm w,
  0 ≤ MaxSize (Config wbm) →
  uniform wbm →
  ∃ wbm' w',
    writebuffermanager.Writes cbT wbm calls w = Ret (wbm', w')
    ∧ ∀ f, flushed f w'.2 ++ buffered f wbm'
           = flushed f w.2 ++ buffered f wbm ++ written f calls.
Proof.
  induction calls as [|[[[g now] data] offset] rest IH]; intros wbm w HM Hu.
  - exists wbm, w. split; [done|]. intros f. unfold written. cbn.
    by rewrite app_nil_r.
  - cbn [writebuffermanager.Writes].
    destruct (Write_manager wbm g now data offset w HM Hu)
      as (wbm1 & w1 & -> & Hc1 & Hu1 & H1).
    cbn [mbind outcome_bind].
    destruct (IH wbm1 w1) as (wbm' & w' & Hrun & H'); [by rewrite Hc1|done|].
    exists wbm', w'. split; [done|]. intros f.
    rewrite H', app_assoc, H1, written_cons. by rewrite <- !app_assoc.
Qed.

Lemma closeEach_manager order : ∀ wbm w,
  ∃ wbm' w',
    closeEach cbT order wbm w None = (wbm', w', None)
    ∧ (∀ f, flushed f w'.2 ++ buffered f wbm' = flushed f w.2 ++ buffered f wbm)
    ∧ (∀ f, f ∈ order → Buffers wbm' !! f = None)
    ∧ (∀ f, Buffers wbm !! f = None → Buffers wbm' !! f = None).
Proof.
  induction order as [|g rest IH]; intros wbm w.
  - exists wbm, w. split; [done|]. split; [done|]. split; [|done].
    by intros f ?%elem_of_nil.
  - cbn [closeEach]. destruct (Buffers wbm !! g) as [b|] eqn:Hg.
    + unfold writecoalescing.Close, writecoalescing.Flush.
      destruct (flushLocked_observed (cbT g) (λ w, flushed g w.2) (traced_ok g)
                  (λ d o w', eq_trans (traced_flushed g g d o w')
                               ltac:(by rewrite decide_True)) b w)
        as (b' & w1 & Hf & _ & _ & Hobs).
      pose proof (λ f (Hne : f ≠ g),
                    flushLocked_frame (cbT g) (λ w', flushed f w'.2 = flushed f w.2)
                      (λ d o w0 Hw0, eq_trans (traced_flushed f g d o w0)
                         ltac:(rewrite decide_False, app_nil_r by done; exact Hw0))
                      b w eq_refl) as Hframe.
      rewrite Hf in Hframe |- *. cbn [fst snd] in Hframe.
      set (wbm1 := {| Buffers := delete g (Buffers wbm); Config := Config wbm |}).
      destruct (IH wbm1 w1) as (wbm' & w' & Hrun & Hfl & Hgone & Hkeep).
      exists wbm', w'. split; [done|]. split; [|split].
      * intros f. rewrite Hfl. unfold buffered. subst wbm1. cbn [Buffers].
        destruct (decide (f = g)) as [->|Hne].
        -- rewrite lookup_delete_eq, Hg. cbn. by rewrite Hobs, app_nil_r.
        -- rewrite lookup_delete_ne by done. by rewrite (Hframe f Hne).
      * intros f [->|Hin]%elem_of_cons; [|by apply Hgone].
        apply Hkeep. subst wbm1. cbn [Buffers]. apply lookup_delete_eq.
      * intros f Hnone. apply Hkeep. subst wbm1. cbn [Buffers].
        destruct (decide (f = g)) as [->|Hne]; [apply lookup_delete_eq|].
        by rewrite lookup_delete_ne.
    + destruct (IH wbm w) as (wbm' & w' & Hrun & Hfl & Hgone & Hkeep).
      exists wbm', w'. split; [done|]. split; [done|]. split; [|done].
      intros f [->|Hin]%elem_of_cons; [by apply Hkeep|by apply Hgone].
Qed.

(** X26.  The manager keeps the files apart.  While the callback
    succeeds, for every file the data the callback has received for it,
    in the order of its calls, followed by what the buffer of the file
    holds, are the data written to that file, in the order written,
    whatever writes to other files came in between.  [Close], in whatever
    order it walks the map, hands the callback what is left of every file
    and leaves the map empty. *)
Theorem files_are_kept_apart config calls w order :
  0 ≤ MaxSize (default DefaultConfig config) →
  ∃ wbm w' tr,
    writebuffermanager.Writes cbT (NewWriteBufferManager config) calls (w, [])
    = Ret (wbm, (w', tr))
    ∧ (∀ f, flushed f tr ++ buffered f wbm = written f calls)
    ∧ ((∀ f, is_Some (Buffers wbm !! f) → f ∈ order) →
       ∃ wbm' w'' tr',
         writebuffermanager.Close cbT order wbm (w', tr) = (wbm', (w'', tr'), None)
         ∧ Buffers wbm' = ∅
         ∧ ∀ f, flushed f tr' = written f calls).
Proof.
  intros HM.
  destruct (Writes_manager calls (NewWriteBufferManager config) (w, []) HM)
    as (wbm & [w' tr] & Hrun & Hdata).
  { intros f b Hf. unfold NewWriteBufferManager in Hf. cbn [Buffers] in Hf.
    by rewrite lookup_empty in Hf. }
  exists wbm, w', tr. split; [done|].
  assert (Hfiles : ∀ f, flushed f tr ++ buffered f wbm = written f calls).
  { intros f. specialize (Hdata f). cbn [snd] in Hdata. rewrite Hdata.
    unfold flushed at 1, buffered at 1.
    cbn [NewWriteBufferManager Buffers]. by rewrite lookup_empty. }
  split; [done|]. intros Hcover.
  destruct (closeEach_manager order wbm (w', tr))
    as (wbm' & [w'' tr'] & Hclose & Hfl & Hgone & _).
  exists wbm', w'', tr'. split; [done|].
  assert (Hempty : Buffers wbm' = ∅).
  { apply map_empty. intros f.
    destruct (Buffers wbm !! f) as [b|] eqn:Hf.
    - apply Hgone, Hcover. by rewrite Hf.
    - destruct (closeEach_manager order wbm (w', tr))
        as (wbm2 & w2 & Hclose2 & _ & _ & Hkeep).
      rewrite Hclose in Hclose2. injection Hclose2 as <- <-. by apply Hkeep. }
  split; [done|]. intros f. specialize (Hfl f). cbn [snd] in Hfl.
  unfold buffered at 1 in Hfl. rewrite Hempty, lookup_empty in Hfl. cbn in Hfl.
  rewrite app_nil_r in Hfl. by rewrite Hfl.
Qed.
End manager.

(** X26 at two files whose writes alternate. *)
Lemma files_are_kept_apart_witness :
  let cfg := {| Threshold := 4; Timeout := 10; MaxSize := 8; Enabled := true |} in
  let calls := [ ([x41], 0, [x61; x62], 0); ([x42], 1, [x78; x79], 0);
                 ([x41], 2, [x63; x64], 2);
                 ([x42], 3, [x7a; x7a; x7a; x7a; x7a], 2) ] in
  let mcb := λ (_ _ : bytes) (_ : Z) (w : unit), (w, @None unit) in
  ∃ wbm w' tr,
    writebuffermanager.Writes (writebuffermanager.traced mcb)
      (NewWriteBufferManager (Some cfg)) calls (tt, [])
    = Ret (wbm, (w', tr))
    ∧ (∀ f, flushed f tr ++ buffered f wbm = written f calls)
    ∧ ((∀ f, is_Some (Buffers wbm !! f) → f ∈ [[x42]; [x41]]) →
       ∃ wbm' w'' tr',
         writebuffermanager.Close (writebuffermanager.traced mcb) [[x42]; [x41]]
           wbm (w', tr) = (wbm', (w'', tr'), None)
         ∧ Buffers wbm' = ∅
         ∧ ∀ f, flushed f tr' = written f calls).
Proof.
  intros cfg calls mcb.
  apply (files_are_kept_apart mcb (λ _ _ _ _, eq_refl) (Some cfg) calls tt
           [[x42]; [x41]]).
  cbn. lia.
Defined.

End buffer_manager.

(** ** Decrypting a group: no panic *)

Section group_safety.
Import cryptocore contentenc parallelcrypto.

Lemma sequentialLoop_returns be F fuel :
  valid_fileID F →
  ∀ cBuf pBuf blockNo,
    ∃ r, sequentialLoop fuel be cBuf pBuf blockNo F = Ret r.
Proof.
  intros HF. induction fuel as [|fuel IH]; intros cBuf pBuf blockNo; [by eexists|].
  cbn [sequentialLoop]. destruct (len cBuf >? 0); [|by eexists].
  destruct (DecryptBlock_returns be
              (take (Z.to_nat (int_of_uint64 (cipherBS be))) cBuf) blockNo F HF)
    as [[p|e] ->]; cbn [mbind outcome_bind]; [apply IH|by eexists].
Qed.

Lemma runSteps_returns be cipherBlocks first F sched st :
  valid_fileID F →
  Forall (λ j, 0 ≤ j < len cipherBlocks) sched →
  ∃ st', runSteps (blockStep be cipherBlocks first F) sched st = Ret st'.
Proof.
  intros HF. revert st. induction sched as [|i sched IH]; intros st Hall;
    [by eexists|].
  apply Forall_cons in Hall as [Hi Hrest]. cbn [runSteps].
  destruct (DecryptBlock_returns be (default [] (cipherBlocks !! Z.to_nat i))
              (wrap64 (first + wrap64 i)) F HF) as [[p|e] Hr].
  - rewrite (blockStep_good be cipherBlocks first F st i p Hi Hr).
    cbn [mbind outcome_bind]. by apply IH.
  - rewrite (blockStep_bad be cipherBlocks first F st i e Hi Hr).
    cbn [mbind outcome_bind]. by apply IH.
Qed.

(** X27.  [DecryptBlocks] does not panic on a file ID the callers pass
    (nil or 16 bytes): for a codec built by [New], every ciphertext, block
    number and order of the goroutines it returns a plaintext and an
    error value.  With a file ID of another length [DecryptBlock] panics
    as soon as a block gets as far as the cipher. *)
Theorem DecryptBlocks_does_not_panic MAX numCPU cc pbs be sched ct first F :
  typed MAX cc pbs →
  float64.fits numCPU →
  contentenc.New MAX numCPU cc pbs = Ret be →
  (ShouldUseParallel (parallelCrypto be) (len ct `quot` cipherBS be) = true →
   ∀ d, ProcessBlocksParallel (parallelCrypto be) (len ct `quot` cipherBS be) = Ret d →
        schedule_of d sched) →
  (valid_fileID F →
   ∃ plaintext err, DecryptBlocks be sched ct first F = Ret (plaintext, err))
  ∧ (¬ valid_fileID F →
     ∀ block B,
       block ≠ [] →
       block ≠ allZeroBlock be →
       IVLen cc ≤ len block →
       slice_to block (IVLen cc) ≠ allZeroNonce be →
       DecryptBlock be block B F = Abort (Panic "wrong fileID length: %d")).
Proof.
  intros Ht _ HN Hsched.
  destruct (New_cipherBS _ _ _ _ _ Ht HN) as [Hc Hpc].
  destruct (New_inv _ _ _ _ _ Ht HN) as (Hbe & Hp & Hiv).
  split.
  - intros HF. unfold DecryptBlocks. rewrite int_of_uint64_small by lia.
    destruct (Z.eqb_spec (cipherBS be) 0) as [|_]; [lia|].
    set (n := len ct `quot` cipherBS be) in *.
    assert (Hn : 0 ≤ n).
    { subst n. rewrite Z.quot_div_nonneg by (pose proof (len_nonneg ct); lia).
      apply Z.div_pos; [apply len_nonneg|lia]. }
    destruct (Z.eqb_spec n 0) as [|Hn0]; [by eexists _, _|].
    assert (Hlen : len (splitBlocks be ct n) = n).
    { unfold len. rewrite length_splitBlocks. lia. }
    destruct (ShouldUseParallel (parallelCrypto be) n) eqn:Hpar.
    { unfold decryptBlocksParallel.
      destruct (ProcessBlocksParallel_tiles (parallelCrypto be) n ltac:(lia))
        as (d & Hd & Htiles).
      rewrite Hd. cbn [mbind outcome_bind].
      rewrite runDispatch_runSteps by (by apply Hsched).
      destruct (runSteps_returns be (splitBlocks be ct n) first F sched
                  {| plainBlocks := replicate (Z.to_nat n) []; decryptErr := None |} HF)
        as [st ->].
      { rewrite Hlen. apply in_range_of_Permutation.
        by apply (schedule_of_Permutation d), Hsched. }
      cbn [mbind outcome_bind]. destruct (assemble st). by eexists _, _. }
    destruct (ShouldUseBatch (parallelCrypto be) n).
    { unfold decryptBlocksBatch.
      pose proof (ProcessBlocksBatch_tiles (parallelCrypto be) n ltac:(lia)) as Htiles.
      destruct (ProcessBlocksBatch (parallelCrypto be) n) as [calls|calls] eqn:Hd.
      2:{ revert Hd. unfold ProcessBlocksBatch. by destruct (negb _). }
      cbn [runDispatch calls_of] in *.
      destruct (tiles_concat _ _ _ Htiles) as [_ Hcat]. rewrite Z.sub_0_r in Hcat.
      rewrite Hcat.
      destruct (runSteps_returns be (splitBlocks be ct n) first F (seqZ 0 n)
                  {| plainBlocks := replicate (Z.to_nat n) []; decryptErr := None |} HF)
        as [st ->].
      { rewrite Hlen. apply Forall_seqZ. lia. }
      cbn [mbind outcome_bind]. destruct (assemble st). by eexists _, _. }
    unfold decryptBlocksSequential.
    destruct (sequentialLoop_returns be F (length ct) HF ct [] first) as [[p e] ->].
    by eexists _, _.
  - intros HF block B Hne Hhole Hlong Hnonce. unfold DecryptBlock.
    destruct (Z.eqb_spec (len block) 0) as [H0|_]; [by apply len_zero_nil in H0|].
    apply bytes_Equal_false in Hhole. rewrite Hhole.
    rewrite Hbe at 1. cbn [cryptoCore].
    destruct (Z.ltb_spec (len block) (IVLen cc)); [lia|].
    rewrite Hbe at 1. cbn [cryptoCore].
    apply bytes_Equal_false in Hnonce. rewrite Hnonce.
    unfold concatAD. destruct F as [fid|]; [|done].
    cbn in HF. cbn [default from_option id].
    rewrite bool_decide_eq_true_2 by (by eexists).
    destruct (Z.eqb_spec (len fid) headerIDLen); [done|]. done.
Qed.

Ltac pick k :=
  eapply (interleaving_step _ k); [reflexivity|]; cbn.

(** X27 at the stand-in codec: seven whole blocks of noise and a tail, the goroutines in a mixed order. *)
Lemma DecryptBlocks_does_not_panic_witness :
  ∃ plaintext err,
    DecryptBlocks standin.be_small [5; 0; 6; 3; 1; 2; 4] (replicate 160 x5a) 0 None
    = Ret (plaintext, err).
Proof.
  destruct (DecryptBlocks_does_not_panic 1048576 4 (standin.cc [x07] 2) 4
              standin.be_small [5; 0; 6; 3; 1; 2; 4] (replicate 160 x5a) 0 None)
    as [H _].
  - unfold typed. cbn. lia.
  - unfold float64.fits. lia.
  - reflexivity.
  - intros _ d Hd. vm_compute in Hd. injection Hd as <-. cbn.
    pick 5%nat. pick 0%nat. pick 5%nat. pick 3%nat. pick 1%nat. pick 2%nat.
    pick 4%nat. apply interleaving_done. repeat constructor.
  - apply H. exact I.
Defined.

End group_safety.

(** ** The manager of the write buffers: flushing all *)

Section buffer_manager_flush.
Import writecoalescing writebuffermanager.

Section flush_all.
Context {World E : Type}.
Variable mcb : bytes → bytes → Z → World → World * option E.

Local Abbreviation cbA := (writebuffermanager.traced mcb).

(** One flush of the buffer of a file, whatever the callback answers. *)
Lemma Flush_traced g b w :
  Buffer (writecoalescing.Flush (cbA g) b w).1.1 = []
  ∧ ∀ f, flushed f (writecoalescing.Flush (cbA g) b w).1.2.2
         = flushed f w.2 ++ (if decide (f = g) then Buffer b else []).
Proof.
  unfold writecoalescing.Flush. split; [apply flushLocked_buffer|]. intros f.
  destruct (decide (Buffer b = [])) as [Hb|Hb].
  - rewrite flushLocked_empty by done. cbn [fst snd]. rewrite Hb.
    destruct (decide (f = g)); by rewrite app_nil_r.
  - rewrite flushLocked_nonempty by done. cbn [fst snd]. apply traced_flushed.
Qed.

Lemma flushEach_all order :
  NoDup order →
  ∀ wbm w lastErr,
    let r := flushEach cbA order wbm w lastErr in
    (∀ f, f ∈ order →
          buffered f r.1.1 = []
          ∧ flushed f r.1.2.2 = flushed f w.2 ++ buffered f wbm)
    ∧ (∀ f, f ∉ order →
            Buffers r.1.1 !! f = Buffers wbm !! f
            ∧ flushed f r.1.2.2 = flushed f w.2)
    ∧ (∀ f, is_Some (Buffers r.1.1 !! f) ↔ is_Some (Buffers wbm !! f))
    ∧ ((∀ fileID data offset w, (mcb fileID data offset w).2 = None) →
       r.2 = lastErr).
Proof.
  induction 1 as [|g order Hg Hnd IH]; intros wbm w lastErr; cbn zeta.
  { cbn [flushEach fst snd]. split; [by intros f ?%elem_of_nil|]. done. }
  cbn [flushEach]. destruct (Buffers wbm !! g) as [b|] eqn:Hb.
  - destruct (Flush_traced g b w) as [Hempty Hfl].
    destruct (writecoalescing.Flush (cbA g) b w) as [[b' w1] err] eqn:Hrun.
    cbn [fst snd] in Hempty, Hfl.
    specialize (IH (store wbm g b') w1
                  (match err with Some e => Some e | None => lastErr end)).
    cbn zeta in IH. destruct IH as (Hin & Hout & Hdom & Herr).
    split; [|split; [|split]].
    + intros f [->|Hf]%elem_of_cons.
      * destruct (Hout g Hg) as [Hsame Hflg]. split.
        -- unfold buffered. rewrite Hsame. unfold store. cbn [Buffers].
           by rewrite lookup_insert_eq.
        -- rewrite Hflg, Hfl, decide_True by done. unfold buffered. by rewrite Hb.
      * destruct (Hin f Hf) as [He Hflf]. split; [done|].
        rewrite Hflf, Hfl, buffered_store.
        assert (f ≠ g) by (by intros ->).
        rewrite !decide_False by done. by rewrite app_nil_r.
    + intros f Hf. apply not_elem_of_cons in Hf as [Hne Hf].
      destruct (Hout f Hf) as [Hsame Hflf]. split.
      * rewrite Hsame. unfold store. cbn [Buffers]. by rewrite lookup_insert_ne.
      * by rewrite Hflf, Hfl, decide_False, app_nil_r.
    + intros f. rewrite Hdom. unfold store. cbn [Buffers].
      destruct (decide (f = g)) as [->|Hne].
      * rewrite lookup_insert_eq, Hb. by split.
      * by rewrite lookup_insert_ne.
    + intros Hok. rewrite Herr by done.
      assert (err = None) as ->; [|done].
      revert Hrun. unfold writecoalescing.Flush.
      destruct (decide (Buffer b = [])) as [Hnil|Hnil].
      * rewrite flushLocked_empty by done. by intros [= _ _ <-].
      * rewrite flushLocked_nonempty by done. intros [= _ _ <-].
        destruct w as [w tr]. unfold writebuffermanager.traced.
        pose proof (Hok g (Buffer b) (Offset b) w). by destruct (mcb _ _ _ _).
  - specialize (IH wbm w lastErr). cbn zeta in IH.
    destruct IH as (Hin & Hout & Hdom & Herr).
    split; [|split; [|done]].
    + intros f [->|Hf]%elem_of_cons; [|by apply Hin].
      destruct (Hout g Hg) as [Hsame Hflg]. split.
      * unfold buffered. by rewrite Hsame, Hb.
      * rewrite Hflg. unfold buffered. by rewrite Hb, app_nil_r.
    + intros f Hf. apply not_elem_of_cons in Hf as [Hne Hf]. by apply Hout.
Qed.

(** X28.  [FlushAll] goes on after a failure.  Whatever the callback
    answers and in whatever order [range] yields the buffers, afterwards
    every buffer is empty and still in the map, and the callback has
    received, for every file, what the buffer of the file held, after the
    data it had received before.  When the callback never fails the call
    returns nil.  [Flush] for a file without a buffer does nothing. *)
Theorem FlushAll_flushes_every_buffer order wbm w tr :
  order ≡ₚ (map_to_list (Buffers wbm)).*1 →
  let r := FlushAll cbA order wbm (w, tr) in
  (∀ f, buffered f r.1.1 = []
        ∧ flushed f r.1.2.2 = flushed f tr ++ buffered f wbm
        ∧ (is_Some (Buffers r.1.1 !! f) ↔ is_Some (Buffers wbm !! f)))
  ∧ ((∀ fileID data offset w, (mcb fileID data offset w).2 = None) → r.2 = None)
  ∧ (∀ f, Buffers wbm !! f = None →
          writebuffermanager.Flush cbA wbm f (w, tr) = (wbm, (w, tr), None)).
Proof.
  intros Horder. cbn zeta. unfold FlushAll.
  assert (Hnd : NoDup order).
  { rewrite Horder. apply NoDup_fst_map_to_list. }
  assert (Hkeys : ∀ f, f ∈ order ↔ is_Some (Buffers wbm !! f)).
  { intros f. rewrite Horder, list_elem_of_fmap. split.
    - intros ([g b] & -> & Hin). apply elem_of_map_to_list in Hin. by eexists.
    - intros [b Hb]. exists (f, b). split; [done|]. by apply elem_of_map_to_list. }
  destruct (flushEach_all order Hnd wbm (w, tr) None) as (Hin & Hout & Hdom & Herr).
  cbn [snd] in Hin, Hout. split; [|split; [done|]].
  - intros f. destruct (decide (f ∈ order)) as [Hf|Hf].
    + destruct (Hin f Hf). done.
    + destruct (Hout f Hf) as [Hsame Hfl].
      assert (Hnone : Buffers wbm !! f = None).
      { apply eq_None_not_Some. by rewrite <- Hkeys. }
      split; [|split; [|done]].
      * unfold buffered. by rewrite Hsame, Hnone.
      * rewrite Hfl. unfold buffered. by rewrite Hnone, app_nil_r.
  - intros f Hnone. unfold writebuffermanager.Flush. by rewrite Hnone.
Qed.

End flush_all.

(** X28 at a callback that fails at every call: two files with data in
    their buffers. *)
Lemma FlushAll_flushes_every_buffer_witness :
  let cb : bytes → bytes → Z → unit → unit * option unit :=
    λ _ _ _ _, (tt, Some tt) in
  let buf d o := {| Buffer := d; Offset := o; LastWriteTime := 0;
                    writecoalescing.Config := DefaultConfig |} in
  let wbm := {| Buffers := <[[x61] := buf [x01; x02] 0]>
                             (<[[x62] := buf [x03] 7]> ∅);
                writebuffermanager.Config := DefaultConfig |} in
  let r := FlushAll (writebuffermanager.traced cb)
             (map_to_list (Buffers wbm)).*1 wbm (tt, []) in
  flushed [x61] r.1.2.2 = [x01; x02] ∧ flushed [x62] r.1.2.2 = [x03]
  ∧ buffered [x61] r.1.1 = [] ∧ buffered [x62] r.1.1 = [].
Proof.
  intros cb buf wbm.
  destruct (FlushAll_flushes_every_buffer cb (map_to_list (Buffers wbm)).*1 wbm tt [])
    as (H & _ & _); [done|].
  cbn zeta. destruct (H [x61]) as (Ha & Hb & _). destruct (H [x62]) as (Hc & Hd & _).
  split; [rewrite Hb; vm_compute; reflexivity|].
  split; [rewrite Hd; vm_compute; reflexivity|]. done.
Defined.

End buffer_manager_flush.

(** ** The driver without CPU features *)

Section plain_driver.
Import cryptocore contentenc parallelcrypto.

(** X29.  The driver of [parallelcrypto.go].  Whatever the number of
    CPUs and of blocks, [ProcessBlocksParallel] does not divide by zero.
    Below the threshold, or disabled, or on one CPU, it makes the one
    call [processFunc(0, blockCount)].  Otherwise it starts
    [min(8, NumCPU, blockCount)] goroutines on ranges that follow one
    another from 0 to [blockCount]: no two share a block, every range
    but the last holds [blockCount / workers] blocks and the last the
    remainder as well, and in every order of the goroutines every block
    is processed exactly once. *)
Theorem plain_driver_shards (numCPU : Z) (pc : parallelcrypto_plain.ParallelCrypto)
    (blockCount : Z) :
  let workers := parallelcrypto_plain.GetOptimalWorkerCount numCPU pc blockCount in
  (parallelcrypto_plain.ShouldUseParallel numCPU pc blockCount = false
   ∧ parallelcrypto_plain.ProcessBlocksParallel numCPU pc blockCount
     = Ret (Sequential [(0, blockCount)]))
  ∨ (parallelcrypto_plain.ShouldUseParallel numCPU pc blockCount = true
     ∧ workers = Z.min 8 (Z.min numCPU blockCount)
     ∧ ∃ calls,
         parallelcrypto_plain.ProcessBlocksParallel numCPU pc blockCount
         = Ret (Goroutines calls)
         ∧ len calls = workers
         ∧ tiles calls 0 blockCount
         ∧ pairwise_disjoint calls
         ∧ (∀ (k : nat) c, calls !! k = Some c →
              c.2 - c.1
              = if Z.of_nat k =? workers - 1
                then blockCount / workers + blockCount mod workers
                else blockCount / workers)
         ∧ ∀ sched, schedule_of (Goroutines calls) sched →
                    sched ≡ₚ seqZ 0 blockCount).
Proof.
  intros workers.
  destruct (parallelcrypto_plain.ShouldUseParallel numCPU pc blockCount) eqn:Hpar.
  2:{ left. split; [done|]. unfold parallelcrypto_plain.ProcessBlocksParallel.
      by rewrite Hpar. }
  right. split; [done|].
  assert (Hin : parallelcrypto_plain.enabled pc = true ∧ 2 ≤ numCPU ∧ 8 ≤ blockCount).
  { revert Hpar. unfold parallelcrypto_plain.ShouldUseParallel,
      parallelcrypto_plain.MinParallelWorkers, parallelcrypto_plain.ParallelThreshold.
    destruct (parallelcrypto_plain.enabled pc); [|done]. cbn [negb].
    destruct (Z.ltb_spec numCPU 2); [done|].
    destruct (Z.geb_spec blockCount 8); [done|done]. }
  destruct Hin as (Hen & Hcpu & Hb).
  assert (Hw : workers = Z.min 8 (Z.min numCPU blockCount)).
  { subst workers. unfold parallelcrypto_plain.GetOptimalWorkerCount,
      parallelcrypto_plain.MinParallelWorkers, parallelcrypto_plain.ParallelThreshold,
      parallelcrypto_plain.MaxParallelWorkers.
    rewrite Hen. cbn [negb].
    destruct (Z.ltb_spec blockCount 8); [lia|].
    destruct (Z.ltb_spec numCPU 2); [lia|].
    destruct (Z.gtb_spec numCPU 8).
    - destruct (Z.gtb_spec 8 blockCount); lia.
    - destruct (Z.gtb_spec numCPU blockCount); lia. }
  split; [done|].
  unfold parallelcrypto_plain.ProcessBlocksParallel. rewrite Hpar. cbn [negb].
  fold workers. destruct (Z.eqb_spec workers 0); [lia|].
  rewrite Z.quot_div_nonneg by lia.
  assert (Hg : 1 ≤ blockCount / workers) by (apply Z.div_le_lower_bound; lia).
  assert (Htiles : tiles (workerRange blockCount workers (blockCount / workers)
                            <$> seqZ 0 workers) 0 blockCount).
  { replace workers with (Z.of_nat (S (Z.to_nat (workers - 1)))) at 3 by lia.
    apply (tiles_workers blockCount workers (blockCount / workers)
             (Z.to_nat (workers - 1)) 0); [done| |lia|lia].
    apply Z.mul_div_le. lia. }
  eexists. split; [done|].
  split; [unfold len; rewrite length_fmap, length_seqZ; lia|].
  split; [done|]. split; [by apply (tiles_disjoint _ 0 blockCount)|]. split.
  - intros k c Hk. rewrite list_lookup_fmap in Hk.
    destruct (seqZ 0 workers !! k) as [a|] eqn:Ha; [|done].
    apply lookup_seqZ in Ha as [-> Hlt]. rewrite Z.add_0_l in Hk.
    injection Hk as <-.
    pose proof (Z.div_mod blockCount workers ltac:(lia)) as Hdm.
    destruct (Z.eqb_spec (Z.of_nat k) (workers - 1)) as [Heq|Hne].
    + rewrite Heq, workerRange_last. cbn [fst snd]. nia.
    + rewrite workerRange_inner by done. cbn [fst snd]. lia.
  - intros sched Hs.
    by apply (schedule_of_Permutation
                (Goroutines (workerRange blockCount workers (blockCount / workers)
                               <$> seqZ 0 workers))).
Qed.

End plain_driver.
